(** * LaTeX math to image converter: a model of [main.py] (version 2.2.0)

  The development follows the source file function by function:

  - [Regex]     the fragment of Python's [re] that the three patterns of the
                program use, as a backtracking matcher;
  - [Locator]   [extract_equations_with_spans];
  - [Rewriter]  [add_graphicx_package] and the splice loop of the main block;
  - [Renderer]  [latex_to_image] over the registry of open pyplot figures;
  - [Session]   the manual-entry and file-processing branches of the loop.

  Characters are modelled as [ascii]; a text is a [list ascii] and every
  offset counts characters from the start of the text, as Python's [str]
  indices do. *)

From Stdlib Require Import List Arith ZArith Lia Bool Ascii String DecimalString.
From Stdlib Require Import Sorting.Sorted Sorting.Permutation.
Import ListNotations.

Local Open Scope list_scope.

Definition text := list ascii.

(** [txt "..."] is the text of a string literal. *)
Definition txt (s : string) : text := list_ascii_of_string s.

(** Python's [s[i:j]] for [0 <= i], [0 <= j]. *)
Definition slice (t : text) (i j : nat) : text := firstn (j - i) (skipn i t).

(* ------------------------------------------------------------------ *)
(** * The regular-expression fragment *)

Module Regex.

(** The constructs that occur in [inline_pattern], [display_pattern] and the
    pattern of [add_graphicx_package]. *)
Inductive regex : Type :=
| Eps                               (* the empty pattern *)
| Chr (a : ascii)                   (* a literal character *)
| AnyChar                           (* [.] under [re.DOTALL] *)
| Cat (r1 r2 : regex)               (* concatenation *)
| LazyStar (r : regex)              (* [r*?] *)
| NotAhead (r : regex)              (* [(?!r)] *)
| NotBehind (a : ascii)             (* [(?<!a)] for one character *)
| Group (n : nat) (r : regex).      (* capturing group number [n] *)

(** A literal string. *)
Fixpoint lit (s : text) : regex :=
  match s with
  | [] => Eps
  | a :: s' => Cat (Chr a) (lit s')
  end.

(** Concatenation of a list of patterns. *)
Fixpoint seq (rs : list regex) : regex :=
  match rs with
  | [] => Eps
  | [r] => r
  | r :: rs' => Cat r (seq rs')
  end.

(** The matcher's cursor: the character just before the position (for the
    look-behind), the text still to read, the position, and the groups
    captured so far. *)
Record cursor : Type := Cursor {
  before : option ascii;
  rest   : text;
  pos    : nat;
  caps   : list (nat * (nat * nat))
}.

Definition advance (x : ascii) (xs : text) (c : cursor) : cursor :=
  {| before := Some x; rest := xs; pos := S (pos c); caps := caps c |}.

Definition set_cap (n : nat) (s e : nat) (c : cursor) : cursor :=
  {| before := before c; rest := rest c; pos := pos c;
     caps := (n, (s, e)) :: caps c |}.

(** The loop of a lazy star whose body is matched by [body]: the continuation
    is tried first and only then one more iteration; an iteration that
    consumes nothing is not repeated.  Every iteration consumes a character,
    so that the number of characters left bounds the number of iterations. *)
Fixpoint star_loop (body : cursor -> (cursor -> option cursor) -> option cursor)
  (k : cursor -> option cursor) (fuel : nat) (c : cursor) {struct fuel}
  : option cursor :=
  match k c with
  | Some e => Some e
  | None =>
      match fuel with
      | 0 => None
      | S fuel' =>
          body c (fun c1 => if pos c <? pos c1 then star_loop body k fuel' c1
                            else None)
      end
  end.

(** Backtracking match of [r] at cursor [c], then the continuation [k].
    [None] makes the matcher try its next alternative. *)
Fixpoint rmatch (r : regex) (c : cursor) (k : cursor -> option cursor)
  {struct r} : option cursor :=
  match r with
  | Eps => k c
  | Chr a =>
      match rest c with
      | x :: xs => if Ascii.eqb x a then k (advance x xs c) else None
      | [] => None
      end
  | AnyChar =>
      match rest c with
      | x :: xs => k (advance x xs c)
      | [] => None
      end
  | Cat r1 r2 => rmatch r1 c (fun c1 => rmatch r2 c1 k)
  | LazyStar r1 => star_loop (rmatch r1) k (List.length (rest c)) c
  | NotAhead r1 =>
      match rmatch r1 c Some with
      | Some _ => None
      | None => k c
      end
  | NotBehind a =>
      match before c with
      | Some x => if Ascii.eqb x a then None else k c
      | None => k c
      end
  | Group n r1 => rmatch r1 c (fun c1 => k (set_cap n (pos c) (pos c1) c1))
  end.

(** A match object: [start(0)], [end(0)] and the spans of the groups. *)
Record pymatch : Type := PyMatch {
  m_start : nat;
  m_end   : nat;
  m_caps  : list (nat * (nat * nat))
}.

(** [pattern.match] anchored at one position of the text. *)
Definition match_at (r : regex) (b : option ascii) (s : text) (p : nat)
  : option pymatch :=
  match rmatch r {| before := b; rest := s; pos := p; caps := [] |} Some with
  | Some e => Some {| m_start := p; m_end := pos e; m_caps := caps e |}
  | None => None
  end.

(** [re.search]: the match at the leftmost position that has one. *)
Fixpoint search_from (r : regex) (b : option ascii) (s : text) (p : nat)
  : option pymatch :=
  match match_at r b s p with
  | Some m => Some m
  | None =>
      match s with
      | [] => None
      | x :: xs => search_from r (Some x) xs (S p)
      end
  end.

Definition search (r : regex) (content : text) : option pymatch :=
  search_from r None content 0.

(** [re.finditer]: the non-overlapping matches from left to right.  After a
    match the scan resumes at its end: the positions below [busy] are the
    ones inside the previous match, where no match may start.  (The two
    patterns the program scans with start with a literal dollar, so that
    none of their matches is empty and the scan never has to step over an
    empty match.) *)
Fixpoint finditer_from (r : regex) (b : option ascii) (s : text)
  (p busy : nat) : list pymatch :=
  match (if p <? busy then None else match_at r b s p) with
  | Some m =>
      m :: match s with
           | [] => []
           | x :: xs => finditer_from r (Some x) xs (S p) (m_end m)
           end
  | None =>
      match s with
      | [] => []
      | x :: xs => finditer_from r (Some x) xs (S p) busy
      end
  end.

Definition finditer (r : regex) (content : text) : list pymatch :=
  finditer_from r None content 0 0.

(** [match.group(0)]. *)
Definition group0 (content : text) (m : pymatch) : text :=
  slice content (m_start m) (m_end m).

(** [match.group(n)]; the groups are read only after a successful match in
    which they took part, [None] stands for an unset group. *)
Fixpoint cap_lookup (n : nat) (cs : list (nat * (nat * nat)))
  : option (nat * nat) :=
  match cs with
  | [] => None
  | (n', se) :: cs' => if n =? n' then Some se else cap_lookup n cs'
  end.

Definition group (content : text) (m : pymatch) (n : nat) : option text :=
  match cap_lookup n (m_caps m) with
  | Some (s, e) => Some (slice content s e)
  | None => None
  end.

Definition group_end (m : pymatch) (n : nat) : option nat :=
  match cap_lookup n (m_caps m) with
  | Some (_, e) => Some e
  | None => None
  end.

End Regex.

(* ------------------------------------------------------------------ *)
(** * The Equation Locator *)

Module Locator.
Import Regex.

Definition dollar : ascii := "$"%char.
Definition backslash : ascii := "\"%char.

(** [(?<!\\)\$((?:(?!\$).)*?)(?<!\\)\$] *)
Definition inline_pattern : regex :=
  seq [ NotBehind backslash; Chr dollar;
        Group 1 (LazyStar (Cat (NotAhead (Chr dollar)) AnyChar));
        NotBehind backslash; Chr dollar ].

(** [(?<!\\)\$\$((?:(?!\$\$).)*?)(?<!\\)\$\$] *)
Definition display_pattern : regex :=
  seq [ NotBehind backslash; Chr dollar; Chr dollar;
        Group 1 (LazyStar (Cat (NotAhead (Cat (Chr dollar) (Chr dollar))) AnyChar));
        NotBehind backslash; Chr dollar; Chr dollar ].

(** An entry of [equations_data]:
    [(start_idx, end_idx, original_equation_str, is_display_math)]. *)
Definition span : Type := nat * nat * text * bool.

Definition span_start (e : span) : nat := fst (fst (fst e)).
Definition span_end (e : span) : nat := snd (fst (fst e)).
Definition span_raw (e : span) : text := snd (fst e).
Definition span_display (e : span) : bool := snd e.

(** The test of the inner loop: the candidate lies inside entry [e]. *)
Definition inside (m : pymatch) (e : span) : bool :=
  (span_start e <=? m_start m) && (m_end m <=? span_end e).

(** One iteration of the loop over the inline matches: [is_overlap] is
    computed against every entry collected so far. *)
Definition add_inline (content : text) (equations_data : list span)
  (m : pymatch) : list span :=
  let is_overlap := existsb (inside m) equations_data in
  if is_overlap then equations_data
  else equations_data ++ [(m_start m, m_end m, group0 content m, false)].

(** [list.sort(key=lambda x: x[0])]: a stable sort on the start offset. *)
Fixpoint insert_by_start (x : span) (l : list span) : list span :=
  match l with
  | [] => [x]
  | y :: l' =>
      if span_start x <=? span_start y then x :: l
      else y :: insert_by_start x l'
  end.

Definition sort_by_start (l : list span) : list span :=
  fold_right insert_by_start [] l.

Definition display_entries (content : text) : list span :=
  map (fun m => (m_start m, m_end m, group0 content m, true))
      (finditer display_pattern content).

(** The body of the [try] block once [content] has been read. *)
Definition locate_equations (content : text) : list span :=
  let equations_data := display_entries content in
  let equations_data :=
    fold_left (add_inline content) (finditer inline_pattern content)
              equations_data in
  sort_by_start equations_data.

End Locator.

(* ------------------------------------------------------------------ *)
(** * The Document Rewriter *)

Module Rewriter.
Import Regex.

Definition newline : ascii := "010"%char.

(** [needle in hay] on strings. *)
Fixpoint starts_with (prefix s : text) : bool :=
  match prefix, s with
  | [], _ => true
  | _ :: _, [] => false
  | a :: prefix', b :: s' => Ascii.eqb a b && starts_with prefix' s'
  end.

Fixpoint contains (needle hay : text) : bool :=
  starts_with needle hay ||
  match hay with
  | [] => false
  | _ :: hay' => contains needle hay'
  end.

Definition usepackage_graphicx : text := txt "\usepackage{graphicx}".

(** [(\\documentclass\{.*?\}.*?)(\\begin\{document\})] under [re.DOTALL]. *)
Definition preamble_pattern : regex :=
  Cat (Group 1 (seq [ lit (txt "\documentclass{"); LazyStar AnyChar;
                      Chr "}"%char; LazyStar AnyChar ]))
      (Group 2 (lit (txt "\begin{document}"))).

(** [add_graphicx_package].  Both groups of the pattern take part in every
    match; the last branch stands for an unset group. *)
Definition add_graphicx_package (content : text) : text :=
  if negb (contains usepackage_graphicx content) then
    match search preamble_pattern content with
    | Some m =>
        match group content m 1, group content m 2, group_end m 2 with
        | Some g1, Some g2, Some e2 =>
            g1 ++ (newline :: usepackage_graphicx) ++ g2 ++ skipn e2 content
        | _, _, _ => content
        end
    | None => usepackage_graphicx ++ [newline] ++ content
    end
  else content.

(** An entry of [replacements_for_content]:
    [(start_idx, end_idx, replacement_text)]. *)
Definition replacement : Type := nat * nat * text.

Definition r_start (r : replacement) : nat := fst (fst r).
Definition r_end (r : replacement) : nat := snd (fst r).
Definition r_text (r : replacement) : text := snd r.

(** [chars[start:end] = new] on a list, for offsets that are not negative:
    Python clips both offsets to the length, and a slice whose end lies
    before its start is the empty slice at its start. *)
Definition slice_assign (chars : text) (s e : nat) (new : text) : text :=
  firstn s chars ++ new ++ skipn (Nat.max s e) chars.

(** [list.sort(key=lambda x: x[0], reverse=True)]: stable, so that entries
    with the same start keep their order. *)
Fixpoint insert_desc (x : replacement) (l : list replacement)
  : list replacement :=
  match l with
  | [] => [x]
  | y :: l' =>
      if r_start y <=? r_start x then x :: l
      else y :: insert_desc x l'
  end.

Definition sort_desc (l : list replacement) : list replacement :=
  fold_right insert_desc [] l.

(** The splice loop of the main block:
    [final_chars = list(original_content)], the sort, and the loop of slice
    assignments; [replacements_made] counts its iterations. *)
Definition apply_replacements (original_content : text)
  (replacements_for_content : list replacement) : text * nat :=
  fold_left
    (fun '(final_chars, replacements_made) r =>
       (slice_assign final_chars (r_start r) (r_end r) (r_text r),
        S replacements_made))
    (sort_desc replacements_for_content)
    (original_content, 0).

Definition splice (original_content : text) (rs : list replacement) : text :=
  fst (apply_replacements original_content rs).

(** ** The single left-to-right pass of the design notes

    This definition follows the words of the specification, not the source:
    the output is built from the triples sorted by ascending start, copying
    the untouched segment before each range and then the replacement. *)
Fixpoint insert_asc (x : replacement) (l : list replacement)
  : list replacement :=
  match l with
  | [] => [x]
  | y :: l' =>
      if r_start x <=? r_start y then x :: l
      else y :: insert_asc x l'
  end.

Definition sort_asc (l : list replacement) : list replacement :=
  fold_right insert_asc [] l.

Fixpoint copy_pass (original : text) (cur : nat) (rs : list replacement)
  : text :=
  match rs with
  | [] => skipn cur original
  | r :: rs' =>
      slice original cur (r_start r) ++ r_text r
        ++ copy_pass original (r_end r) rs'
  end.

Definition splice_left_to_right (original : text) (rs : list replacement)
  : text :=
  copy_pass original 0 (sort_asc rs).

End Rewriter.

(* ------------------------------------------------------------------ *)
(** * The program's world: console, figures and files *)

Module Runtime.

(** The exception classes the program tells apart; every one of them is an
    [Exception], and [message] is what [str(e)] prints. *)
Inductive exn_kind : Type :=
| FileNotFoundError
| SyntaxError
| ValueError
| EOFError
| OtherException.

Record exn : Type := Exn { kind : exn_kind; message : text }.

Inductive outcome (A : Type) : Type :=
| Returns (a : A)
| Raises (e : exn).

Arguments Returns {A} a.
Arguments Raises {A} e.

(** What the program can change: the lines still to be typed on standard
    input, what was written to the console (one entry per [print] or prompt),
    the numbers of the figures open in pyplot, the PNG files saved (path,
    equation, dpi) and the text files written (path, content). *)
Record world : Type := World {
  stdin   : list text;
  console : list text;
  figures : list nat;
  images  : list (text * text * Z);
  written : list (text * text)
}.

Definition M (A : Type) : Type := world -> outcome A * world.

Definition ret {A} (a : A) : M A := fun w => (Returns a, w).

Definition bind {A B} (m : M A) (f : A -> M B) : M B :=
  fun w =>
    match m w with
    | (Returns a, w') => f a w'
    | (Raises e, w') => (Raises e, w')
    end.

Definition raise {A} (e : exn) : M A := fun w => (Raises e, w).

(** [try: m except Exception as e: handler e]. *)
Definition try_except {A} (m : M A) (handler : exn -> M A) : M A :=
  fun w =>
    match m w with
    | (Returns a, w') => (Returns a, w')
    | (Raises e, w') => handler e w'
    end.

Definition print (line : text) : M unit :=
  fun w =>
    (Returns tt,
     {| stdin := stdin w; console := console w ++ [line];
        figures := figures w; images := images w; written := written w |}).

(** [input(prompt)]: the prompt goes to the console, the next line is read;
    at the end of the input Python raises [EOFError]. *)
Definition input (prompt : text) : M text :=
  fun w =>
    let w1 := {| stdin := stdin w; console := console w ++ [prompt];
                 figures := figures w; images := images w;
                 written := written w |} in
    match stdin w with
    | [] => (Raises {| kind := EOFError; message := [] |}, w1)
    | line :: more =>
        (Returns line,
         {| stdin := more; console := console w1;
            figures := figures w1; images := images w1;
            written := written w1 |})
    end.

End Runtime.

Declare Scope py_scope.
Delimit Scope py_scope with py.
Notation "x <- m ;; k" := (Runtime.bind m (fun x => k))
  (at level 61, m at next level, right associativity) : py_scope.
Notation "m ;; k" := (Runtime.bind m (fun _ => k))
  (at level 61, right associativity) : py_scope.

(* ------------------------------------------------------------------ *)
(** * The Equation Renderer *)

Module Renderer.
Import Runtime.
Local Open Scope py_scope.

Section Backend.

(** Matplotlib is outside the repository.  [savefig equation path dpi] says
    whether drawing and saving the figure that holds [equation] succeeds
    ([None]) or raises. *)
Variable savefig : text -> text -> Z -> option exn.

(** [plt.figure(...)]: pyplot numbers a new figure one above the largest
    number in use and registers it. *)
Definition plt_figure : M nat :=
  fun w =>
    let fig := S (list_max (figures w)) in
    (Returns fig,
     {| stdin := stdin w; console := console w;
        figures := fig :: figures w; images := images w;
        written := written w |}).

(** [plt.savefig(...)] of the current figure. *)
Definition plt_savefig (latex_equation output_filename : text)
  (dpi : Z) : M unit :=
  fun w =>
    match savefig latex_equation output_filename dpi with
    | None =>
        (Returns tt,
         {| stdin := stdin w; console := console w; figures := figures w;
            images := images w ++ [(output_filename, latex_equation, dpi)];
            written := written w |})
    | Some e => (Raises e, w)
    end.

(** [plt.close(fig)]. *)
Definition plt_close (fig : nat) : M unit :=
  fun w =>
    (Returns tt,
     {| stdin := stdin w; console := console w;
        figures := remove Nat.eq_dec fig (figures w); images := images w;
        written := written w |}).

(** [latex_to_image].  Adding the axes, placing the text and hiding the ticks
    leave the registry of figures as it is. *)
Definition latex_to_image (latex_equation output_filename : text)
  (dpi : Z) : M unit :=
  try_except
    (fig <- plt_figure ;;
     plt_savefig latex_equation output_filename dpi ;;
     plt_close fig ;;
     print (txt "Successfully converted LaTeX equation to " ++ output_filename))
    (fun e =>
       print (txt "An error occurred during image generation for '"
                ++ latex_equation ++ txt "': " ++ message e) ;;
       print (txt "Please ensure your LaTeX equation is correctly formatted and enclosed in '$...$' or '$$...$$'.") ;;
       print (txt "Also, verify that a LaTeX distribution (like MiKTeX) is installed and in your system's PATH.") ;;
       raise e).

End Backend.

End Renderer.

(* ------------------------------------------------------------------ *)
(** * The Interactive Session Controller *)

Module Session.
Import Regex Locator Rewriter Runtime Renderer.
Local Open Scope py_scope.

Section Controller.

(** The parts of Python and of the operating system the main block calls:
    the plotting backend, [eval] and [int] on an entered line,
    [open(path).read()], [str.lower().strip()], the [os.path] functions and
    the two operations that write to the disk. *)
Variable savefig : text -> text -> Z -> option exn.
Variable py_eval : text -> outcome text.
Variable py_int : text -> option Z.
Variable read_file : text -> outcome text.
Variable lower_strip : text -> text.
Variable output_dir : text.
Variable path_join : text -> text -> text.
Variable path_basename : text -> text.
Variable path_stem : text -> text.   (* [os.path.splitext(os.path.basename(p))[0]] *)
Variable makedirs : text -> option exn.
Variable write_file : text -> text -> option exn.

(** [extract_equations_with_spans]: [equations_data] starts empty and is
    returned whatever happened; both handlers only print. *)
Definition extract_equations_with_spans (file_path : text) : M (list span) :=
  match read_file file_path with
  | Returns content => ret (locate_equations content)
  | Raises e =>
      match kind e with
      | FileNotFoundError =>
          print (txt "Error: The file '" ++ file_path ++ txt "' was not found.") ;;
          ret []
      | _ =>
          print (txt "An error occurred while reading or parsing the LaTeX file: "
                   ++ message e) ;;
          ret []
      end
  end.

(** The DPI prompt of both modes. *)
Definition read_dpi (prompt : text) : M Z :=
  dpi_input <- input prompt ;;
  match dpi_input with
  | [] => ret 300%Z
  | _ =>
      match py_int dpi_input with
      | Some dpi => ret dpi
      | None => print (txt "Invalid DPI. Using default 300.") ;; ret 300%Z
      end
  end.

(** The test of the manual mode on the entered line. *)
Definition valid_manual_input (latex_input : text) : bool :=
  starts_with (txt "r'$") latex_input || starts_with (txt "r'$$") latex_input.

Definition syntax_error_line : text :=
  txt "Error: Invalid Python string syntax. Make sure your raw string is correctly formatted (e.g., r'formula').".

(** The branch [mode == 'm']. *)
Definition manual_mode : M unit :=
  print (newline :: txt "--- Manual Equation Entry Mode ---") ;;
  print (txt "IMPORTANT: Your LaTeX input MUST be a raw string (r'...')") ;;
  print (txt "           AND enclosed in dollar signs for math mode ($...$ or $$...$$).") ;;
  print (txt "Example (Inline): '$\\alpha + \\beta = \\gamma$'") ;;
  print (txt "Example (Display): '$$\\int_0^\\infty e^{-x^2} dx = \\frac{\\sqrt{\\pi}}{2}$$'") ;;
  print (txt "-----------------------------------------------------") ;;
  latex_input <- input (txt "Enter LaTeX equation: ") ;;
  if negb (valid_manual_input latex_input) then
    print (newline :: txt "Error: Your input must start with r'$' or r'$$' and contain valid math LaTeX.") ;;
    print (txt "Please re-enter your equation following the format guidelines.")
  else
    output_name <- input (txt "Enter output filename (e.g., equation.png, press Enter for 'output_equation.png'): ") ;;
    let output_name :=
      match output_name with
      | [] => txt "output_equation.png"
      | _ => output_name
      end in
    dpi <- read_dpi (txt "Enter DPI for the image (default: 300): ") ;;
    try_except
      (latex_equation_str <- (fun w => (py_eval latex_input, w)) ;;
       latex_to_image savefig latex_equation_str output_name dpi)
      (fun e =>
         match kind e with
         | SyntaxError => print syntax_error_line
         | _ =>
             print (txt "An unexpected error occurred during processing: "
                      ++ message e)
         end).

(** [str(n)] for a natural number. *)
Definition str_of_nat (n : nat) : text :=
  txt (NilEmpty.string_of_uint (Nat.to_uint n)).

Definition text_eqb (a b : text) : bool :=
  if list_eq_dec Ascii.ascii_dec a b then true else false.

Definition no_equations_line (file_path : text) : text :=
  txt "No equations found in '" ++ file_path
    ++ txt "' or file could not be read. Please check the file path and content.".

(** The loop over [enumerate(equations_data)]: one image per equation and,
    in sub-mode [r], one replacement per image that was rendered. *)
Fixpoint render_equations (tex_file_base_name sub_mode : text)
  (dpi : Z) (i : nat) (equations_data : list span)
  (replacements_for_content : list replacement) : M (list replacement) :=
  match equations_data with
  | [] => ret replacements_for_content
  | (start_idx, end_idx, original_equation_str, is_display_math) :: more =>
      let image_filename :=
        tex_file_base_name ++ txt "_equation_" ++ str_of_nat (i + 1)
          ++ txt ".png" in
      let output_image_path := path_join output_dir image_filename in
      replacements_for_content <-
        try_except
          (latex_to_image savefig original_equation_str output_image_path dpi ;;
           if text_eqb sub_mode (txt "r") then
             let image_include_command :=
               txt "\includegraphics{" ++ path_basename output_image_path
                 ++ txt "}" in
             let replacement_text :=
               if is_display_math then
                 [newline] ++ txt "\begin{center}" ++ [newline]
                   ++ image_include_command ++ [newline]
                   ++ txt "\end{center}" ++ [newline]
               else
                 txt "\raisebox{-0.2\height}{\includegraphics[width=0.15\linewidth]{"
                   ++ path_basename output_image_path ++ txt "}}" in
             ret (replacements_for_content
                    ++ [(start_idx, end_idx, replacement_text)])
           else ret replacements_for_content)
          (fun e =>
             print (txt "Skipping image generation for '"
                      ++ original_equation_str ++ txt "' due to error: "
                      ++ message e) ;;
             ret replacements_for_content) ;;
      render_equations tex_file_base_name sub_mode dpi (S i) more
        replacements_for_content
  end.

(** The branch [mode == 'f'] from the call of the Locator on. *)
Definition process_file (file_path sub_mode : text) (dpi : Z)
  : M unit :=
  equations_data <- extract_equations_with_spans file_path ;;
  match equations_data with
  | [] => print (no_equations_line file_path)
  | _ :: _ =>
      (fun w => match makedirs output_dir with
                | None => (Returns tt, w)
                | Some e => (Raises e, w)
                end) ;;
      match read_file file_path with
      | Raises e =>
          print (txt "Error reading original LaTeX file: " ++ message e)
      | Returns original_content =>
          let tex_file_base_name := path_stem file_path in
          replacements_for_content <-
            render_equations tex_file_base_name sub_mode dpi 0
              equations_data [] ;;
          if text_eqb sub_mode (txt "r") then
            let '(final_content, replacements_made) :=
              apply_replacements original_content replacements_for_content in
            let final_content := add_graphicx_package final_content in
            let output_tex_filename :=
              path_join output_dir
                (path_stem file_path ++ txt "_with_images.tex") in
            match write_file output_tex_filename final_content with
            | Some e =>
                print (txt "Error writing new LaTeX file: " ++ message e)
            | None =>
                (fun w =>
                   (Returns tt,
                    {| stdin := stdin w; console := console w;
                       figures := figures w; images := images w;
                       written := written w
                                    ++ [(output_tex_filename, final_content)] |})) ;;
                print (newline :: txt "Successfully generated new LaTeX file with images: "
                         ++ output_tex_filename) ;;
                print (txt "Total equations replaced: "
                         ++ str_of_nat replacements_made) ;;
                print (txt "IMPORTANT: If your original LaTeX file used '\input' or '\include' for other files,") ;;
                print (txt "           those will remain as references. You might need to manually compile") ;;
                print (txt "           the new .tex file and its dependencies, or modify your original project structure.") ;;
                print (txt "           Also, delete all .aux, .toc, .log files before recompiling the new .tex.")
            end
          else
            print (newline :: txt "Finished converting equations to images from '"
                     ++ file_path ++ txt "'. Images saved in '" ++ output_dir
                     ++ txt "'.")
      end
  end.

Definition file_mode : M unit :=
  print (newline :: txt "--- Process LaTeX File Mode ---") ;;
  file_path <- input (txt "Enter the full path to your LaTeX (.tex) file: ") ;;
  dpi <- read_dpi (txt "Enter DPI for the images (default: 300): ") ;;
  sub_mode <- input (txt "Choose sub-mode: (i) Images only or (r) Replace in new .tex file: ") ;;
  let sub_mode := lower_strip sub_mode in
  if negb (text_eqb sub_mode (txt "i") || text_eqb sub_mode (txt "r")) then
    print (txt "Invalid sub-mode choice. Please enter 'i' or 'r'.")
  else process_file file_path sub_mode dpi.

(** One iteration of the [while True] loop; [false] is the [break]. *)
Definition loop_body : M bool :=
  mode <- input (txt "Enter your choice (m/f/e): ") ;;
  let mode := lower_strip mode in
  if text_eqb mode (txt "e") then ret false
  else if text_eqb mode (txt "m") then manual_mode ;; ret true
  else if text_eqb mode (txt "f") then file_mode ;; ret true
  else print (txt "Invalid choice. Please enter 'm', 'f', or 'e'.") ;; ret true.

End Controller.

End Session.

(* ------------------------------------------------------------------ *)
(** * Vocabulary of the statements *)

Module Props.
Import Regex Locator Rewriter Runtime.

(** The world [w] after the given lines went to the console. *)
Definition printed (w : world) (lines : list text) : world :=
  {| stdin := stdin w; console := console w ++ lines; figures := figures w;
     images := images w; written := written w |}.

(** What the Locator prints for a path that does not exist. *)
Definition not_found_line (file_path : text) : text :=
  txt "Error: The file '" ++ file_path ++ txt "' was not found.".

(** A world in which nothing has happened and nothing is typed. *)
Definition idle : world :=
  {| stdin := []; console := []; figures := []; images := []; written := [] |}.

(** The group numbers that occur in a pattern. *)
Fixpoint groups_of (r : regex) : list nat :=
  match r with
  | Eps | Chr _ | AnyChar | NotBehind _ => []
  | Cat r1 r2 => groups_of r1 ++ groups_of r2
  | LazyStar r1 => groups_of r1
  | NotAhead _ => []
  | Group n r1 => n :: groups_of r1
  end.

(** [reach gs c c']: the cursor [c'] lies at or after [c] in the same text,
    and has recorded, on top of the groups of [c], only groups of [gs]. *)
Definition reach (gs : list nat) (c c' : cursor) : Prop :=
  exists u extra,
    rest c = u ++ rest c' /\
    pos c' = pos c + List.length u /\
    caps c' = extra ++ caps c /\
    Forall (fun ce => In (fst ce) gs) extra.

(** [ahead c c']: [c'] lies at or after [c] in the same text. *)
Definition ahead (c c' : cursor) : Prop :=
  exists u, rest c = u ++ rest c' /\ pos c' = pos c + List.length u.

(** Two entries share a character position. *)
Definition overlap (e1 e2 : span) : Prop :=
  exists p, span_start e1 <= p < span_end e1 /\ span_start e2 <= p < span_end e2.

(** A replacement range lies within the text. *)
Definition in_bounds (original : text) (r : replacement) : Prop :=
  r_start r <= r_end r /\ r_end r <= List.length original.

(** Two replacement ranges share no character position: one of them ends
    where or before the other one starts. *)
Definition disjoint (r1 r2 : replacement) : Prop :=
  r_end r1 <= r_start r2 \/ r_end r2 <= r_start r1.

(** [r1] comes wholly before [r2]. *)
Definition precedes (r1 r2 : replacement) : Prop :=
  r_end r1 <= r_start r2 /\ r_start r1 < r_start r2.

(** The loop of slice assignments on the characters alone. *)
Definition assign_step (r : replacement) (chars : text) : text :=
  slice_assign chars (r_start r) (r_end r) (r_text r).

(** The character just before the position reached by reading [u] from a
    position that has [b] before it. *)
Fixpoint last_before (b : option ascii) (u : text) : option ascii :=
  match u with
  | [] => b
  | x :: u' => last_before (Some x) u'
  end.

(** A delimiter that comes after [b] is not escaped. *)
Definition unescaped (b : option ascii) : bool :=
  match b with
  | Some x => negb (Ascii.eqb x backslash)
  | None => true
  end.

(** Text between equations: every dollar in it has a backslash before it. *)
Fixpoint plain (b : option ascii) (u : text) : bool :=
  match u with
  | [] => true
  | x :: u' => (negb (Ascii.eqb x dollar) || negb (unescaped b))
               && plain (Some x) u'
  end.

(** The text [w] does not begin with a dollar. *)
Definition no_dollar_head (w : text) : bool :=
  match w with
  | [] => true
  | x :: _ => negb (Ascii.eqb x dollar)
  end.

(** The content of an equation: it holds no dollar. *)
Definition dollar_free (u : text) : bool :=
  forallb (fun x => negb (Ascii.eqb x dollar)) u.

Definition display_math (a : text) : text :=
  dollar :: dollar :: a ++ [dollar; dollar].

Definition inline_math (b : text) : text :=
  dollar :: b ++ [dollar].

(** The parts of a document with one display equation [$$a$$] and one inline
    equation [$b$], [pre] before them, [mid] between them and [post] after
    them: the surrounding text has no dollar that is not escaped, the
    contents have no dollar, the inline content is not empty, and no
    delimiter has a backslash before it. *)
Definition one_of_each (pre a mid b post : text) : bool :=
  plain None pre && unescaped (last_before None pre)
  && dollar_free a && unescaped (last_before (Some dollar) a)
  && plain (Some dollar) mid && unescaped (last_before (Some dollar) mid)
  && negb (Nat.eqb (List.length b) 0)
  && dollar_free b && unescaped (last_before (Some dollar) b)
  && plain (Some dollar) post.

(** A pattern that starts with [(?<!\\)\$] matches at an unescaped dollar
    only. *)
Definition opens_with_dollar (r : regex) : Prop :=
  (forall b p, match_at r b [] p = None) /\
  (forall b x xs p,
      Ascii.eqb x dollar = false \/ unescaped b = false ->
      match_at r b (x :: xs) p = None).

(** A file system with one readable file, [notes.tex], that holds no math. *)
Definition one_file : text -> outcome text :=
  fun path =>
    if list_eq_dec Ascii.ascii_dec path (txt "notes.tex")
    then Returns (txt "no math here")
    else Raises {| kind := FileNotFoundError; message := txt "No such file" |}.

(** What the loop of a star hands on after it has read [u]. *)
Definition after (b : option ascii) (u w : text) (p : nat)
  (cs : list (nat * (nat * nat))) : cursor :=
  {| before := last_before b u; rest := w; pos := p + List.length u;
     caps := cs |}.

(** The entry the Locator records for a match: its offsets, the substring
    of the text between them, and its kind. *)
Definition entry_of (content : text) (m : pymatch) (is_display_math : bool)
  : span :=
  (m_start m, m_end m, slice content (m_start m) (m_end m), is_display_math).

(** Entry [x] is an inline entry with the range [s], [e]. *)
Definition is_inline_at (s e : nat) (x : span) : bool :=
  negb (span_display x) && (span_start x =? s) && (span_end x =? e).

End Props.

(* ------------------------------------------------------------------ *)
(** * Vocabulary of the further properties *)

Module More.
Import Regex Locator Rewriter Runtime Props.

(** [tracks c c']: [c'] is the cursor reached from [c] by reading a piece
    [u] of the text: position and character before it follow. *)
Definition tracks (c c' : cursor) : Prop :=
  exists u,
    rest c = u ++ rest c' /\
    pos c' = pos c + List.length u /\
    before c' = last_before (before c) u.

(** [follows gs c c']: as [tracks], and [c'] has recorded, on top of the
    groups of [c], only groups of [gs]. *)
Definition follows (gs : list nat) (c c' : cursor) : Prop :=
  exists u extra,
    rest c = u ++ rest c' /\
    pos c' = pos c + List.length u /\
    before c' = last_before (before c) u /\
    caps c' = extra ++ caps c /\
    Forall (fun ce => In (fst ce) gs) extra.

(** The number of positions of [hay] at which [needle] occurs. *)
Fixpoint occurrences (needle hay : text) : nat :=
  (if starts_with needle hay then 1 else 0)
  + match hay with
    | [] => 0
    | _ :: hay' => occurrences needle hay'
    end.

(** The two literals of the preamble pattern. *)
Definition documentclass_open : text := txt "\documentclass{".
Definition begin_document : text := txt "\begin{document}".

(** Every character of [u], read before [w], passes the test [ok] on the
    character and the text after it. *)
Fixpoint all_ok (ok : ascii -> text -> bool) (u w : text) : bool :=
  match u with
  | [] => true
  | x :: u' => ok x (u' ++ w) && all_ok ok u' w
  end.

(** The test of the display pattern on a character of the content: no pair
    of dollars begins there. *)
Definition no_pair_here (x : ascii) (xs : text) : bool :=
  negb (Ascii.eqb x dollar
        && match xs with
           | y :: _ => Ascii.eqb y dollar
           | [] => false
           end).

(** The inline matches the Locator keeps: those inside no display entry. *)
Definition outside_displays (content : text) (m : pymatch) : bool :=
  negb (existsb (inside m) (display_entries content)).

(** The world after [latex_to_image] has saved the figure, and the world
    after saving has raised [e]. *)
Definition rendered_ok (w : world) (latex_equation output_filename : text)
  (dpi : Z) : world :=
  {| stdin := stdin w;
     console := console w
                ++ [txt "Successfully converted LaTeX equation to "
                      ++ output_filename];
     figures := figures w;
     images := images w ++ [(output_filename, latex_equation, dpi)];
     written := written w |}.

Definition rendered_failed (w : world) (latex_equation : text) (e : exn)
  : world :=
  {| stdin := stdin w;
     console := console w
                ++ [txt "An error occurred during image generation for '"
                      ++ latex_equation ++ txt "': " ++ message e;
                    txt "Please ensure your LaTeX equation is correctly formatted and enclosed in '$...$' or '$$...$$'.";
                    txt "Also, verify that a LaTeX distribution (like MiKTeX) is installed and in your system's PATH."];
     figures := S (list_max (figures w)) :: figures w;
     images := images w;
     written := written w |}.

(** A text without a line break. *)
Definition line_free (u : text) : bool :=
  forallb (fun x => negb (Ascii.eqb x newline)) u.

(** A computation that puts nothing back on the input: after it, at most
    the lines that were there are left. *)
Definition reads_only {A} (m : M A) : Prop :=
  forall w, List.length (stdin (snd (m w))) <= List.length (stdin w).


Definition effective_dpi (py_int : text -> option Z) (dpi_input : text) : Z :=
  match dpi_input with
  | [] => 300%Z
  | _ => match py_int dpi_input with
         | Some dpi => dpi
         | None => 300%Z
         end
  end.


Section Batch.

Variable savefig : text -> text -> Z -> option exn.
Variable output_dir : text.
Variable path_join : text -> text -> text.
Variable path_basename : text -> text.

(** The path of the image of the equation with index [i] (from 0). *)
Definition image_path (base : text) (i : nat) : text :=
  path_join output_dir
    (base ++ txt "_equation_" ++ Session.str_of_nat (i + 1) ++ txt ".png").

(** The replacement text of an equation whose image is [image]. *)
Definition replacement_text (is_display_math : bool) (image : text) : text :=
  if is_display_math then
    [newline] ++ txt "\begin{center}" ++ [newline]
      ++ (txt "\includegraphics{" ++ path_basename image ++ txt "}")
      ++ [newline] ++ txt "\end{center}" ++ [newline]
  else
    txt "\raisebox{-0.2\height}{\includegraphics[width=0.15\linewidth]{"
      ++ path_basename image ++ txt "}}".

(** The images of a batch: one for every equation whose figure is saved,
    under the name that goes with its position in the document. *)
Fixpoint saved_images (base : text) (dpi : Z) (i : nat) (eqs : list span)
  : list (text * text * Z) :=
  match eqs with
  | [] => []
  | e :: more =>
      match savefig (span_raw e) (image_path base i) dpi with
      | None => [(image_path base i, span_raw e, dpi)]
      | Some _ => []
      end ++ saved_images base dpi (S i) more
  end.

(** The number of equations of a batch whose figure is not saved. *)
Fixpoint failed_count (base : text) (dpi : Z) (i : nat) (eqs : list span)
  : nat :=
  match eqs with
  | [] => 0
  | e :: more =>
      match savefig (span_raw e) (image_path base i) dpi with
      | None => 0
      | Some _ => 1
      end + failed_count base dpi (S i) more
  end.

(** The replacements of a batch: one for every equation whose figure is
    saved, over the range of the equation. *)
Fixpoint batch_replacements (base : text) (dpi : Z) (i : nat)
  (eqs : list span) : list replacement :=
  match eqs with
  | [] => []
  | e :: more =>
      match savefig (span_raw e) (image_path base i) dpi with
      | None => [(span_start e, span_end e,
                  replacement_text (span_display e) (image_path base i))]
      | Some _ => []
      end ++ batch_replacements base dpi (S i) more
  end.

End Batch.

End More.

(* ------------------------------------------------------------------ *)
(** * The earlier version of the program ([_main.py])

    Version 1.5.0 has no offsets and writes no document: its extractor
    returns the equations as strings, the display ones first. *)

Module Legacy.
Import Regex Rewriter Runtime Renderer.
Local Open Scope py_scope.

(** [.] without [re.DOTALL]: any character but a line break. *)
Definition dot : regex := Cat (NotAhead (Chr newline)) AnyChar.

(** [\$(.*?)\$], scanned without [re.DOTALL]. *)
Definition inline_pattern : regex :=
  seq [ Chr Locator.dollar; Group 1 (LazyStar dot); Chr Locator.dollar ].

(** [\$\$(.*?)\$\$], scanned under [re.DOTALL]. *)
Definition display_pattern : regex :=
  seq [ Chr Locator.dollar; Chr Locator.dollar; Group 1 (LazyStar AnyChar);
        Chr Locator.dollar; Chr Locator.dollar ].

(** [re.findall] for a pattern with one group: the text of the group, for
    every match of [re.finditer]; an unset group gives the empty string. *)
Definition findall (r : regex) (content : text) : list text :=
  map (fun m => match group content m 1 with
                | Some g => g
                | None => []
                end)
      (finditer r content).

(** [s.replace(old, new)]: the occurrences of [old] from left to right, none
    overlapping the one before; [skip] counts the characters of an
    occurrence still to pass.  For the empty [old] Python puts [new] before
    every character and at the end. *)
Fixpoint replace_from (old new : text) (skip : nat) (s : text) : text :=
  match s with
  | [] => []
  | x :: s' =>
      match skip with
      | S skip' => replace_from old new skip' s'
      | 0 =>
          if starts_with old s
          then new ++ replace_from old new (List.length old - 1) s'
          else x :: replace_from old new 0 s'
      end
  end.

Definition str_replace (old new s : text) : text :=
  match old with
  | [] => new ++ flat_map (fun x => x :: new) s
  | _ :: _ => replace_from old new 0 s
  end.

Section Backend.

Variable savefig : text -> text -> Z -> option exn.
Variable read_file : text -> outcome text.

(** [latex_to_image] of version 1.5.0: the handler prints and returns. *)
Definition latex_to_image (latex_equation output_filename : text)
  (dpi : Z) : M unit :=
  try_except
    (fig <- plt_figure ;;
     plt_savefig savefig latex_equation output_filename dpi ;;
     plt_close fig ;;
     print (txt "Successfully converted LaTeX equation to " ++ output_filename))
    (fun e =>
       print (txt "An error occurred during image generation: " ++ message e) ;;
       print (txt "Failed to convert: " ++ latex_equation) ;;
       print (txt "Please ensure your LaTeX equation is correctly formatted and enclosed in '$...$' or '$$...$$'.") ;;
       print (txt "Also, verify that a LaTeX distribution (like MiKTeX) is installed and in your system's PATH.")).

(** The loop over [display_matches]: every match goes to [equations] between
    two pairs of dollars, and all its occurrences in [content] become a
    space. *)
Definition take_displays (display_matches : list text) (content : text)
  : list text * text :=
  fold_left
    (fun '(equations, content) m =>
       let found := txt "$$" ++ m ++ txt "$$" in
       (equations ++ [found], str_replace found (txt " ") content))
    display_matches ([], content).

(** [extract_equations_from_tex]. *)
Definition extract_equations_from_tex (file_path : text) : M (list text) :=
  match read_file file_path with
  | Returns content =>
      let display_matches := findall display_pattern content in
      let '(equations, content) := take_displays display_matches content in
      let inline_matches := findall inline_pattern content in
      ret (equations
             ++ map (fun m => txt "$" ++ m ++ txt "$") inline_matches)
  | Raises e =>
      match kind e with
      | FileNotFoundError =>
          print (txt "Error: The file '" ++ file_path ++ txt "' was not found.") ;;
          ret []
      | _ =>
          print (txt "An error occurred while reading the LaTeX file: "
                   ++ message e) ;;
          ret []
      end
  end.

End Backend.

End Legacy.

(* ------------------------------------------------------------------ *)
(** * The file mode with its two reads of the file *)

Module Rereading.
Import Regex Locator Rewriter Runtime Renderer Session.
Local Open Scope py_scope.

Section Controller.

Variable savefig : text -> text -> Z -> option exn.
Variable read_file : text -> outcome text.
Variable read_again : text -> outcome text.
Variable output_dir : text.
Variable path_join : text -> text -> text.
Variable path_basename : text -> text.
Variable path_stem : text -> text.
Variable makedirs : text -> option exn.
Variable write_file : text -> text -> option exn.

(** The branch [mode == 'f'] from the call of the Locator on, as
    [Session.process_file], with the second [open(file_path).read()] as a
    read of its own: [read_file] is the read inside
    [extract_equations_with_spans], [read_again] the one that fills
    [original_content]; between the two the file may have changed or
    gone. *)
Definition process_file (file_path sub_mode : text) (dpi : Z)
  : M unit :=
  equations_data <- extract_equations_with_spans read_file file_path ;;
  match equations_data with
  | [] => print (no_equations_line file_path)
  | _ :: _ =>
      (fun w => match makedirs output_dir with
                | None => (Returns tt, w)
                | Some e => (Raises e, w)
                end) ;;
      match read_again file_path with
      | Raises e =>
          print (txt "Error reading original LaTeX file: " ++ message e)
      | Returns original_content =>
          let tex_file_base_name := path_stem file_path in
          replacements_for_content <-
            render_equations savefig output_dir path_join path_basename
              tex_file_base_name sub_mode dpi 0 equations_data [] ;;
          if text_eqb sub_mode (txt "r") then
            let '(final_content, replacements_made) :=
              apply_replacements original_content replacements_for_content in
            let final_content := add_graphicx_package final_content in
            let output_tex_filename :=
              path_join output_dir
                (path_stem file_path ++ txt "_with_images.tex") in
            match write_file output_tex_filename final_content with
            | Some e =>
                print (txt "Error writing new LaTeX file: " ++ message e)
            | None =>
                (fun w =>
                   (Returns tt,
                    {| stdin := stdin w; console := console w;
                       figures := figures w; images := images w;
                       written := written w
                                    ++ [(output_tex_filename, final_content)] |})) ;;
                print (newline :: txt "Successfully generated new LaTeX file with images: "
                         ++ output_tex_filename) ;;
                print (txt "Total equations replaced: "
                         ++ str_of_nat replacements_made) ;;
                print (txt "IMPORTANT: If your original LaTeX file used '\input' or '\include' for other files,") ;;
                print (txt "           those will remain as references. You might need to manually compile") ;;
                print (txt "           the new .tex file and its dependencies, or modify your original project structure.") ;;
                print (txt "           Also, delete all .aux, .toc, .log files before recompiling the new .tex.")
            end
          else
            print (newline :: txt "Finished converting equations to images from '"
                     ++ file_path ++ txt "'. Images saved in '" ++ output_dir
                     ++ txt "'.")
      end
  end.

End Controller.

End Rereading.

(* ------------------------------------------------------------------ *)
(** * Properties of the matcher *)

Section MatcherInvariants.
Import Regex Props.

Lemma reach_refl gs c : reach gs c c.
Proof.
  exists [], []. simpl. repeat split; auto.
Qed.

Lemma reach_mono gs gs' c c' :
  incl gs gs' -> reach gs c c' -> reach gs' c c'.
Proof.
  intros Hi (u & ex & Hr & Hp & Hc & Hf).
  exists u, ex. repeat split; auto.
  eapply Forall_impl; [| exact Hf]. intros a Ha. apply Hi, Ha.
Qed.

Lemma reach_trans gs c1 c2 c3 :
  reach gs c1 c2 -> reach gs c2 c3 -> reach gs c1 c3.
Proof.
  intros (u & ex & Hr & Hp & Hc & Hf) (u' & ex' & Hr' & Hp' & Hc' & Hf').
  exists (u ++ u'), (ex' ++ ex). repeat split.
  - rewrite Hr, Hr', app_assoc. reflexivity.
  - rewrite Hp', Hp, length_app. lia.
  - rewrite Hc', Hc, app_assoc. reflexivity.
  - apply Forall_app. split; assumption.
Qed.

Lemma reach_advance gs x xs c :
  rest c = x :: xs -> reach gs c (advance x xs c).
Proof.
  intros Hr. exists [x], []. simpl. repeat split; auto. lia.
Qed.

(** Whatever the loop of a star returns was returned by the continuation, at
    a cursor reached from the start. *)
Lemma star_loop_inv gs body k :
  (forall c k' e, body c k' = Some e ->
                  exists c', k' c' = Some e /\ reach gs c c') ->
  forall fuel c e,
    star_loop body k fuel c = Some e ->
    exists c', k c' = Some e /\ reach gs c c'.
Proof.
  intros Hbody. induction fuel as [|fuel IH]; intros c e; simpl.
  - destruct (k c) eqn:Hk; [|discriminate].
    intros [= <-]. exists c. split; [assumption | apply reach_refl].
  - destruct (k c) eqn:Hk.
    + intros [= <-]. exists c. split; [assumption | apply reach_refl].
    + intros Hb. apply Hbody in Hb. destruct Hb as (c1 & Hc1 & Hr1).
      destruct (pos c <? pos c1); [|discriminate].
      apply IH in Hc1. destruct Hc1 as (c' & Hk' & Hr').
      exists c'. split; [assumption|]. eapply reach_trans; eassumption.
Qed.

(** A successful match hands the continuation a cursor further on in the
    text; the groups it has set on the way are groups of the pattern. *)
Lemma rmatch_inv r :
  forall c k e,
    rmatch r c k = Some e ->
    exists c', k c' = Some e /\ reach (groups_of r) c c'.
Proof.
  induction r as [| a | | r1 IH1 r2 IH2 | r1 IH1 | r1 IH1 | a | n r1 IH1];
    intros c k e; simpl.
  - intros H. exists c. split; [assumption | apply reach_refl].
  - destruct (rest c) as [|x xs] eqn:Hr; [discriminate|].
    destruct (Ascii.eqb x a); [|discriminate].
    intros H. exists (advance x xs c). split; [assumption|].
    apply reach_advance, Hr.
  - destruct (rest c) as [|x xs] eqn:Hr; [discriminate|].
    intros H. exists (advance x xs c). split; [assumption|].
    apply reach_advance, Hr.
  - intros H. apply IH1 in H. destruct H as (c1 & H & Hr1).
    apply IH2 in H. destruct H as (c2 & H & Hr2).
    exists c2. split; [assumption|].
    eapply reach_trans.
    + eapply reach_mono; [|exact Hr1]. apply incl_appl, incl_refl.
    + eapply reach_mono; [|exact Hr2]. apply incl_appr, incl_refl.
  - apply star_loop_inv. exact IH1.
  - destruct (rmatch r1 c Some); [discriminate|].
    intros H. exists c. split; [assumption | apply reach_refl].
  - destruct (before c) as [x|].
    + destruct (Ascii.eqb x a); [discriminate|].
      intros H. exists c. split; [assumption | apply reach_refl].
    + intros H. exists c. split; [assumption | apply reach_refl].
  - intros H. apply IH1 in H. destruct H as (c1 & H & Hr1).
    exists (set_cap n (pos c) (pos c1) c1). split; [assumption|].
    destruct Hr1 as (u & ex & Hr & Hp & Hc & Hf).
    exists u, ((n, (pos c, pos c1)) :: ex). simpl. repeat split; auto.
    + rewrite Hc. reflexivity.
    + constructor; [left; reflexivity|].
      eapply Forall_impl; [| exact Hf]. intros a Ha. right. exact Ha.
Qed.

End MatcherInvariants.

(* ------------------------------------------------------------------ *)
(** * Properties of [add_graphicx_package] *)

Section PreambleMatch.
Import Regex Props Rewriter.

Lemma search_from_inv r : forall s b p m,
  search_from r b s p = Some m ->
  exists b' s' p',
    match_at r b' s' p' = Some m /\ p <= p' /\
    p' + List.length s' = p + List.length s.
Proof.
  induction s as [|x xs IH]; intros b p m; simpl.
  - destruct (match_at r b [] p) eqn:Hm; [|discriminate].
    intros [= <-]. exists b, [], p. repeat split; auto.
  - destruct (match_at r b (x :: xs) p) eqn:Hm.
    + intros [= <-]. exists b, (x :: xs), p. repeat split; auto.
    + intros H. apply IH in H. destruct H as (b' & s' & p' & H & Hp & Hl).
      exists b', s', p'. repeat split; auto; simpl; lia.
Qed.

Lemma match_at_start r b s p m :
  match_at r b s p = Some m -> m_start m = p.
Proof.
  unfold match_at. destruct (rmatch _ _ _); [|discriminate].
  intros [= <-]. reflexivity.
Qed.

(** In a match of the preamble pattern both groups are set: group 1 runs from
    the start of the match to some offset [mid], group 2 from [mid] to the
    end of the match. *)
Lemma preamble_groups b s p m :
  match_at preamble_pattern b s p = Some m ->
  exists mid,
    m_start m = p /\ p <= mid /\ mid <= m_end m /\
    m_end m <= p + List.length s /\
    cap_lookup 1 (m_caps m) = Some (p, mid) /\
    cap_lookup 2 (m_caps m) = Some (mid, m_end m).
Proof.
  unfold match_at, preamble_pattern.
  set (c0 := {| before := b; rest := s; pos := p; caps := [] |}).
  destruct (rmatch _ c0 Some) as [e|] eqn:H; [|discriminate].
  intros [= <-]. simpl.
  change (rmatch (Cat (Group 1 ?r1) (Group 2 ?r2)) c0 Some)
    with (rmatch r1 c0 (fun c1 =>
            rmatch r2 (set_cap 1 (pos c0) (pos c1) c1)
              (fun c2 => Some (set_cap 2 (pos c1) (pos c2) c2)))) in H.
  apply rmatch_inv in H. destruct H as (c1 & H & R1).
  apply rmatch_inv in H. destruct H as (c2 & H & R2).
  injection H as <-.
  destruct R1 as (u1 & ex1 & Hr1 & Hp1 & Hc1 & _).
  destruct R2 as (u2 & ex2 & Hr2 & Hp2 & Hc2 & Hf2).
  simpl in *.
  assert (ex2 = []) as ->.
  { destruct ex2 as [|x ex2]; [reflexivity|]. inversion Hf2 as [|? ? Hx _].
    destruct Hx. }
  simpl in Hc2.
  assert (Hlen : List.length s = List.length u1 + List.length u2
                                 + List.length (rest c2)).
  { rewrite Hr1, Hr2, !length_app. lia. }
  exists (pos c1). repeat split; try lia.
  rewrite Hc2. reflexivity.
Qed.

End PreambleMatch.

Section Graphicx.
Import Regex Props Rewriter.

Lemma starts_with_app n b : starts_with n (n ++ b) = true.
Proof.
  induction n as [|a n IH]; simpl; [reflexivity|].
  rewrite Ascii.eqb_refl. exact IH.
Qed.

Lemma contains_here n b : contains n (n ++ b) = true.
Proof.
  destruct (n ++ b) eqn:E; simpl; rewrite <- E, starts_with_app; reflexivity.
Qed.

Lemma contains_app_r n a b : contains n b = true -> contains n (a ++ b) = true.
Proof.
  intros H. induction a as [|x a IH]; simpl; [exact H|].
  rewrite IH. apply orb_true_r.
Qed.

Lemma contains_middle n a b : contains n (a ++ n ++ b) = true.
Proof.
  apply contains_app_r, contains_here.
Qed.

Lemma slice_skipn (t : text) i j :
  i <= j -> slice t i j ++ skipn j t = skipn i t.
Proof.
  intros Hij. unfold slice.
  replace j with ((j - i) + i) at 2 by lia.
  rewrite <- skipn_skipn. apply firstn_skipn.
Qed.

(** What [add_graphicx_package] returns when it inserts the declaration after
    a match of the preamble pattern: the text from the start of the match on,
    with the declaration put before [\begin{document}].  The characters
    before the start of the match are not part of the result. *)
Lemma add_graphicx_after_match content m :
  contains usepackage_graphicx content = false ->
  search preamble_pattern content = Some m ->
  exists mid,
    m_start m <= mid /\ mid <= List.length content /\
    add_graphicx_package content =
      slice content (m_start m) mid ++ (newline :: usepackage_graphicx)
        ++ skipn mid content.
Proof.
  intros Hc Hs. unfold add_graphicx_package. rewrite Hc, Hs. simpl negb. cbv iota.
  unfold search in Hs. apply search_from_inv in Hs.
  destruct Hs as (b' & s' & p' & Hm & _ & Hl).
  apply preamble_groups in Hm.
  destruct Hm as (mid & Hst & H1 & H2 & H3 & Hg1 & Hg2).
  unfold group, group_end. rewrite Hg1, Hg2.
  exists mid. simpl in Hl. repeat split; try lia.
  rewrite Hst. f_equal. f_equal. apply slice_skipn. exact H2.
Qed.

(** The result of [add_graphicx_package] holds the declaration. *)
Lemma add_graphicx_declared content :
  contains usepackage_graphicx (add_graphicx_package content) = true.
Proof.
  destruct (contains usepackage_graphicx content) eqn:Hc.
  - unfold add_graphicx_package. rewrite Hc. exact Hc.
  - destruct (search preamble_pattern content) as [m|] eqn:Hs.
    + destruct (add_graphicx_after_match content m Hc Hs) as (mid & _ & _ & ->).
      change (newline :: usepackage_graphicx)
        with ([newline] ++ usepackage_graphicx).
      rewrite <- app_assoc, app_assoc. apply contains_middle.
    + unfold add_graphicx_package. rewrite Hc, Hs. simpl negb. cbv iota.
      apply contains_here.
Qed.

(** C8.  For every document text, applying [add_graphicx_package] twice gives
    the same text as applying it once: the result of one application holds
    the declaration [\usepackage{graphicx}], and the function returns a text
    that holds it unchanged. *)
Theorem add_graphicx_package_idempotent :
  forall content : text,
    contains usepackage_graphicx (add_graphicx_package content) = true /\
    add_graphicx_package (add_graphicx_package content)
    = add_graphicx_package content.
Proof.
  intros content. split; [apply add_graphicx_declared|].
  unfold add_graphicx_package at 1.
  rewrite add_graphicx_declared. reflexivity.
Qed.

End Graphicx.

(* ------------------------------------------------------------------ *)
(** * Properties of the Locator *)

Section LocatorFilter.
Import Regex Props Locator.

Lemma insert_by_start_In x e l :
  In e (insert_by_start x l) <-> e = x \/ In e l.
Proof.
  induction l as [|y l IH]; simpl.
  - intuition.
  - destruct (span_start x <=? span_start y); simpl; [intuition|].
    rewrite IH. intuition.
Qed.

Lemma sort_by_start_In e l : In e (sort_by_start l) <-> In e l.
Proof.
  induction l as [|x l IH]; simpl; [reflexivity|].
  rewrite insert_by_start_In, IH. intuition.
Qed.

Lemma add_inline_incl content acc m e :
  In e acc -> In e (add_inline content acc m).
Proof.
  unfold add_inline. destruct (existsb _ _); [auto|].
  intros H. apply in_or_app. left. exact H.
Qed.

(** An entry of the list after the loop over the inline matches was there
    before the loop, or it comes from a match that lies inside none of the
    entries present before the loop. *)
Lemma fold_add_inline_In content : forall ms acc e,
  In e (fold_left (add_inline content) ms acc) ->
  In e acc \/
  exists m, In m ms /\ e = (m_start m, m_end m, group0 content m, false) /\
            forall x, In x acc -> inside m x = false.
Proof.
  induction ms as [|m ms IH]; intros acc e; simpl; [auto|].
  intros H. apply IH in H. destruct H as [H | (m' & Hin & He & Hno)].
  - unfold add_inline in H.
    destruct (existsb (inside m) acc) eqn:Hex; [left; exact H|].
    apply in_app_or in H. destruct H as [H | [<- | []]]; [left; exact H|].
    right. exists m. repeat split; auto.
    intros x Hx. destruct (inside m x) eqn:Hi; [|reflexivity].
    assert (existsb (inside m) acc = true) as Ht
      by (apply existsb_exists; exists x; auto).
    congruence.
  - right. exists m'. repeat split; auto.
    intros x Hx. apply Hno, add_inline_incl, Hx.
Qed.

(** C7.  An inline candidate whose range lies inside a collected display span
    is discarded: the result has no inline entry with the candidate's range.
    For the text [$$x $ y$ z$$] the Locator returns the display span that
    covers the whole run and nothing else. *)
Theorem inline_inside_display_discarded :
  (forall (content : text) (d c : pymatch),
      In d (finditer display_pattern content) ->
      In c (finditer inline_pattern content) ->
      m_start d <= m_start c ->
      m_end c <= m_end d ->
      existsb (is_inline_at (m_start c) (m_end c)) (locate_equations content)
      = false) /\
  locate_equations (txt "$$x $ y$ z$$")
  = [(0, 12, txt "$$x $ y$ z$$", true)].
Proof.
  split; [|vm_compute; reflexivity].
  intros content d c Hd Hc Hs He.
  destruct (existsb _ _) eqn:Hex; [|reflexivity]. exfalso.
  apply existsb_exists in Hex. destruct Hex as (e & Hin & Hat).
  unfold is_inline_at in Hat.
  apply andb_true_iff in Hat. destruct Hat as [Hat Hend].
  apply andb_true_iff in Hat. destruct Hat as [Hdisp Hstart].
  apply Nat.eqb_eq in Hend, Hstart. apply negb_true_iff in Hdisp.
  unfold locate_equations in Hin. apply -> sort_by_start_In in Hin.
  apply fold_add_inline_In in Hin.
  destruct Hin as [Hin | (m & _ & -> & Hno)].
  - unfold display_entries in Hin. apply in_map_iff in Hin.
    destruct Hin as (m & <- & _). discriminate.
  - specialize (Hno (m_start d, m_end d, group0 content d, true)).
    assert (inside m (m_start d, m_end d, group0 content d, true) = false) as Hi.
    { apply Hno. unfold display_entries. apply in_map_iff. exists d. auto. }
    unfold inside, span_start, span_end in *. simpl in *.
    apply andb_false_iff in Hi.
    destruct Hi as [Hi | Hi]; apply Nat.leb_gt in Hi; lia.
Qed.

Lemma inline_inside_display_discarded_witness :
  existsb (is_inline_at 4 8) (locate_equations (txt "$$x $ y$ z$$")) = false.
Proof.
  apply (proj1 inline_inside_display_discarded (txt "$$x $ y$ z$$")
           {| m_start := 0; m_end := 12; m_caps := [(1, (2, 10))] |}
           {| m_start := 4; m_end := 8; m_caps := [(1, (5, 7))] |}).
  - vm_compute. left. reflexivity.
  - vm_compute. right. left. reflexivity.
  - simpl. lia.
  - simpl. lia.
Defined.

Lemma insert_by_start_sorted x l :
  StronglySorted (fun e1 e2 => span_start e1 <= span_start e2) l ->
  StronglySorted (fun e1 e2 => span_start e1 <= span_start e2)
    (insert_by_start x l).
Proof.
  induction 1 as [|y l Hs IH Hy]; simpl.
  - repeat constructor.
  - destruct (span_start x <=? span_start y) eqn:E.
    + apply Nat.leb_le in E. constructor; [constructor; assumption|].
      constructor; [exact E|].
      eapply Forall_impl; [|exact Hy]. simpl. intros; lia.
    + apply Nat.leb_gt in E. constructor; [exact IH|].
      rewrite Forall_forall in Hy |- *. intros z Hz.
      apply insert_by_start_In in Hz. destruct Hz as [-> | Hz]; [lia|].
      apply Hy, Hz.
Qed.

(** The entries the Locator returns are in ascending order of their start
    offsets, for every text. *)
Lemma locate_equations_sorted content :
  StronglySorted (fun e1 e2 => span_start e1 <= span_start e2)
    (locate_equations content).
Proof.
  unfold locate_equations, sort_by_start.
  induction (fold_left _ _ _) as [|x l IH]; simpl; [constructor|].
  apply insert_by_start_sorted, IH.
Qed.

(** C1.  For the text [$a$$$b$$], an inline equation directly followed by a
    display equation, the display pattern matches from offset 2 and the
    Locator keeps the inline match [$a$], which shares the character at
    offset 2 with the display match: the two returned spans overlap.  The
    same happens for [$a$$b$$]. *)
Theorem partial_overlap_is_returned :
  locate_equations (txt "$a$$$b$$")
  = [(0, 3, txt "$a$", false); (2, 8, txt "$$$b$$", true)] /\
  overlap (0, 3, txt "$a$", false) (2, 8, txt "$$$b$$", true) /\
  locate_equations (txt "$a$$b$$")
  = [(0, 3, txt "$a$", false); (2, 7, txt "$$b$$", true)] /\
  overlap (0, 3, txt "$a$", false) (2, 7, txt "$$b$$", true).
Proof.
  split; [vm_compute; reflexivity|]. split.
  { exists 2. unfold span_start, span_end. simpl. lia. }
  split; [vm_compute; reflexivity|].
  exists 2. unfold span_start, span_end. simpl. lia.
Qed.

(** C3.  For the text [$a\$b$] the inline pattern has no match at all, and
    the Locator returns no span: the escaped dollar inside the run keeps the
    run from being found. *)
Theorem escaped_dollar_run_not_found :
  finditer inline_pattern (txt "$a\$b$") = [] /\
  locate_equations (txt "$a\$b$") = [].
Proof.
  split; vm_compute; reflexivity.
Qed.

End LocatorFilter.

Section GraphicxPrefix.
Import Regex Props Rewriter.

(** C2.  On a document whose first line is a comment, followed by the class
    declaration and the start of the body, [add_graphicx_package] returns
    the text from [\documentclass] on with the declaration inserted: the
    eight characters of the comment line are gone. *)
Theorem add_graphicx_package_drops_leading_text :
  let content :=
    txt "% draft" ++ newline :: txt "\documentclass{article}"
      ++ newline :: txt "\begin{document}Hi\end{document}" in
  contains usepackage_graphicx content = false /\
  (exists m, search preamble_pattern content = Some m /\ m_start m = 8) /\
  add_graphicx_package content
  = txt "\documentclass{article}" ++ newline :: newline
      :: txt "\usepackage{graphicx}\begin{document}Hi\end{document}".
Proof.
  split; [vm_compute; reflexivity|]. split.
  - eexists. split; vm_compute; reflexivity.
  - vm_compute. reflexivity.
Qed.

End GraphicxPrefix.

(* ------------------------------------------------------------------ *)
(** * The splice loop against the left-to-right pass *)

Section Splice.
Import Props Rewriter.

Variable original : text.

Lemma insert_asc_perm x l : Permutation (insert_asc x l) (x :: l).
Proof.
  induction l as [|y l IH]; simpl; [apply Permutation_refl|].
  destruct (r_start x <=? r_start y); [apply Permutation_refl|].
  eapply perm_trans; [apply perm_skip, IH | apply perm_swap].
Qed.

Lemma sort_asc_perm l : Permutation (sort_asc l) l.
Proof.
  induction l as [|x l IH]; simpl; [constructor|].
  eapply perm_trans; [apply insert_asc_perm | apply perm_skip, IH].
Qed.

(** Inserting a range that is disjoint from the ranges of a list laid out in
    ascending order, and starts where none of them does, keeps the layout. *)
Lemma insert_asc_precedes x l :
  StronglySorted precedes l ->
  r_start x <= r_end x ->
  Forall (fun y => disjoint x y /\ r_start x <> r_start y
                   /\ r_start y <= r_end y) l ->
  StronglySorted precedes (insert_asc x l).
Proof.
  intros Hs Hx. induction Hs as [|y l Hs IH Hy]; intros Hall; simpl.
  - repeat constructor.
  - inversion Hall as [|? ? (Hd & Hne & Hby) Hall']; subst.
    destruct (r_start x <=? r_start y) eqn:Hle.
    + apply Nat.leb_le in Hle.
      assert (Hxy : precedes x y).
      { unfold precedes, disjoint in *. lia. }
      constructor; [constructor; assumption|].
      constructor; [exact Hxy|].
      rewrite Forall_forall in Hy, Hall' |- *. intros z Hz.
      specialize (Hy z Hz). specialize (Hall' z Hz).
      unfold precedes, disjoint in *. lia.
    + apply Nat.leb_gt in Hle.
      constructor; [apply IH, Hall'|].
      eapply Permutation_Forall; [symmetry; apply insert_asc_perm|].
      constructor; [|exact Hy].
      unfold precedes, disjoint in *. lia.
Qed.

Lemma sort_asc_precedes l :
  Forall (in_bounds original) l ->
  ForallOrdPairs disjoint l ->
  NoDup (map r_start l) ->
  StronglySorted precedes (sort_asc l).
Proof.
  induction l as [|x l IH]; intros Hb Hd Hn; simpl; [constructor|].
  inversion Hb as [|? ? Hbx Hbl]; subst.
  inversion Hd as [|? ? Hdx Hdl]; subst.
  inversion Hn as [|? ? Hnx Hnl]; subst.
  apply insert_asc_precedes.
  - apply IH; assumption.
  - apply Hbx.
  - eapply Permutation_Forall; [symmetry; apply sort_asc_perm|].
    rewrite Forall_forall in Hbl, Hdx |- *. intros y Hy.
    repeat split.
    + apply Hdx, Hy.
    + intros E. apply Hnx. rewrite E. apply in_map, Hy.
    + apply (Hbl y Hy).
Qed.

(** With starts that differ, the descending sort is the ascending sort read
    backwards. *)
Lemma insert_desc_last x l :
  Forall (fun y => r_start x < r_start y) l -> insert_desc x l = l ++ [x].
Proof.
  induction 1 as [|y l Hy _ IH]; simpl; [reflexivity|].
  destruct (r_start y <=? r_start x) eqn:E.
  - apply Nat.leb_le in E. lia.
  - rewrite IH. reflexivity.
Qed.

Lemma insert_desc_app_last x y l :
  r_start y < r_start x ->
  insert_desc x (l ++ [y]) = insert_desc x l ++ [y].
Proof.
  intros Hlt. induction l as [|z l IH]; simpl.
  - destruct (r_start y <=? r_start x) eqn:E; [reflexivity|].
    apply Nat.leb_gt in E. lia.
  - destruct (r_start z <=? r_start x); [reflexivity|].
    rewrite IH. reflexivity.
Qed.

Lemma insert_desc_rev x l :
  StronglySorted precedes l ->
  Forall (fun y => r_start x <> r_start y) l ->
  insert_desc x (rev l) = rev (insert_asc x l).
Proof.
  intros Hs. induction Hs as [|y l Hs IH Hy]; intros Hne; simpl.
  - reflexivity.
  - inversion Hne as [|? ? Hxy Hne']; subst.
    destruct (r_start x <=? r_start y) eqn:Hle.
    + apply Nat.leb_le in Hle. simpl.
      apply insert_desc_last. apply Forall_app. split.
      * apply Forall_rev. rewrite Forall_forall in Hy |- *.
        intros z Hz. specialize (Hy z Hz). unfold precedes in Hy. lia.
      * constructor; [lia | constructor].
    + apply Nat.leb_gt in Hle. simpl.
      rewrite insert_desc_app_last by lia.
      rewrite IH by assumption. reflexivity.
Qed.

Lemma sort_desc_rev l :
  Forall (in_bounds original) l ->
  ForallOrdPairs disjoint l ->
  NoDup (map r_start l) ->
  sort_desc l = rev (sort_asc l).
Proof.
  induction l as [|x l IH]; intros Hb Hd Hn; simpl; [reflexivity|].
  inversion Hb as [|? ? Hbx Hbl]; subst.
  inversion Hd as [|? ? Hdx Hdl]; subst.
  inversion Hn as [|? ? Hnx Hnl]; subst.
  rewrite IH by assumption.
  apply insert_desc_rev.
  - apply sort_asc_precedes; assumption.
  - eapply Permutation_Forall; [symmetry; apply sort_asc_perm|].
    rewrite Forall_forall. intros y Hy E.
    apply Hnx. rewrite E. apply in_map, Hy.
Qed.

Lemma firstn_plus (t : text) : forall i k,
  firstn i t ++ firstn k (skipn i t) = firstn (i + k) t.
Proof.
  induction t as [|a t IH]; intros i k.
  - rewrite skipn_nil, !firstn_nil. reflexivity.
  - destruct i as [|i]; simpl; [reflexivity|].
    f_equal. apply IH.
Qed.

Lemma firstn_then_slice (t : text) i j :
  i <= j -> firstn i t ++ slice t i j = firstn j t.
Proof.
  intros Hij. unfold slice. rewrite firstn_plus. f_equal. lia.
Qed.

(** One slice assignment on a text whose first [e] characters are still those
    of the original. *)
Lemma slice_assign_prefix s e new tail :
  s <= e -> e <= List.length original ->
  slice_assign (firstn e original ++ tail) s e new
  = firstn s original ++ new ++ tail.
Proof.
  intros Hse He. unfold slice_assign.
  assert (Hl : List.length (firstn e original) = e)
    by (rewrite length_firstn; lia).
  rewrite firstn_app, Hl, firstn_firstn.
  replace (s - e) with 0 by lia.
  replace (Nat.min s e) with s by lia.
  rewrite Nat.max_r by exact Hse.
  rewrite skipn_app, Hl, Nat.sub_diag.
  rewrite skipn_all2 by lia.
  simpl. rewrite app_nil_r. reflexivity.
Qed.

(** The slice assignments, the last range first, build what the pass from
    left to right builds. *)
Lemma assign_steps_copy_pass : forall asc cur,
  StronglySorted precedes asc ->
  Forall (in_bounds original) asc ->
  Forall (fun r => cur <= r_start r) asc ->
  cur <= List.length original ->
  fold_right assign_step original asc
  = firstn cur original ++ copy_pass original cur asc.
Proof.
  induction asc as [|r asc IH]; intros cur Hs Hb Hc Hcur; simpl.
  - symmetry. apply firstn_skipn.
  - inversion Hs as [|? ? Hs' Hr]; subst.
    inversion Hb as [|? ? (Hse & He) Hb']; subst.
    inversion Hc as [|? ? Hcr Hc']; subst.
    rewrite (IH (r_end r)); try assumption.
    + unfold assign_step. rewrite slice_assign_prefix by assumption.
      rewrite <- (firstn_then_slice original cur (r_start r)) by assumption.
      rewrite <- app_assoc. reflexivity.
    + eapply Forall_impl; [|exact Hr]. intros a Ha. apply Ha.
Qed.

Lemma apply_replacements_fold : forall l chars n,
  fst (fold_left
         (fun '(final_chars, replacements_made) r =>
            (slice_assign final_chars (r_start r) (r_end r) (r_text r),
             S replacements_made))
         l (chars, n))
  = fold_left (fun chars r => assign_step r chars) l chars.
Proof.
  induction l as [|r l IH]; intros chars n; simpl; [reflexivity|].
  apply IH.
Qed.

Lemma splice_fold rs :
  splice original rs = fold_right assign_step original (rev (sort_desc rs)).
Proof.
  unfold splice, apply_replacements.
  rewrite apply_replacements_fold.
  rewrite <- (rev_involutive (sort_desc rs)) at 1.
  rewrite <- fold_left_rev_right, rev_involutive. reflexivity.
Qed.

(** C5 (amended).  For every text and every collection of replacement
    triples whose ranges are in bounds (start <= end <= length of the text),
    pairwise ordered as intervals (of any two ranges, one ends at or before
    the offset at which the other starts) and whose start offsets are
    pairwise distinct, the loop of slice assignments in descending order of
    start gives the same text as the single pass from left to right over
    the triples in ascending order.  The interval condition says more than
    that no character position is shared: an empty range inside another
    range shares no position with it and is excluded. *)
Theorem splice_descending_is_left_to_right :
  forall rs : list replacement,
    Forall (in_bounds original) rs ->
    ForallOrdPairs disjoint rs ->
    NoDup (map r_start rs) ->
    splice original rs = splice_left_to_right original rs.
Proof.
  intros rs Hb Hd Hn.
  rewrite splice_fold, sort_desc_rev, rev_involutive by assumption.
  unfold splice_left_to_right.
  rewrite (assign_steps_copy_pass (sort_asc rs) 0).
  - reflexivity.
  - apply sort_asc_precedes; assumption.
  - eapply Permutation_Forall; [symmetry; apply sort_asc_perm | exact Hb].
  - rewrite Forall_forall. intros; lia.
  - lia.
Qed.

(** Ranges that are not empty and pairwise disjoint start at different
    offsets. *)
Lemma disjoint_nonempty_starts rs :
  Forall (fun r => r_start r < r_end r) rs ->
  ForallOrdPairs disjoint rs ->
  NoDup (map r_start rs).
Proof.
  induction rs as [|x rs IH]; intros Hne Hd; simpl; [constructor|].
  inversion Hne as [|? ? Hx Hne']; subst.
  inversion Hd as [|? ? Hdx Hd']; subst.
  constructor; [|apply IH; assumption].
  intros Hin. apply in_map_iff in Hin. destruct Hin as (y & Hy & Hin).
  rewrite Forall_forall in Hdx, Hne'.
  specialize (Hdx y Hin). specialize (Hne' y Hin).
  unfold disjoint in Hdx. lia.
Qed.

End Splice.

Section SpliceExamples.
Import Props Rewriter.

Lemma splice_descending_is_left_to_right_witness :
  splice (txt "abcdef") [(1, 2, txt "X"); (4, 5, txt "YY")]
  = splice_left_to_right (txt "abcdef") [(1, 2, txt "X"); (4, 5, txt "YY")].
Proof.
  apply splice_descending_is_left_to_right.
  - repeat constructor; simpl; lia.
  - repeat constructor; unfold disjoint; simpl; lia.
  - simpl. constructor; [simpl; intros [H | []]; discriminate|].
    constructor; [intros [] | constructor].
Defined.

(** C5 as stated fails on an empty range: in ["ab"] the insertion of [X] at
    offset 1 and the replacement of the character at offset 1 by [Y] are in
    bounds and share no character position.  The loop of slice assignments
    gives ["aYb"]; the pass from left to right gives ["aXY"], and ["aYXb"]
    when it takes the two triples, which start at the same offset, in the
    other order. *)
Lemma splice_insertion_at_start_of_range :
  let original := txt "ab" in
  let rs := [(1, 1, txt "X"); (1, 2, txt "Y")] in
  Forall (in_bounds original) rs /\
  ForallOrdPairs disjoint rs /\
  splice original rs = txt "aYb" /\
  splice_left_to_right original rs = txt "aXY" /\
  copy_pass original 0 [(1, 2, txt "Y"); (1, 1, txt "X")] = txt "aYXb" /\
  splice original rs <> splice_left_to_right original rs.
Proof.
  repeat split.
  - repeat constructor; simpl; lia.
  - repeat constructor; unfold disjoint; simpl; lia.
  - vm_compute. discriminate.
Qed.

End SpliceExamples.

(* ------------------------------------------------------------------ *)
(** * The Renderer and the registry of figures *)

Section RendererFigures.
Import Props Runtime Renderer.

Variable savefig : text -> text -> Z -> option exn.

Lemma fresh_figure_not_open (figs : list nat) : ~ In (S (list_max figs)) figs.
Proof.
  intros Hin.
  assert (H : Forall (fun k => k <= list_max figs) figs)
    by (apply list_max_le; lia).
  rewrite Forall_forall in H. specialize (H _ Hin). lia.
Qed.

(** When the figure is saved, [latex_to_image] returns and the open figures
    are the ones that were open before the call. *)
Lemma latex_to_image_success latex_equation output_filename dpi w :
  savefig latex_equation output_filename dpi = None ->
  exists w',
    latex_to_image savefig latex_equation output_filename dpi w
    = (Returns tt, w') /\
    figures w' = figures w /\
    images w' = images w ++ [(output_filename, latex_equation, dpi)].
Proof.
  intros Hs.
  unfold latex_to_image, try_except, bind, plt_figure, plt_savefig,
    plt_close, print.
  cbv beta iota. rewrite Hs. cbv beta iota.
  eexists. split; [reflexivity|].
  cbn [figures images]. split; [|reflexivity].
  rewrite remove_cons. apply notin_remove, fresh_figure_not_open.
Qed.

(** C9.  When saving the figure raises, [latex_to_image] re-raises the
    exception and the figure it has opened is still open: the registry of
    figures has one figure more than before the call. *)
Theorem latex_to_image_failure_leaves_figure_open :
  forall (latex_equation output_filename : text) (dpi : Z) (e : exn)
         (w : world),
    savefig latex_equation output_filename dpi = Some e ->
    exists w',
      latex_to_image savefig latex_equation output_filename dpi w
      = (Raises e, w') /\
      figures w' = S (list_max (figures w)) :: figures w /\
      figures w' <> figures w /\
      images w' = images w.
Proof.
  intros latex_equation output_filename dpi e w Hs. eexists. split.
  - unfold latex_to_image, try_except, bind, plt_figure, plt_savefig,
      plt_close, print, raise. simpl. rewrite Hs. simpl. reflexivity.
  - simpl. repeat split.
    intros E. apply (f_equal (@List.length nat)) in E. simpl in E. lia.
Qed.

End RendererFigures.

Section RendererExamples.
Import Props Runtime Renderer Session.

Lemma latex_to_image_failure_leaves_figure_open_witness :
  let rejects := fun (eq _ : text) (_ : Z) =>
    if text_eqb eq (txt "$\frac{$")
    then Some {| kind := ValueError; message := txt "ParseFatalException" |}
    else None in
  exists w',
    latex_to_image rejects (txt "$\frac{$") (txt "out.png") 300 idle
    = (Raises {| kind := ValueError; message := txt "ParseFatalException" |},
       w') /\
    figures w' = [1] /\ figures w' <> figures idle /\ images w' = [].
Proof.
  intros rejects.
  apply (latex_to_image_failure_leaves_figure_open rejects
           (txt "$\frac{$") (txt "out.png") 300%Z
           {| kind := ValueError; message := txt "ParseFatalException" |} idle).
  reflexivity.
Defined.

End RendererExamples.

(* ------------------------------------------------------------------ *)
(** * The file mode and a path that does not exist *)

Section MissingFile.
Import Props Locator Runtime Renderer Session.

Variable savefig : text -> text -> Z -> option exn.
Variable read_file : text -> outcome text.
Variable output_dir : text.
Variable path_join : text -> text -> text.
Variable path_basename : text -> text.
Variable path_stem : text -> text.
Variable makedirs : text -> option exn.
Variable write_file : text -> text -> option exn.

(** C4 (amended).  For a path that does not exist the Locator prints its
    not-found line and returns the empty list, it raises nothing; for a
    readable document without equations it returns the empty list and prints
    nothing.  The caller receives the same value in both cases and prints the
    same line for both; the console differs by the Locator's line alone. *)
Theorem missing_file_same_result_as_no_equations :
  forall (missing readable sub_mode msg content : text) (dpi : Z) (w : world),
    read_file missing = Raises {| kind := FileNotFoundError; message := msg |} ->
    read_file readable = Returns content ->
    locate_equations content = [] ->
    extract_equations_with_spans read_file missing w
    = (Returns [], printed w [not_found_line missing]) /\
    extract_equations_with_spans read_file readable w = (Returns [], w) /\
    process_file savefig read_file output_dir path_join path_basename
      path_stem makedirs write_file missing sub_mode dpi w
    = (Returns tt,
       printed w [not_found_line missing; no_equations_line missing]) /\
    process_file savefig read_file output_dir path_join path_basename
      path_stem makedirs write_file readable sub_mode dpi w
    = (Returns tt, printed w [no_equations_line readable]).
Proof.
  intros missing readable sub_mode msg content dpi w Hm Hr He.
  unfold process_file, extract_equations_with_spans, bind, print, ret, printed.
  rewrite Hm, Hr, He. simpl. rewrite <- app_assoc. simpl.
  destruct w; repeat split; reflexivity.
Qed.

End MissingFile.

Section MissingFileExamples.
Import Props Locator Runtime Renderer Session.

Lemma missing_file_same_result_as_no_equations_witness :
  extract_equations_with_spans one_file (txt "gone.tex") idle
  = (Returns [], printed idle [not_found_line (txt "gone.tex")]) /\
  extract_equations_with_spans one_file (txt "notes.tex") idle
  = (Returns [], idle) /\
  process_file (fun _ _ _ => None) one_file (txt "output_images")
    (fun d f => d ++ txt "/" ++ f) (fun f => f) (fun f => f)
    (fun _ => None) (fun _ _ => None) (txt "gone.tex") (txt "i") 300 idle
  = (Returns tt,
     printed idle [not_found_line (txt "gone.tex");
                   no_equations_line (txt "gone.tex")]) /\
  process_file (fun _ _ _ => None) one_file (txt "output_images")
    (fun d f => d ++ txt "/" ++ f) (fun f => f) (fun f => f)
    (fun _ => None) (fun _ _ => None) (txt "notes.tex") (txt "i") 300 idle
  = (Returns tt, printed idle [no_equations_line (txt "notes.tex")]).
Proof.
  apply (missing_file_same_result_as_no_equations
           (fun _ _ _ => None) one_file (txt "output_images")
           (fun d f => d ++ txt "/" ++ f) (fun f => f) (fun f => f)
           (fun _ => None) (fun _ _ => None)
           (txt "gone.tex") (txt "notes.tex") (txt "i")
           (txt "No such file") (txt "no math here") 300%Z idle).
  - reflexivity.
  - reflexivity.
  - vm_compute. reflexivity.
Defined.

(** C4 as stated fails: for the path [gone.tex], which does not exist, the
    extraction does not fail, it returns the empty list, the very value it
    returns for the readable file [notes.tex] that holds no equation. *)
Lemma missing_file_is_not_an_error :
  fst (extract_equations_with_spans one_file (txt "gone.tex") idle)
  = Returns [] /\
  (forall e : exn,
      fst (extract_equations_with_spans one_file (txt "gone.tex") idle)
      <> Raises e) /\
  fst (extract_equations_with_spans one_file (txt "gone.tex") idle)
  = fst (extract_equations_with_spans one_file (txt "notes.tex") idle).
Proof.
  repeat split.
  - intros e H. vm_compute in H. discriminate.
Qed.

End MissingFileExamples.

(* ------------------------------------------------------------------ *)
(** * The manual mode *)

Section ManualMode.
Import Props Rewriter Runtime Renderer Session.

Variable savefig : text -> text -> Z -> option exn.
Variable py_eval : text -> outcome text.
Variable py_int : text -> option Z.

Lemma starts_with_firstn prefix : forall s,
  starts_with prefix s = true <-> firstn (List.length prefix) s = prefix.
Proof.
  induction prefix as [|a prefix IH]; intros s; simpl.
  - split; reflexivity.
  - destruct s as [|b s]; [split; discriminate|].
    rewrite andb_true_iff, IH, Ascii.eqb_eq. split.
    + intros [-> ->]. reflexivity.
    + intros [= -> H]. split; [reflexivity | exact H].
Qed.

Lemma starts_with_longer prefix more : forall s,
  starts_with (prefix ++ more) s = true -> starts_with prefix s = true.
Proof.
  induction prefix as [|a prefix IH]; intros s; simpl; [reflexivity|].
  destruct s as [|b s]; [discriminate|].
  rewrite !andb_true_iff. intros [Ha H]. split; [exact Ha | apply IH, H].
Qed.

Lemma valid_manual_input_prefix s :
  valid_manual_input s = starts_with (txt "r'$") s.
Proof.
  unfold valid_manual_input.
  destruct (starts_with (txt "r'$") s) eqn:E1; [reflexivity|].
  destruct (starts_with (txt "r'$$") s) eqn:E2; [|reflexivity].
  change (txt "r'$$") with (txt "r'$" ++ txt "$") in E2.
  apply starts_with_longer in E2. congruence.
Qed.

(** C10.  The test of the manual mode accepts a line exactly when its first
    three characters are [r'$]; nothing after them matters and the test for
    [r'$$] adds nothing.  A line such as [r'$x], a literal without its
    closing quote, passes the test; when [eval] then raises [SyntaxError],
    the mode has asked for the file name and the DPI, prints the line on the
    string syntax, and saves no image. *)
Theorem manual_validation_is_three_character_prefix :
  (forall s : text, valid_manual_input s = starts_with (txt "r'$") s) /\
  (forall s : text, valid_manual_input s = true <-> firstn 3 s = txt "r'$") /\
  valid_manual_input (txt "r'$x") = true /\
  (forall (latex_input output_name dpi_input msg : text) (more : list text)
          (w : world),
      firstn 3 latex_input = txt "r'$" ->
      py_eval latex_input = Raises {| kind := SyntaxError; message := msg |} ->
      stdin w = latex_input :: output_name :: dpi_input :: more ->
      exists w',
        manual_mode savefig py_eval py_int w = (Returns tt, w') /\
        stdin w' = more /\
        last (console w') [] = syntax_error_line /\
        images w' = images w /\ figures w' = figures w /\
        written w' = written w).
Proof.
  split; [exact valid_manual_input_prefix|].
  split; [intros s; rewrite valid_manual_input_prefix;
          apply (starts_with_firstn (txt "r'$"))|].
  split; [reflexivity|].
  intros latex_input output_name dpi_input msg more w Hpre Hev Hin.
  assert (Hv : valid_manual_input latex_input = true).
  { rewrite valid_manual_input_prefix.
    apply (starts_with_firstn (txt "r'$")). exact Hpre. }
  unfold manual_mode, read_dpi, try_except, bind, print, input, ret.
  cbn [stdin console figures images written]. rewrite Hin, Hv. cbn [negb].
  cbv beta iota.
  cbn [stdin console figures images written].
  destruct dpi_input as [|d dpi_input]; cbv beta iota.
  - rewrite Hev. cbn [kind]. cbv beta iota.
    eexists. split; [reflexivity|].
    cbn [stdin console figures images written].
    repeat split. apply last_last.
  - destruct (py_int (d :: dpi_input)); cbv beta iota.
    + rewrite Hev. cbn [kind]. cbv beta iota.
      eexists. split; [reflexivity|].
      cbn [stdin console figures images written].
      repeat split. apply last_last.
    + cbn [stdin console figures images written].
      rewrite Hev. cbn [kind]. cbv beta iota.
      eexists. split; [reflexivity|].
      cbn [stdin console figures images written].
      repeat split. apply last_last.
Qed.

End ManualMode.

(* ------------------------------------------------------------------ *)
(** * The two patterns on well-formed equations *)

Section Scanning.
Import Regex Props Locator.

(** ** The scan of [finditer], one step at a time *)

Lemma finditer_miss r b x xs p busy :
  match_at r b (x :: xs) p = None ->
  finditer_from r b (x :: xs) p busy = finditer_from r (Some x) xs (S p) busy.
Proof.
  intros H. simpl. rewrite H. destruct (p <? busy); reflexivity.
Qed.

Lemma finditer_hit r b x xs p busy m :
  match_at r b (x :: xs) p = Some m ->
  busy <= p ->
  finditer_from r b (x :: xs) p busy
  = m :: finditer_from r (Some x) xs (S p) (m_end m).
Proof.
  intros H Hb. simpl.
  replace (p <? busy) with false by (symmetry; apply Nat.ltb_ge; exact Hb).
  rewrite H. reflexivity.
Qed.

(** Inside the previous match no match starts. *)
Lemma finditer_busy r : forall u b w p busy,
  p + List.length u <= busy ->
  finditer_from r b (u ++ w) p busy
  = finditer_from r (last_before b u) w (p + List.length u) busy.
Proof.
  induction u as [|x u IH]; intros b w p busy Hb; simpl.
  - rewrite Nat.add_0_r. reflexivity.
  - simpl in Hb.
    replace (p <? busy) with true by (symmetry; apply Nat.ltb_lt; lia).
    rewrite IH by lia. f_equal. lia.
Qed.

Lemma inline_opens_with_dollar : opens_with_dollar inline_pattern.
Proof.
  split.
  - intros b p. unfold match_at. simpl. destruct b as [y|]; [|reflexivity].
    destruct (Ascii.eqb y backslash); reflexivity.
  - intros b x xs p H. unfold match_at. simpl rmatch.
    destruct b as [y|]; simpl in *.
    + destruct (Ascii.eqb y backslash); [reflexivity|].
      destruct H as [H | H]; [|discriminate]. rewrite H. reflexivity.
    + destruct H as [H | H]; [|discriminate]. rewrite H. reflexivity.
Qed.

Lemma display_opens_with_dollar : opens_with_dollar display_pattern.
Proof.
  split.
  - intros b p. unfold match_at. simpl. destruct b as [y|]; [|reflexivity].
    destruct (Ascii.eqb y backslash); reflexivity.
  - intros b x xs p H. unfold match_at. simpl rmatch.
    destruct b as [y|]; simpl in *.
    + destruct (Ascii.eqb y backslash); [reflexivity|].
      destruct H as [H | H]; [|discriminate]. rewrite H. reflexivity.
    + destruct H as [H | H]; [|discriminate]. rewrite H. reflexivity.
Qed.

(** Over text without an unescaped dollar the scan finds nothing. *)
Lemma finditer_plain r :
  opens_with_dollar r ->
  forall u b w p busy,
    plain b u = true ->
    finditer_from r b (u ++ w) p busy
    = finditer_from r (last_before b u) w (p + List.length u) busy.
Proof.
  intros [_ Hr]. induction u as [|x u IH]; intros b w p busy Hp.
  - simpl. rewrite Nat.add_0_r. reflexivity.
  - simpl in Hp. apply andb_true_iff in Hp. destruct Hp as [Hx Hp].
    change ((x :: u) ++ w) with (x :: u ++ w).
    rewrite finditer_miss.
    + rewrite IH by exact Hp. simpl. f_equal. lia.
    + apply Hr. apply orb_true_iff in Hx.
      destruct Hx as [Hx | Hx]; apply negb_true_iff in Hx; auto.
Qed.

Lemma finditer_end r b p busy :
  opens_with_dollar r -> finditer_from r b [] p busy = [].
Proof.
  intros [Hr _]. simpl. rewrite Hr. destruct (p <? busy); reflexivity.
Qed.

(** ** The loop of the star over a content without dollar *)

Lemma star_loop_run body k :
  (forall b x xs p cs k',
      Ascii.eqb x dollar = false ->
      body {| before := b; rest := x :: xs; pos := p; caps := cs |} k'
      = k' {| before := Some x; rest := xs; pos := S p; caps := cs |}) ->
  (forall b x xs p cs,
      Ascii.eqb x dollar = false ->
      k {| before := b; rest := x :: xs; pos := p; caps := cs |} = None) ->
  forall u b w p cs fuel e,
    dollar_free u = true ->
    List.length u <= fuel ->
    k (after b u w p cs) = Some e ->
    star_loop body k fuel
      {| before := b; rest := u ++ w; pos := p; caps := cs |} = Some e.
Proof.
  intros Hbody Hk. induction u as [|x u IH]; intros b w p cs fuel e Hd Hf He.
  - unfold after in He. simpl in He. rewrite Nat.add_0_r in He.
    destruct fuel; simpl; rewrite He; reflexivity.
  - simpl in Hd. apply andb_true_iff in Hd. destruct Hd as [Hx Hd].
    apply negb_true_iff in Hx.
    destruct fuel as [|fuel]; [simpl in Hf; lia|].
    simpl star_loop. change ((x :: u) ++ w) with (x :: u ++ w).
    rewrite Hk by exact Hx. rewrite Hbody by exact Hx.
    cbn [pos].
    replace (p <? S p) with true by (symmetry; apply Nat.ltb_lt; lia).
    apply IH; [exact Hd | simpl in Hf; lia|].
    unfold after in *. simpl in He.
    replace (S p + List.length u) with (p + S (List.length u)) by lia.
    exact He.
Qed.

End Scanning.

Section Matches.
Import Regex Props Locator.

Lemma rmatch_Cat r1 r2 c k :
  rmatch (Cat r1 r2) c k = rmatch r1 c (fun c1 => rmatch r2 c1 k).
Proof. reflexivity. Qed.

Lemma rmatch_Group n r c k :
  rmatch (Group n r) c k
  = rmatch r c (fun c1 => k (set_cap n (pos c) (pos c1) c1)).
Proof. reflexivity. Qed.

Lemma rmatch_LazyStar r c k :
  rmatch (LazyStar r) c k = star_loop (rmatch r) k (List.length (rest c)) c.
Proof. reflexivity. Qed.

Lemma rmatch_NotBehind a c k :
  rmatch (NotBehind a) c k
  = match before c with
    | Some x => if Ascii.eqb x a then None else k c
    | None => k c
    end.
Proof. reflexivity. Qed.

Lemma rmatch_not_behind c k :
  unescaped (before c) = true -> rmatch (NotBehind backslash) c k = k c.
Proof.
  intros H. simpl. destruct (before c) as [y|]; [|reflexivity].
  simpl in H. apply negb_true_iff in H. rewrite H. reflexivity.
Qed.

Lemma rmatch_dollar b xs p cs k :
  rmatch (Chr dollar)
    {| before := b; rest := dollar :: xs; pos := p; caps := cs |} k
  = k {| before := Some dollar; rest := xs; pos := S p; caps := cs |}.
Proof. reflexivity. Qed.

Lemma rmatch_not_dollar b x xs p cs k :
  Ascii.eqb x dollar = false ->
  rmatch (Chr dollar)
    {| before := b; rest := x :: xs; pos := p; caps := cs |} k = None.
Proof. intros H. simpl. rewrite H. reflexivity. Qed.

Lemma inline_body_step b x xs p cs k' :
  Ascii.eqb x dollar = false ->
  rmatch (Cat (NotAhead (Chr dollar)) AnyChar)
    {| before := b; rest := x :: xs; pos := p; caps := cs |} k'
  = k' {| before := Some x; rest := xs; pos := S p; caps := cs |}.
Proof. intros Hx. simpl. rewrite Hx. reflexivity. Qed.

Lemma inline_close_fails s b x xs p cs :
  Ascii.eqb x dollar = false ->
  (fun c1 : cursor =>
     rmatch (Cat (NotBehind backslash) (Chr dollar))
       (set_cap 1 s (pos c1) c1) Some)
    {| before := b; rest := x :: xs; pos := p; caps := cs |} = None.
Proof.
  intros Hx. simpl. rewrite Hx. destruct b as [y|]; [|reflexivity].
  destruct (Ascii.eqb y backslash); reflexivity.
Qed.

(** The inline pattern on [$body$]. *)
Lemma inline_match b body w p :
  unescaped b = true ->
  dollar_free body = true ->
  unescaped (last_before (Some dollar) body) = true ->
  match_at inline_pattern b (dollar :: body ++ dollar :: w) p
  = Some {| m_start := p; m_end := S (S p + List.length body);
            m_caps := [(1, (S p, S p + List.length body))] |}.
Proof.
  intros Hb Hd He. unfold match_at, inline_pattern. cbn [seq].
  rewrite rmatch_Cat, rmatch_not_behind by exact Hb.
  rewrite rmatch_Cat, rmatch_dollar.
  rewrite rmatch_Cat, rmatch_Group, rmatch_LazyStar. cbn [rest pos].
  rewrite (star_loop_run _ _ (inline_body_step) (inline_close_fails (S p))
             body (Some dollar) (dollar :: w) (S p) [] _
             {| before := Some dollar; rest := w;
                pos := S (S p + List.length body);
                caps := [(1, (S p, S p + List.length body))] |}).
  - reflexivity.
  - exact Hd.
  - rewrite length_app. lia.
  - unfold after. cbn [pos]. rewrite rmatch_Cat.
    rewrite rmatch_not_behind by exact He.
    unfold set_cap. cbn [before rest pos caps]. rewrite rmatch_dollar.
    reflexivity.
Qed.

Lemma display_body_step b x xs p cs k' :
  Ascii.eqb x dollar = false ->
  rmatch (Cat (NotAhead (Cat (Chr dollar) (Chr dollar))) AnyChar)
    {| before := b; rest := x :: xs; pos := p; caps := cs |} k'
  = k' {| before := Some x; rest := xs; pos := S p; caps := cs |}.
Proof. intros Hx. simpl. rewrite Hx. reflexivity. Qed.

Lemma display_close_fails s b x xs p cs :
  Ascii.eqb x dollar = false ->
  (fun c1 : cursor =>
     rmatch (Cat (NotBehind backslash) (Cat (Chr dollar) (Chr dollar)))
       (set_cap 1 s (pos c1) c1) Some)
    {| before := b; rest := x :: xs; pos := p; caps := cs |} = None.
Proof.
  intros Hx. simpl. rewrite Hx. destruct b as [y|]; [|reflexivity].
  destruct (Ascii.eqb y backslash); reflexivity.
Qed.

(** The display pattern on [$$a$$]. *)
Lemma display_match b a w p :
  unescaped b = true ->
  dollar_free a = true ->
  unescaped (last_before (Some dollar) a) = true ->
  match_at display_pattern b (dollar :: dollar :: a ++ dollar :: dollar :: w) p
  = Some {| m_start := p; m_end := S (S (S (S p) + List.length a));
            m_caps := [(1, (S (S p), S (S p) + List.length a))] |}.
Proof.
  intros Hb Hd He. unfold match_at, display_pattern. cbn [seq].
  rewrite rmatch_Cat, rmatch_not_behind by exact Hb.
  rewrite rmatch_Cat, rmatch_dollar.
  rewrite rmatch_Cat, rmatch_dollar.
  rewrite rmatch_Cat, rmatch_Group, rmatch_LazyStar. cbn [rest pos].
  rewrite (star_loop_run _ _ (display_body_step)
             (display_close_fails (S (S p)))
             a (Some dollar) (dollar :: dollar :: w) (S (S p)) [] _
             {| before := Some dollar; rest := w;
                pos := S (S (S (S p) + List.length a));
                caps := [(1, (S (S p), S (S p) + List.length a))] |}).
  - reflexivity.
  - exact Hd.
  - rewrite length_app. lia.
  - unfold after. cbn [pos]. rewrite rmatch_Cat.
    rewrite rmatch_not_behind by exact He.
    unfold set_cap. cbn [before rest pos caps].
    rewrite rmatch_Cat, rmatch_dollar, rmatch_dollar.
    reflexivity.
Qed.

(** The display pattern does not match at a single dollar. *)
Lemma display_miss b w p :
  no_dollar_head w = true ->
  match_at display_pattern b (dollar :: w) p = None.
Proof.
  intros Hw. unfold match_at, display_pattern. cbn [seq].
  rewrite rmatch_Cat.
  assert (H : forall b',
             rmatch (Chr dollar)
               {| before := b'; rest := w; pos := S p; caps := [] |}
               (fun c1 =>
                  rmatch
                    (Cat (Group 1
                            (LazyStar
                               (Cat (NotAhead (Cat (Chr dollar) (Chr dollar)))
                                  AnyChar)))
                       (Cat (NotBehind backslash)
                          (Cat (Chr dollar) (Chr dollar)))) c1 Some)
             = None).
  { intros b'. destruct w as [|x xs]; [reflexivity|].
    simpl in Hw. apply negb_true_iff in Hw.
    apply rmatch_not_dollar. exact Hw. }
  rewrite rmatch_NotBehind. cbn [before].
  destruct b as [y|]; [destruct (Ascii.eqb y backslash); [reflexivity|]|];
    rewrite rmatch_Cat, rmatch_dollar, rmatch_Cat, H; reflexivity.
Qed.

Lemma last_before_app : forall u b v,
  last_before b (u ++ v) = last_before (last_before b u) v.
Proof.
  induction u as [|x u IH]; intros b v; simpl; [reflexivity | apply IH].
Qed.

Lemma dollar_free_plain : forall u b,
  dollar_free u = true -> plain b u = true.
Proof.
  induction u as [|x u IH]; intros b H; simpl in *; [reflexivity|].
  apply andb_true_iff in H. destruct H as [Hx Hu].
  rewrite Hx, IH by exact Hu. reflexivity.
Qed.

Lemma plain_no_dollar_head w :
  plain (Some dollar) w = true -> no_dollar_head w = true.
Proof.
  destruct w as [|x w]; simpl; [reflexivity|].
  intros H. apply andb_true_iff in H. destruct H as [H _].
  rewrite orb_false_r in H. exact H.
Qed.

End Matches.

(* ------------------------------------------------------------------ *)
(** * The bound on the iterations of a star, and matches that are not empty *)

Section Adequacy.
Import Regex Props Locator.

Lemma ahead_refl c : ahead c c.
Proof. exists []. simpl. split; [reflexivity | lia]. Qed.

Lemma ahead_trans c1 c2 c3 : ahead c1 c2 -> ahead c2 c3 -> ahead c1 c3.
Proof.
  intros (u & Hr & Hp) (u' & Hr' & Hp'). exists (u ++ u'). split.
  - rewrite Hr, Hr', app_assoc. reflexivity.
  - rewrite Hp', Hp, length_app. lia.
Qed.

Lemma star_loop_ext body :
  (forall c k1 k2,
      (forall c', ahead c c' -> k1 c' = k2 c') -> body c k1 = body c k2) ->
  forall fuel c k1 k2,
    (forall c', ahead c c' -> k1 c' = k2 c') ->
    star_loop body k1 fuel c = star_loop body k2 fuel c.
Proof.
  intros Hbody. induction fuel as [|fuel IH]; intros c k1 k2 H; simpl.
  - rewrite (H c (ahead_refl c)). reflexivity.
  - rewrite (H c (ahead_refl c)). destruct (k2 c); [reflexivity|].
    apply Hbody. intros c1 H1.
    destruct (pos c <? pos c1); [|reflexivity].
    apply IH. intros c' H'. apply H. eapply ahead_trans; eassumption.
Qed.

(** The matcher calls its continuation only at cursors further on in the
    text. *)
Lemma rmatch_ext r : forall c k1 k2,
  (forall c', ahead c c' -> k1 c' = k2 c') ->
  rmatch r c k1 = rmatch r c k2.
Proof.
  induction r as [| a | | r1 IH1 r2 IH2 | r1 IH1 | r1 IH1 | a | n r1 IH1];
    intros c k1 k2 H; simpl.
  - apply H, ahead_refl.
  - destruct (rest c) as [|x xs] eqn:Hr; [reflexivity|].
    destruct (Ascii.eqb x a); [|reflexivity].
    apply H. exists [x]. simpl. split; [exact Hr | lia].
  - destruct (rest c) as [|x xs] eqn:Hr; [reflexivity|].
    apply H. exists [x]. simpl. split; [exact Hr | lia].
  - apply IH1. intros c1 H1. apply IH2. intros c2 H2.
    apply H. eapply ahead_trans; eassumption.
  - apply star_loop_ext; assumption.
  - destruct (rmatch r1 c Some); [reflexivity|]. apply H, ahead_refl.
  - destruct (before c) as [x|]; [destruct (Ascii.eqb x a)|];
      try reflexivity; apply H, ahead_refl.
  - apply IH1. intros c1 H1. apply H.
    destruct H1 as (u & Hr & Hp). exists u. simpl. split; assumption.
Qed.

Lemma rmatch_never r c : rmatch r c (fun _ => None) = None.
Proof.
  destruct (rmatch r c (fun _ => None)) as [e|] eqn:H; [|reflexivity].
  apply rmatch_inv in H. destruct H as (c' & H & _). discriminate.
Qed.

(** The number of characters left is fuel enough for the loop of a star:
    more fuel does not change what it returns. *)
Lemma star_loop_fuel r k : forall fuel extra c,
  List.length (rest c) <= fuel ->
  star_loop (rmatch r) k (fuel + extra) c = star_loop (rmatch r) k fuel c.
Proof.
  induction fuel as [|fuel IH]; intros extra c Hlen.
  - destruct extra as [|extra]; [reflexivity|]. simpl.
    destruct (k c); [reflexivity|].
    transitivity (rmatch r c (fun _ => None)); [|apply rmatch_never].
    apply rmatch_ext. intros c1 (u & Hr & Hp).
    destruct (rest c) as [|x xs]; [|simpl in Hlen; lia].
    destruct u; [|discriminate]. simpl in Hp.
    replace (pos c <? pos c1) with false
      by (symmetry; apply Nat.ltb_ge; lia).
    reflexivity.
  - simpl. destruct (k c); [reflexivity|].
    apply rmatch_ext. intros c1 (u & Hr & Hp).
    destruct (pos c <? pos c1) eqn:Hlt; [|reflexivity].
    apply Nat.ltb_lt in Hlt. apply IH.
    rewrite Hr, length_app in Hlen. lia.
Qed.

Lemma lazy_star_fuel r c k extra :
  rmatch (LazyStar r) c k
  = star_loop (rmatch r) k (List.length (rest c) + extra) c.
Proof.
  rewrite rmatch_LazyStar. symmetry. apply star_loop_fuel. lia.
Qed.

(** A pattern that starts with [(?<!\\)\$] has no empty match, so that the
    scan of [finditer] never has to step over one. *)
Lemma dollar_match_not_empty r b s p m :
  match_at (Cat (NotBehind backslash) (Cat (Chr dollar) r)) b s p = Some m ->
  m_start m = p /\ p < m_end m /\ m_end m <= p + List.length s.
Proof.
  unfold match_at.
  destruct (rmatch _ _ Some) as [e|] eqn:H; [|discriminate].
  intros [= <-]. simpl.
  rewrite rmatch_Cat, rmatch_NotBehind in H. cbn [before] in H.
  assert (H' : rmatch (Cat (Chr dollar) r)
                 {| before := b; rest := s; pos := p; caps := [] |} Some
               = Some e).
  { destruct b as [y|]; [destruct (Ascii.eqb y backslash)|];
      [discriminate | exact H | exact H]. }
  clear H. rewrite rmatch_Cat in H'. simpl in H'.
  destruct s as [|x xs]; [discriminate|].
  destruct (Ascii.eqb x dollar); [|discriminate].
  apply rmatch_inv in H'. destruct H' as (c' & [= <-] & (u & ex & Hr & Hp & _)).
  simpl in *. rewrite Hp.
  assert (List.length xs = List.length u + List.length (rest c'))
    by (rewrite Hr, length_app; reflexivity).
  repeat split; lia.
Qed.

Lemma inline_match_not_empty b s p m :
  match_at inline_pattern b s p = Some m -> p < m_end m.
Proof. intros H. apply (dollar_match_not_empty _ _ _ _ _ H). Qed.

Lemma display_match_not_empty b s p m :
  match_at display_pattern b s p = Some m -> p < m_end m.
Proof. intros H. apply (dollar_match_not_empty _ _ _ _ _ H). Qed.

End Adequacy.

Section Segments.
Import Regex Props Locator.

Lemma length_display_math a :
  List.length (display_math a) = List.length a + 4.
Proof. unfold display_math. simpl. rewrite length_app. simpl. lia. Qed.

Lemma length_inline_math b :
  List.length (inline_math b) = List.length b + 2.
Proof. unfold inline_math. simpl. rewrite length_app. simpl. lia. Qed.

(** The scan with the inline pattern over an inline equation: one match, the
    equation itself. *)
Lemma inline_over_inline b body w p busy :
  unescaped b = true ->
  dollar_free body = true ->
  unescaped (last_before (Some dollar) body) = true ->
  busy <= p ->
  finditer_from inline_pattern b (inline_math body ++ w) p busy
  = {| m_start := p; m_end := p + (List.length body + 2);
       m_caps := [(1, (S p, S p + List.length body))] |}
    :: finditer_from inline_pattern (Some dollar) w
         (p + (List.length body + 2)) (p + (List.length body + 2)).
Proof.
  intros Hb Hd He Hbusy. unfold inline_math.
  change ((dollar :: body ++ [dollar]) ++ w)
    with (dollar :: (body ++ [dollar]) ++ w).
  rewrite (finditer_hit _ _ _ _ _ _
             {| m_start := p; m_end := p + (List.length body + 2);
                m_caps := [(1, (S p, S p + List.length body))] |}).
  - cbn [m_end]. rewrite finditer_busy.
    + rewrite last_before_app. cbn [last_before].
      rewrite length_app. cbn [List.length].
      replace (S p + (List.length body + 1)) with (p + (List.length body + 2))
        by lia.
      reflexivity.
    + rewrite length_app. simpl. lia.
  - rewrite <- app_assoc. cbn [app].
    rewrite inline_match by assumption.
    do 2 f_equal. lia.
  - exact Hbusy.
Qed.

(** The scan with the inline pattern over a display equation: the two pairs
    of dollars are matched as two inline runs without content. *)
Lemma inline_over_display b a w p busy :
  unescaped b = true ->
  dollar_free a = true ->
  unescaped (last_before (Some dollar) a) = true ->
  busy <= p ->
  finditer_from inline_pattern b (display_math a ++ w) p busy
  = {| m_start := p; m_end := p + 2; m_caps := [(1, (S p, S p + 0))] |}
    :: {| m_start := p + 2 + List.length a;
          m_end := p + 2 + List.length a + 2;
          m_caps := [(1, (S (p + 2 + List.length a),
                          S (p + 2 + List.length a) + 0))] |}
    :: finditer_from inline_pattern (Some dollar) w
         (p + (List.length a + 4)) (p + (List.length a + 4)).
Proof.
  intros Hb Hd He Hbusy.
  replace (display_math a ++ w)
    with (inline_math [] ++ a ++ inline_math [] ++ w)
    by (unfold display_math, inline_math; simpl; rewrite <- app_assoc;
        reflexivity).
  rewrite inline_over_inline by (auto; reflexivity).
  cbn [List.length Nat.add]. f_equal.
  rewrite (finditer_plain _ inline_opens_with_dollar)
    by (apply dollar_free_plain; exact Hd).
  rewrite inline_over_inline by (auto; lia).
  cbn [List.length Nat.add]. f_equal.
  replace (p + 2 + List.length a + 2) with (p + (List.length a + 4)) by lia.
  reflexivity.
Qed.

(** The scan with the display pattern over a display equation: one match,
    the equation itself. *)
Lemma display_over_display b a w p busy :
  unescaped b = true ->
  dollar_free a = true ->
  unescaped (last_before (Some dollar) a) = true ->
  busy <= p ->
  finditer_from display_pattern b (display_math a ++ w) p busy
  = {| m_start := p; m_end := p + (List.length a + 4);
       m_caps := [(1, (S (S p), S (S p) + List.length a))] |}
    :: finditer_from display_pattern (Some dollar) w
         (p + (List.length a + 4)) (p + (List.length a + 4)).
Proof.
  intros Hb Hd He Hbusy. unfold display_math.
  change ((dollar :: dollar :: a ++ [dollar; dollar]) ++ w)
    with (dollar :: (dollar :: a ++ [dollar; dollar]) ++ w).
  rewrite (finditer_hit _ _ _ _ _ _
             {| m_start := p; m_end := p + (List.length a + 4);
                m_caps := [(1, (S (S p), S (S p) + List.length a))] |}).
  - cbn [m_end]. rewrite finditer_busy.
    + cbn [last_before List.length].
      rewrite last_before_app. cbn [last_before].
      rewrite length_app. cbn [List.length].
      replace (S p + S (List.length a + 2)) with (p + (List.length a + 4))
        by lia.
      reflexivity.
    + cbn [List.length]. rewrite length_app. simpl. lia.
  - cbn [app]. rewrite <- app_assoc. cbn [app].
    rewrite display_match by assumption.
    do 2 f_equal. lia.
  - exact Hbusy.
Qed.

(** The scan with the display pattern over an inline equation with content,
    followed by something other than a dollar: no match. *)
Lemma display_over_inline b body w p busy :
  body <> [] ->
  dollar_free body = true ->
  no_dollar_head w = true ->
  finditer_from display_pattern b (inline_math body ++ w) p busy
  = finditer_from display_pattern (Some dollar) w
      (p + (List.length body + 2)) busy.
Proof.
  intros Hne Hd Hw. unfold inline_math.
  change ((dollar :: body ++ [dollar]) ++ w)
    with (dollar :: (body ++ [dollar]) ++ w).
  rewrite finditer_miss.
  - rewrite <- app_assoc.
    rewrite (finditer_plain _ display_opens_with_dollar)
      by (apply dollar_free_plain; exact Hd).
    cbn [app]. rewrite finditer_miss by (apply display_miss; exact Hw).
    f_equal. lia.
  - apply display_miss. destruct body as [|x body]; [contradiction|].
    simpl in Hd |- *. apply andb_true_iff in Hd. apply Hd.
Qed.

End Segments.

Section OneOfEach.
Import Regex Props Locator.

Variable pre a mid b post : text.
Hypothesis well_formed : one_of_each pre a mid b post = true.

Lemma one_of_each_parts :
  plain None pre = true /\ unescaped (last_before None pre) = true /\
  dollar_free a = true /\ unescaped (last_before (Some dollar) a) = true /\
  plain (Some dollar) mid = true /\
  unescaped (last_before (Some dollar) mid) = true /\
  b <> [] /\ dollar_free b = true /\
  unescaped (last_before (Some dollar) b) = true /\
  plain (Some dollar) post = true.
Proof.
  unfold one_of_each in well_formed.
  repeat (apply andb_true_iff in well_formed;
          destruct well_formed as [well_formed ?]).
  repeat split; try assumption.
  intros ->. discriminate.
Qed.

(** The document with the display equation first. *)
Lemma display_matches_display_first :
  finditer display_pattern
    (pre ++ display_math a ++ mid ++ inline_math b ++ post)
  = [ {| m_start := List.length pre;
         m_end := List.length pre + (List.length a + 4);
         m_caps := [(1, (S (S (List.length pre)),
                         S (S (List.length pre)) + List.length a))] |} ].
Proof.
  destruct one_of_each_parts
    as (Hpre & Hpre' & Ha & Ha' & Hmid & Hmid' & Hb & Hb' & Hb'' & Hpost).
  unfold finditer.
  rewrite (finditer_plain _ display_opens_with_dollar) by exact Hpre.
  cbn [Nat.add].
  rewrite display_over_display by (auto; lia). f_equal.
  rewrite (finditer_plain _ display_opens_with_dollar) by exact Hmid.
  rewrite display_over_inline
    by (auto; apply plain_no_dollar_head; exact Hpost).
  rewrite <- (app_nil_r post).
  rewrite (finditer_plain _ display_opens_with_dollar) by exact Hpost.
  apply finditer_end, display_opens_with_dollar.
Qed.

Lemma inline_matches_display_first :
  finditer inline_pattern
    (pre ++ display_math a ++ mid ++ inline_math b ++ post)
  = [ {| m_start := List.length pre; m_end := List.length pre + 2;
         m_caps := [(1, (S (List.length pre), S (List.length pre) + 0))] |};
      {| m_start := List.length pre + 2 + List.length a;
         m_end := List.length pre + 2 + List.length a + 2;
         m_caps := [(1, (S (List.length pre + 2 + List.length a),
                         S (List.length pre + 2 + List.length a) + 0))] |};
      {| m_start := List.length pre + (List.length a + 4) + List.length mid;
         m_end := List.length pre + (List.length a + 4) + List.length mid
                  + (List.length b + 2);
         m_caps := [(1, (S (List.length pre + (List.length a + 4)
                            + List.length mid),
                         S (List.length pre + (List.length a + 4)
                            + List.length mid) + List.length b))] |} ].
Proof.
  destruct one_of_each_parts
    as (Hpre & Hpre' & Ha & Ha' & Hmid & Hmid' & Hb & Hb' & Hb'' & Hpost).
  unfold finditer.
  rewrite (finditer_plain _ inline_opens_with_dollar) by exact Hpre.
  cbn [Nat.add].
  rewrite inline_over_display by (auto; lia). do 2 f_equal.
  rewrite (finditer_plain _ inline_opens_with_dollar) by exact Hmid.
  rewrite inline_over_inline by (auto; lia). f_equal.
  rewrite <- (app_nil_r post).
  rewrite (finditer_plain _ inline_opens_with_dollar) by exact Hpost.
  apply finditer_end, inline_opens_with_dollar.
Qed.

(** The document with the inline equation first; the text between the two
    equations is not empty. *)
Hypothesis apart : mid <> [].

Lemma mid_no_dollar_head w : no_dollar_head (mid ++ w) = true.
Proof.
  destruct one_of_each_parts as (_ & _ & _ & _ & Hmid & _).
  destruct mid as [|x m]; [contradiction|].
  simpl in Hmid |- *. apply andb_true_iff in Hmid.
  destruct Hmid as [Hx _]. rewrite orb_false_r in Hx. exact Hx.
Qed.

Lemma display_matches_inline_first :
  finditer display_pattern
    (pre ++ inline_math b ++ mid ++ display_math a ++ post)
  = [ {| m_start := List.length pre + (List.length b + 2) + List.length mid;
         m_end := List.length pre + (List.length b + 2) + List.length mid
                  + (List.length a + 4);
         m_caps := [(1, (S (S (List.length pre + (List.length b + 2)
                               + List.length mid)),
                         S (S (List.length pre + (List.length b + 2)
                               + List.length mid)) + List.length a))] |} ].
Proof.
  destruct one_of_each_parts
    as (Hpre & Hpre' & Ha & Ha' & Hmid & Hmid' & Hb & Hb' & Hb'' & Hpost).
  unfold finditer.
  rewrite (finditer_plain _ display_opens_with_dollar) by exact Hpre.
  cbn [Nat.add].
  rewrite display_over_inline by (auto; apply mid_no_dollar_head).
  rewrite (finditer_plain _ display_opens_with_dollar) by exact Hmid.
  rewrite display_over_display by (auto; lia). f_equal.
  rewrite <- (app_nil_r post).
  rewrite (finditer_plain _ display_opens_with_dollar) by exact Hpost.
  apply finditer_end, display_opens_with_dollar.
Qed.

Lemma inline_matches_inline_first :
  finditer inline_pattern
    (pre ++ inline_math b ++ mid ++ display_math a ++ post)
  = [ {| m_start := List.length pre;
         m_end := List.length pre + (List.length b + 2);
         m_caps := [(1, (S (List.length pre),
                         S (List.length pre) + List.length b))] |};
      {| m_start := List.length pre + (List.length b + 2) + List.length mid;
         m_end := List.length pre + (List.length b + 2) + List.length mid + 2;
         m_caps := [(1, (S (List.length pre + (List.length b + 2)
                            + List.length mid),
                         S (List.length pre + (List.length b + 2)
                            + List.length mid) + 0))] |};
      {| m_start := List.length pre + (List.length b + 2) + List.length mid
                    + 2 + List.length a;
         m_end := List.length pre + (List.length b + 2) + List.length mid
                  + 2 + List.length a + 2;
         m_caps := [(1, (S (List.length pre + (List.length b + 2)
                            + List.length mid + 2 + List.length a),
                         S (List.length pre + (List.length b + 2)
                            + List.length mid + 2 + List.length a) + 0))] |} ].
Proof.
  destruct one_of_each_parts
    as (Hpre & Hpre' & Ha & Ha' & Hmid & Hmid' & Hb & Hb' & Hb'' & Hpost).
  unfold finditer.
  rewrite (finditer_plain _ inline_opens_with_dollar) by exact Hpre.
  cbn [Nat.add].
  rewrite inline_over_inline by (auto; lia). f_equal.
  rewrite (finditer_plain _ inline_opens_with_dollar) by exact Hmid.
  rewrite inline_over_display by (auto; lia). do 2 f_equal.
  rewrite <- (app_nil_r post).
  rewrite (finditer_plain _ inline_opens_with_dollar) by exact Hpost.
  apply finditer_end, inline_opens_with_dollar.
Qed.

End OneOfEach.

(* ------------------------------------------------------------------ *)
(** * One display match and one inline match outside it *)

Section OneOutside.
Import Regex Props Locator.

Lemma finditer_from_match r : forall s b p busy m,
  In m (finditer_from r b s p busy) ->
  exists b' s' p', match_at r b' s' p' = Some m.
Proof.
  induction s as [|x xs IH]; intros b p busy m; simpl.
  - destruct (p <? busy); [intros []|].
    destruct (match_at r b [] p) eqn:E; [|intros []].
    intros [<- | []]. eauto.
  - destruct (if p <? busy then None else match_at r b (x :: xs) p) eqn:E.
    + intros [<- | H]; [|eapply IH; exact H].
      destruct (p <? busy); [discriminate | eauto].
    + apply IH.
Qed.

Lemma inline_candidate_not_empty content c :
  In c (finditer inline_pattern content) -> m_start c < m_end c.
Proof.
  intros H. apply finditer_from_match in H. destruct H as (b & s & p & H).
  destruct (dollar_match_not_empty _ _ _ _ _ H) as (-> & Hlt & _). exact Hlt.
Qed.

Lemma display_match_not_empty' content d :
  In d (finditer display_pattern content) -> m_start d < m_end d.
Proof.
  intros H. apply finditer_from_match in H. destruct H as (b & s & p & H).
  destruct (dollar_match_not_empty _ _ _ _ _ H) as (-> & Hlt & _). exact Hlt.
Qed.

Variable content : text.
Variable d c : pymatch.

Hypothesis c_outside : inside c (entry_of content d true) = false.
Hypothesis c_not_empty : m_start c < m_end c.

Lemma add_inline_outside acc m :
  acc = [entry_of content d true]
  \/ acc = [entry_of content d true; entry_of content c false] ->
  m = c \/ inside m (entry_of content d true) = true ->
  let acc' := add_inline content acc m in
  (acc' = [entry_of content d true]
   \/ acc' = [entry_of content d true; entry_of content c false]) /\
  (m = c -> acc' = [entry_of content d true; entry_of content c false]) /\
  (acc = [entry_of content d true; entry_of content c false] -> acc' = acc).
Proof.
  intros Hacc Hm. unfold add_inline. cbv zeta.
  assert (Hcc : inside c (entry_of content c false) = true).
  { unfold inside, entry_of, span_start, span_end. simpl.
    rewrite !Nat.leb_refl. reflexivity. }
  destruct Hm as [-> | Hin].
  - destruct Hacc as [-> | ->]; simpl.
    + rewrite c_outside. simpl.
      repeat split; auto; try discriminate.
    + rewrite c_outside, Hcc. simpl. repeat split; auto.
  - destruct Hacc as [-> | ->]; simpl; rewrite Hin; simpl.
    + repeat split; auto; try discriminate. intros ->. congruence.
    + repeat split; auto.
Qed.

Lemma fold_add_inline_outside : forall ms acc,
  acc = [entry_of content d true]
  \/ acc = [entry_of content d true; entry_of content c false] ->
  (forall m, In m ms -> m = c \/ inside m (entry_of content d true) = true) ->
  In c ms \/ acc = [entry_of content d true; entry_of content c false] ->
  fold_left (add_inline content) ms acc
  = [entry_of content d true; entry_of content c false].
Proof.
  induction ms as [|m ms IH]; intros acc Hacc Hall Hc; simpl.
  - destruct Hc as [[] | ->]. reflexivity.
  - destruct (add_inline_outside acc m Hacc (Hall m (in_eq _ _)))
      as (Hacc' & Hmc & Hkeep).
    apply IH; [exact Hacc' | intros m' Hm'; apply Hall; right; exact Hm'|].
    destruct Hc as [[<- | Hc] | Hc].
    + right. apply Hmc. reflexivity.
    + left. exact Hc.
    + right. rewrite (Hkeep Hc). exact Hc.
Qed.

End OneOutside.

Section OneDisplayOneInline.
Import Regex Props Locator.

Lemma slice_segment (u v w : text) s e :
  s = List.length u -> e = s + List.length v ->
  slice (u ++ v ++ w) s e = v.
Proof.
  intros -> ->. unfold slice.
  rewrite skipn_app, skipn_all, Nat.sub_diag. simpl.
  replace (List.length u + List.length v - List.length u)
    with (List.length v) by lia.
  rewrite firstn_app, firstn_all, Nat.sub_diag. simpl.
  apply app_nil_r.
Qed.

Lemma add_inline_skip content acc m e :
  In e acc ->
  span_start e <= m_start m -> m_end m <= span_end e ->
  add_inline content acc m = acc.
Proof.
  intros Hin Hs He. unfold add_inline.
  replace (existsb (inside m) acc) with true; [reflexivity|].
  symmetry. apply existsb_exists. exists e. split; [exact Hin|].
  unfold inside. apply andb_true_iff. split; apply Nat.leb_le; assumption.
Qed.

Lemma add_inline_keep content acc m :
  Forall (fun e => m_start m < span_start e \/ span_end e < m_end m) acc ->
  add_inline content acc m
  = acc ++ [(m_start m, m_end m, group0 content m, false)].
Proof.
  intros Hall. unfold add_inline.
  replace (existsb (inside m) acc) with false; [reflexivity|].
  symmetry. apply not_true_is_false. intros H.
  apply existsb_exists in H. destruct H as (e & Hin & Hi).
  rewrite Forall_forall in Hall. specialize (Hall e Hin).
  unfold inside in Hi. apply andb_true_iff in Hi.
  destruct Hi as [H1 H2]. apply Nat.leb_le in H1, H2. lia.
Qed.

(** The next iteration of the loop over the inline matches, on a list of
    entries that is known. *)
Ltac skip_inline :=
  match goal with
  | |- context [add_inline ?c ?acc ?m] =>
      match acc with
      | ?e :: _ =>
          rewrite (add_inline_skip c acc m e)
            by (try apply in_eq; unfold span_start, span_end; cbn; lia)
      end
  end.

Ltac keep_inline :=
  match goal with
  | |- context [add_inline ?c ?acc ?m] =>
      match acc with
      | _ :: _ =>
          rewrite (add_inline_keep c acc m)
            by (repeat constructor; unfold span_start, span_end; cbn; lia)
      end
  end.

Ltac leb_decide :=
  repeat match goal with
         | |- context [?x <=? ?y] =>
             first [ rewrite (proj2 (Nat.leb_le x y)) by lia
                   | rewrite (proj2 (Nat.leb_gt x y)) by lia ]
         end.

(** C6.  The example of the claim is located as the claim says; the general
    part fails on the code.  The text [Start $c-d$$$a+b$$ end.] is one
    inline equation [$c-d$] directly followed by one display equation
    [$$a+b$$]: the Locator returns the inline span (6,11) and, instead of
    the display equation at (11,18), a display span (10,18) with the raw
    text [$$$a+b$$], which shares offset 10 with the inline span.  The text
    [Start $$a+b$$ middle $c\$d$ end.] is one display equation and one
    inline equation whose content holds an escaped dollar: the Locator
    returns the display span alone. *)
Theorem one_display_one_inline_mislocated :
  locate_equations (txt "Start $$a+b$$ middle $c-d$ end.")
  = [(6, 13, txt "$$a+b$$", true); (21, 26, txt "$c-d$", false)] /\
  (txt "Start $c-d$$$a+b$$ end."
   = txt "Start " ++ inline_math (txt "c-d") ++ display_math (txt "a+b")
       ++ txt " end." /\
   locate_equations (txt "Start $c-d$$$a+b$$ end.")
   = [(6, 11, txt "$c-d$", false); (10, 18, txt "$$$a+b$$", true)] /\
   overlap (6, 11, txt "$c-d$", false) (10, 18, txt "$$$a+b$$", true) /\
   locate_equations (txt "Start $c-d$$$a+b$$ end.")
   <> [(6, 11, inline_math (txt "c-d"), false);
       (11, 18, display_math (txt "a+b"), true)]) /\
  (txt "Start $$a+b$$ middle $c\$d$ end."
   = txt "Start " ++ display_math (txt "a+b") ++ txt " middle "
       ++ inline_math (txt "c\$d") ++ txt " end." /\
   unescaped (last_before (Some dollar) (txt "c\$d")) = true /\
   plain (Some dollar) (txt "c\$d") = true /\
   locate_equations (txt "Start $$a+b$$ middle $c\$d$ end.")
   = [(6, 13, txt "$$a+b$$", true)]).
Proof.
  split; [vm_compute; reflexivity|]. split.
  - split; [vm_compute; reflexivity|].
    split; [vm_compute; reflexivity|]. split.
    + exists 10. unfold span_start, span_end. simpl. lia.
    + vm_compute. intros H. discriminate H.
  - repeat split; vm_compute; reflexivity.
Qed.

(** X30.  For the text [Start $$a+b$$ middle $c-d$ end.] the Locator returns
    the display span at (6,13) and then the inline span at (21,26).  In
    general, when the display pattern has exactly one match and exactly one
    inline match lies outside it, all the others lying inside it, the
    Locator returns exactly two entries, in the order of their positions,
    the display one marked as display and the inline one as inline, each
    with the substring of the text between its offsets as raw text.  And
    for a document made of one display equation and one inline equation, in
    either order, with text around them that has no unescaped dollar, these
    two entries are the two equations themselves, delimiters included. *)
Theorem one_display_one_inline_located :
  locate_equations (txt "Start $$a+b$$ middle $c-d$ end.")
  = [(6, 13, txt "$$a+b$$", true); (21, 26, txt "$c-d$", false)] /\
  (forall (content : text) (d c : pymatch),
      finditer display_pattern content = [d] ->
      In c (finditer inline_pattern content) ->
      (forall c', In c' (finditer inline_pattern content) ->
                  c' = c \/ inside c' (entry_of content d true) = true) ->
      (m_end d <= m_start c ->
       locate_equations content
       = [entry_of content d true; entry_of content c false]) /\
      (m_end c <= m_start d ->
       locate_equations content
       = [entry_of content c false; entry_of content d true])) /\
  forall pre a mid b post : text,
    one_of_each pre a mid b post = true ->
    locate_equations (pre ++ display_math a ++ mid ++ inline_math b ++ post)
    = [ (List.length pre, List.length pre + List.length a + 4,
         display_math a, true);
        (List.length pre + List.length a + 4 + List.length mid,
         List.length pre + List.length a + 4 + List.length mid
         + List.length b + 2,
         inline_math b, false) ] /\
    (mid <> [] ->
     locate_equations (pre ++ inline_math b ++ mid ++ display_math a ++ post)
     = [ (List.length pre, List.length pre + List.length b + 2,
          inline_math b, false);
         (List.length pre + List.length b + 2 + List.length mid,
          List.length pre + List.length b + 2 + List.length mid
          + List.length a + 4,
          display_math a, true) ]).
Proof.
  split; [vm_compute; reflexivity|]. split.
  { intros content d c Hd Hc Hall.
    assert (Hcne : m_start c < m_end c)
      by (apply (inline_candidate_not_empty content), Hc).
    assert (Hdne : m_start d < m_end d)
      by (apply (display_match_not_empty' content); rewrite Hd; apply in_eq).
    assert (Hfold : inside c (entry_of content d true) = false ->
                    fold_left (add_inline content)
                      (finditer inline_pattern content)
                      (display_entries content)
                    = [entry_of content d true; entry_of content c false]).
    { intros Hout. unfold display_entries. rewrite Hd.
      apply fold_add_inline_outside; auto. }
    split; intros Hpos; unfold locate_equations; rewrite Hfold.
    - unfold sort_by_start, entry_of. cbn [fold_right insert_by_start].
      unfold span_start. cbn [fst]. leb_decide. reflexivity.
    - unfold inside, entry_of, span_start, span_end. cbn [fst snd].
      apply andb_false_iff. right. apply Nat.leb_gt. lia.
    - unfold sort_by_start, entry_of. cbn [fold_right insert_by_start].
      unfold span_start. cbn [fst]. leb_decide. reflexivity.
    - unfold inside, entry_of, span_start, span_end. cbn [fst snd].
      apply andb_false_iff. left. apply Nat.leb_gt. lia. }
  intros pre a mid b post Hwf. split.
  - unfold locate_equations, display_entries.
    rewrite display_matches_display_first, inline_matches_display_first
      by exact Hwf.
    cbn [map fold_left m_start m_end].
    skip_inline.
    skip_inline.
    keep_inline.
    cbn [app m_start m_end].
    unfold sort_by_start.
    cbn [fold_right insert_by_start].
    unfold span_start. cbn [fst].
    leb_decide.
    unfold group0. cbn [m_start m_end].
    rewrite (slice_segment pre (display_math a))
      by (rewrite ?length_display_math; lia).
    replace (pre ++ display_math a ++ mid ++ inline_math b ++ post)
      with ((pre ++ display_math a ++ mid) ++ inline_math b ++ post)
      by (rewrite <- !app_assoc; reflexivity).
    rewrite (slice_segment _ (inline_math b))
      by (rewrite ?length_app, ?length_display_math, ?length_inline_math;
          lia).
    replace (List.length pre + (List.length a + 4))
      with (List.length pre + List.length a + 4) by lia.
    replace (List.length pre + List.length a + 4 + List.length mid
             + (List.length b + 2))
      with (List.length pre + List.length a + 4 + List.length mid
            + List.length b + 2) by lia.
    reflexivity.
  - intros Hmid.
    unfold locate_equations, display_entries.
    rewrite display_matches_inline_first, inline_matches_inline_first
      by assumption.
    cbn [map fold_left m_start m_end].
    keep_inline.
    cbn [app m_start m_end].
    skip_inline.
    skip_inline.
    unfold sort_by_start.
    cbn [fold_right insert_by_start].
    unfold span_start. cbn [fst].
    leb_decide.
    unfold group0. cbn [m_start m_end].
    rewrite (slice_segment pre (inline_math b))
      by (rewrite ?length_inline_math; lia).
    replace (pre ++ inline_math b ++ mid ++ display_math a ++ post)
      with ((pre ++ inline_math b ++ mid) ++ display_math a ++ post)
      by (rewrite <- !app_assoc; reflexivity).
    rewrite (slice_segment _ (display_math a))
      by (rewrite ?length_app, ?length_display_math, ?length_inline_math;
          lia).
    replace (List.length pre + (List.length b + 2))
      with (List.length pre + List.length b + 2) by lia.
    replace (List.length pre + List.length b + 2 + List.length mid
             + (List.length a + 4))
      with (List.length pre + List.length b + 2 + List.length mid
            + List.length a + 4) by lia.
    reflexivity.
Qed.

Lemma one_display_one_inline_located_witness :
  (locate_equations (txt "Start $$a+b$$ middle $c-d$ end.")
   = [ entry_of (txt "Start $$a+b$$ middle $c-d$ end.")
         {| m_start := 6; m_end := 13; m_caps := [(1, (8, 11))] |} true;
       entry_of (txt "Start $$a+b$$ middle $c-d$ end.")
         {| m_start := 21; m_end := 26; m_caps := [(1, (22, 25))] |} false ]) /\
  locate_equations
    (txt "Start " ++ display_math (txt "a+b") ++ txt " middle "
       ++ inline_math (txt "c-d") ++ txt " end.")
  = [ (6, 13, txt "$$a+b$$", true); (21, 26, txt "$c-d$", false) ] /\
  locate_equations
    (txt "Start " ++ inline_math (txt "c-d") ++ txt " middle "
       ++ display_math (txt "a+b") ++ txt " end.")
  = [ (6, 11, txt "$c-d$", false); (19, 26, txt "$$a+b$$", true) ].
Proof.
  split.
  - apply (proj1 (proj2 one_display_one_inline_located)
             (txt "Start $$a+b$$ middle $c-d$ end.")
             {| m_start := 6; m_end := 13; m_caps := [(1, (8, 11))] |}
             {| m_start := 21; m_end := 26; m_caps := [(1, (22, 25))] |}).
    + vm_compute. reflexivity.
    + vm_compute. right. right. left. reflexivity.
    + intros c' H. vm_compute in H.
      destruct H as [<- | [<- | [<- | []]]];
        [right; reflexivity | right; reflexivity | left; reflexivity].
    + simpl. lia.
  - destruct (proj2 (proj2 one_display_one_inline_located)
                (txt "Start ") (txt "a+b") (txt " middle ") (txt "c-d")
                (txt " end.")) as [H1 H2].
    + reflexivity.
    + split; [exact H1|]. apply H2. discriminate.
Defined.

End OneDisplayOneInline.

Section ManualModeExamples.
Import Props Rewriter Runtime Renderer Session.

Lemma manual_validation_is_three_character_prefix_witness :
  let unterminated := fun _ : text =>
    Raises {| kind := SyntaxError;
              message := txt "unterminated string literal" |} in
  exists w',
    manual_mode (fun _ _ _ => None) unterminated (fun _ => None)
      {| stdin := [txt "r'$x"; txt "x.png"; txt "300"; txt "e"];
         console := []; figures := []; images := []; written := [] |}
    = (Returns tt, w') /\
    stdin w' = [txt "e"] /\
    last (console w') [] = syntax_error_line /\
    images w' = [] /\ figures w' = [] /\ written w' = [].
Proof.
  intros unterminated.
  apply (proj2 (proj2 (proj2
           (manual_validation_is_three_character_prefix
              (fun _ _ _ => None) unterminated (fun _ => None))))
           (txt "r'$x") (txt "x.png") (txt "300")
           (txt "unterminated string literal") [txt "e"]
           {| stdin := [txt "r'$x"; txt "x.png"; txt "300"; txt "e"];
              console := []; figures := []; images := []; written := [] |}).
  - reflexivity.
  - reflexivity.
  - reflexivity.
Defined.

End ManualModeExamples.

(* ------------------------------------------------------------------ *)
(** * Further properties of the matcher and of the scan *)

Section Tracking.
Import Regex Props More Locator.

Lemma follows_refl gs c : follows gs c c.
Proof. exists [], []. simpl. repeat split; auto. Qed.

Lemma follows_mono gs gs' c c' :
  incl gs gs' -> follows gs c c' -> follows gs' c c'.
Proof.
  intros Hi (u & ex & Hr & Hp & Hb & Hc & Hf).
  exists u, ex. repeat split; auto.
  eapply Forall_impl; [| exact Hf]. intros a Ha. apply Hi, Ha.
Qed.

Lemma follows_trans gs c1 c2 c3 :
  follows gs c1 c2 -> follows gs c2 c3 -> follows gs c1 c3.
Proof.
  intros (u & ex & Hr & Hp & Hb & Hc & Hf)
         (u' & ex' & Hr' & Hp' & Hb' & Hc' & Hf').
  exists (u ++ u'), (ex' ++ ex). repeat split.
  - rewrite Hr, Hr', app_assoc. reflexivity.
  - rewrite Hp', Hp, length_app. lia.
  - rewrite Hb', Hb, last_before_app. reflexivity.
  - rewrite Hc', Hc, app_assoc. reflexivity.
  - apply Forall_app. split; assumption.
Qed.

Lemma follows_advance gs x xs c :
  rest c = x :: xs -> follows gs c (advance x xs c).
Proof. intros H. exists [x], []. simpl. repeat split; auto. lia. Qed.

Lemma star_loop_follows gs body k :
  (forall c k' e, body c k' = Some e ->
                  exists c', k' c' = Some e /\ follows gs c c') ->
  forall fuel c e,
    star_loop body k fuel c = Some e ->
    exists c', k c' = Some e /\ follows gs c c'.
Proof.
  intros Hbody. induction fuel as [|fuel IH]; intros c e; simpl.
  - destruct (k c) eqn:Hk; [|discriminate].
    intros [= <-]. exists c. split; [assumption | apply follows_refl].
  - destruct (k c) eqn:Hk.
    + intros [= <-]. exists c. split; [assumption | apply follows_refl].
    + intros Hb. apply Hbody in Hb. destruct Hb as (c1 & Hc1 & Hr1).
      destruct (pos c <? pos c1); [|discriminate].
      apply IH in Hc1. destruct Hc1 as (c' & Hk' & Hr').
      exists c'. split; [assumption|]. eapply follows_trans; eassumption.
Qed.

(** A successful match hands its continuation the cursor that lies after the
    piece of text it has read, with the character before it, and with no
    other groups set than those of the pattern. *)
Lemma rmatch_follows r : forall c k e,
  rmatch r c k = Some e ->
  exists c', k c' = Some e /\ follows (groups_of r) c c'.
Proof.
  induction r as [| a | | r1 IH1 r2 IH2 | r1 IH1 | r1 IH1 | a | n r1 IH1];
    intros c k e; simpl.
  - intros H. exists c. split; [assumption | apply follows_refl].
  - destruct (rest c) as [|x xs] eqn:Hr; [discriminate|].
    destruct (Ascii.eqb x a); [|discriminate].
    intros H. exists (advance x xs c). split; [assumption|].
    apply follows_advance, Hr.
  - destruct (rest c) as [|x xs] eqn:Hr; [discriminate|].
    intros H. exists (advance x xs c). split; [assumption|].
    apply follows_advance, Hr.
  - intros H. apply IH1 in H. destruct H as (c1 & H & Hr1).
    apply IH2 in H. destruct H as (c2 & H & Hr2).
    exists c2. split; [assumption|]. eapply follows_trans.
    + eapply follows_mono; [|exact Hr1]. apply incl_appl, incl_refl.
    + eapply follows_mono; [|exact Hr2]. apply incl_appr, incl_refl.
  - apply star_loop_follows. exact IH1.
  - destruct (rmatch r1 c Some); [discriminate|].
    intros H. exists c. split; [assumption | apply follows_refl].
  - destruct (before c) as [x|].
    + destruct (Ascii.eqb x a); [discriminate|].
      intros H. exists c. split; [assumption | apply follows_refl].
    + intros H. exists c. split; [assumption | apply follows_refl].
  - intros H. apply IH1 in H. destruct H as (c1 & H & Hr1).
    exists (set_cap n (pos c) (pos c1) c1). split; [assumption|].
    destruct Hr1 as (u & ex & Hr & Hp & Hb & Hc & Hf).
    exists u, ((n, (pos c, pos c1)) :: ex). simpl. repeat split; auto.
    + rewrite Hc. reflexivity.
    + constructor; [left; reflexivity|].
      eapply Forall_impl; [| exact Hf]. intros a Ha. right. exact Ha.
Qed.

Lemma rmatch_tracks r c k e :
  rmatch r c k = Some e -> exists c', k c' = Some e /\ tracks c c'.
Proof.
  intros H. apply rmatch_follows in H.
  destruct H as (c' & H & (u & ex & Hr & Hp & Hb & _)).
  exists c'. split; [exact H|]. exists u. auto.
Qed.

(** A match at position [p] of a text [s] ends between [p] and the end of
    the text. *)
Lemma match_at_bounds r b s p m :
  match_at r b s p = Some m ->
  m_start m = p /\ p <= m_end m /\ m_end m <= p + List.length s.
Proof.
  unfold match_at. destruct (rmatch _ _ Some) as [e|] eqn:H; [|discriminate].
  intros [= <-]. simpl. apply rmatch_tracks in H.
  destruct H as (c' & [= <-] & (u & Hr & Hp & _)). simpl in *.
  assert (List.length s = List.length u + List.length (rest c'))
    by (rewrite Hr, length_app; reflexivity).
  repeat split; lia.
Qed.

(** Every match of the scan is a match of the pattern at some position of
    the text, not below [busy]. *)
Lemma finditer_from_split r : forall s b p busy m,
  In m (finditer_from r b s p busy) ->
  exists pre s',
    s = pre ++ s' /\
    match_at r (last_before b pre) s' (p + List.length pre) = Some m /\
    busy <= p + List.length pre.
Proof.
  induction s as [|x xs IH]; intros b p busy m; simpl.
  - destruct (p <? busy) eqn:Hlt; [intros []|].
    apply Nat.ltb_ge in Hlt.
    destruct (match_at r b [] p) eqn:E; [|intros []].
    intros [<- | []]. exists [], []. simpl. rewrite Nat.add_0_r. auto.
  - destruct (p <? busy) eqn:Hlt.
    + apply Nat.ltb_lt in Hlt. intros H. apply IH in H.
      destruct H as (pre & s' & -> & Hm & Hb).
      exists (x :: pre), s'. simpl. repeat split; auto.
      * rewrite <- Hm. f_equal. lia.
      * lia.
    + apply Nat.ltb_ge in Hlt.
      destruct (match_at r b (x :: xs) p) eqn:E.
      * intros [<- | H].
        -- exists [], (x :: xs). simpl. rewrite Nat.add_0_r. auto.
        -- apply IH in H. destruct H as (pre & s' & -> & Hm & Hb).
           exists (x :: pre), s'. simpl. repeat split; auto.
           ++ rewrite <- Hm. f_equal. lia.
           ++ lia.
      * intros H. apply IH in H. destruct H as (pre & s' & -> & Hm & Hb).
        exists (x :: pre), s'. simpl. repeat split; auto.
        -- rewrite <- Hm. f_equal. lia.
        -- lia.
Qed.

(** The matches of the scan come in the order of the text and none starts
    before the one before it has ended. *)
Lemma finditer_from_ordered r : forall s b p busy,
  StronglySorted (fun m1 m2 => m_end m1 <= m_start m2)
    (finditer_from r b s p busy) /\
  Forall (fun m => busy <= m_start m /\ p <= m_start m)
    (finditer_from r b s p busy).
Proof.
  induction s as [|x xs IH]; intros b p busy; simpl.
  - destruct (p <? busy) eqn:Hlt; [split; constructor|].
    apply Nat.ltb_ge in Hlt.
    destruct (match_at r b [] p) eqn:E; [|split; constructor].
    apply match_at_bounds in E. destruct E as (E & _).
    split; repeat constructor; lia.
  - destruct (p <? busy) eqn:Hlt.
    + apply Nat.ltb_lt in Hlt.
      destruct (IH (Some x) (S p) busy) as [Hs Hf]. split; [exact Hs|].
      eapply Forall_impl; [|exact Hf]. simpl. intros; lia.
    + apply Nat.ltb_ge in Hlt.
      destruct (match_at r b (x :: xs) p) eqn:E.
      * apply match_at_bounds in E. destruct E as (E1 & E2 & _).
        destruct (IH (Some x) (S p) (m_end p0)) as [Hs Hf]. split.
        -- constructor; [exact Hs|].
           eapply Forall_impl; [|exact Hf]. simpl. intros; lia.
        -- constructor; [lia|].
           eapply Forall_impl; [|exact Hf]. simpl. intros; lia.
      * destruct (IH (Some x) (S p) busy) as [Hs Hf]. split; [exact Hs|].
        eapply Forall_impl; [|exact Hf]. simpl. intros; lia.
Qed.

End Tracking.

(* ------------------------------------------------------------------ *)
(** * What a match of the two patterns looks like *)

Section Shapes.
Import Regex Props More Locator Rewriter.

Lemma star_loop_shape body k :
  (forall c k' e, body c k' = Some e ->
     exists x xs, rest c = x :: xs /\ Ascii.eqb x dollar = false /\
                  k' (advance x xs c) = Some e) ->
  forall fuel c e,
    star_loop body k fuel c = Some e ->
    exists u w,
      rest c = u ++ w /\ dollar_free u = true /\
      k {| before := last_before (before c) u; rest := w;
           pos := pos c + List.length u; caps := caps c |} = Some e.
Proof.
  intros Hbody. induction fuel as [|fuel IH]; intros c e; simpl.
  - destruct (k c) eqn:Hk; [|discriminate]. intros [= <-].
    exists [], (rest c). simpl. rewrite Nat.add_0_r.
    destruct c; simpl in *. auto.
  - destruct (k c) eqn:Hk.
    + intros [= <-]. exists [], (rest c). simpl. rewrite Nat.add_0_r.
      destruct c; simpl in *. auto.
    + intros H. apply Hbody in H. destruct H as (x & xs & Hr & Hx & H).
      destruct (pos c <? pos (advance x xs c)); [|discriminate].
      apply IH in H. destruct H as (u & w & Hr' & Hd & H).
      exists (x :: u), w. simpl in *. repeat split.
      * rewrite Hr, Hr'. reflexivity.
      * rewrite Hx, Hd. reflexivity.
      * rewrite <- H. f_equal. f_equal. lia.
Qed.

Lemma star_loop_shape_ok ok body k :
  (forall c k' e, body c k' = Some e ->
     exists x xs, rest c = x :: xs /\ ok x xs = true /\
                  k' (advance x xs c) = Some e) ->
  forall fuel c e,
    star_loop body k fuel c = Some e ->
    exists u w,
      rest c = u ++ w /\ all_ok ok u w = true /\
      k {| before := last_before (before c) u; rest := w;
           pos := pos c + List.length u; caps := caps c |} = Some e.
Proof.
  intros Hbody. induction fuel as [|fuel IH]; intros c e; simpl.
  - destruct (k c) eqn:Hk; [|discriminate]. intros [= <-].
    exists [], (rest c). simpl. rewrite Nat.add_0_r.
    destruct c; simpl in *. auto.
  - destruct (k c) eqn:Hk.
    + intros [= <-]. exists [], (rest c). simpl. rewrite Nat.add_0_r.
      destruct c; simpl in *. auto.
    + intros H. apply Hbody in H. destruct H as (x & xs & Hr & Hx & H).
      destruct (pos c <? pos (advance x xs c)); [|discriminate].
      apply IH in H. destruct H as (u & w & Hr' & Hd & H).
      exists (x :: u), w. simpl in *. repeat split.
      * rewrite Hr, Hr'. reflexivity.
      * rewrite <- Hr', Hx, Hd. reflexivity.
      * rewrite <- H. f_equal. f_equal. lia.
Qed.

Lemma rmatch_NotAhead r c k :
  rmatch (NotAhead r) c k
  = match rmatch r c Some with
    | Some _ => None
    | None => k c
    end.
Proof. reflexivity. Qed.

Lemma rmatch_Chr a c k :
  rmatch (Chr a) c k
  = match rest c with
    | x :: xs => if Ascii.eqb x a then k (advance x xs c) else None
    | [] => None
    end.
Proof. reflexivity. Qed.

Lemma rmatch_AnyChar c k :
  rmatch AnyChar c k
  = match rest c with
    | x :: xs => k (advance x xs c)
    | [] => None
    end.
Proof. reflexivity. Qed.

Lemma display_body_inv c k' e :
  rmatch (Cat (NotAhead (Cat (Chr dollar) (Chr dollar))) AnyChar) c k'
  = Some e ->
  exists x xs, rest c = x :: xs /\ no_pair_here x xs = true /\
               k' (advance x xs c) = Some e.
Proof.
  rewrite rmatch_Cat, rmatch_NotAhead, rmatch_Cat, rmatch_Chr, rmatch_AnyChar.
  unfold no_pair_here.
  destruct (rest c) as [|x xs]; [discriminate|].
  destruct (Ascii.eqb x dollar) eqn:Ex.
  - rewrite rmatch_Chr. cbn [advance rest].
    destruct xs as [|y ys].
    + intros H. exists x, (@nil ascii).
      rewrite andb_false_r. repeat split; auto.
    + destruct (Ascii.eqb y dollar) eqn:Ey; [discriminate|].
      intros H. exists x, (y :: ys).
      rewrite Ex, Ey. repeat split; auto.
  - intros H. exists x, xs. rewrite Ex. repeat split; auto.
Qed.

Lemma starts_with_pair (s : text) :
  starts_with [dollar; dollar] s
  = match s with
    | x :: y :: _ => Ascii.eqb x dollar && Ascii.eqb y dollar
    | _ => false
    end.
Proof.
  destruct s as [|x [|y s]]; cbn [starts_with];
    rewrite ?(Ascii.eqb_sym dollar), ?andb_true_r, ?andb_false_r;
    reflexivity.
Qed.

(** A content read by the display pattern up to the closing pair holds no
    pair of dollars and does not end with a dollar. *)
Lemma no_pair_content : forall body w,
  all_ok no_pair_here body (dollar :: dollar :: w) = true ->
  contains [dollar; dollar] (body ++ [dollar]) = false.
Proof.
  induction body as [|x body IH]; intros w H.
  - cbn [app contains]. rewrite !starts_with_pair. reflexivity.
  - cbn [all_ok] in H. apply andb_true_iff in H. destruct H as [Hx H].
    change ((x :: body) ++ [dollar]) with (x :: body ++ [dollar]).
    cbn [contains]. rewrite (IH w H), orb_false_r, starts_with_pair.
    unfold no_pair_here in Hx. apply negb_true_iff in Hx.
    destruct body as [|y body]; cbn [app] in *.
    + rewrite Ascii.eqb_refl. exact Hx.
    + exact Hx.
Qed.

Lemma inline_body_inv c k' e :
  rmatch (Cat (NotAhead (Chr dollar)) AnyChar) c k' = Some e ->
  exists x xs, rest c = x :: xs /\ Ascii.eqb x dollar = false /\
               k' (advance x xs c) = Some e.
Proof.
  simpl. destruct (rest c) as [|x xs]; [discriminate|].
  destruct (Ascii.eqb x dollar) eqn:E; [discriminate|].
  intros H. exists x, xs. auto.
Qed.

Lemma not_behind_inv c k e :
  rmatch (NotBehind backslash) c k = Some e ->
  unescaped (before c) = true /\ k c = Some e.
Proof.
  rewrite rmatch_NotBehind. unfold unescaped.
  destruct (before c) as [y|]; [|auto].
  destruct (Ascii.eqb y backslash); [discriminate | auto].
Qed.

Lemma chr_dollar_inv c k e :
  rmatch (Chr dollar) c k = Some e ->
  exists xs, rest c = dollar :: xs /\ k (advance dollar xs c) = Some e.
Proof.
  simpl. destruct (rest c) as [|x xs]; [discriminate|].
  destruct (Ascii.eqb x dollar) eqn:E; [|discriminate].
  apply Ascii.eqb_eq in E. subst x. eauto.
Qed.

(** A match of the inline pattern is a dollar that is not escaped, a content
    without any dollar, and a second dollar that is not escaped. *)
Lemma inline_match_shape b s p m :
  match_at inline_pattern b s p = Some m ->
  exists body w,
    s = dollar :: body ++ dollar :: w /\
    unescaped b = true /\ dollar_free body = true /\
    unescaped (last_before (Some dollar) body) = true /\
    m_start m = p /\ m_end m = p + (List.length body + 2).
Proof.
  unfold match_at, inline_pattern. cbn [seq].
  destruct (rmatch _ _ Some) as [e|] eqn:H; [|discriminate].
  intros [= <-]. cbn [m_start m_end].
  rewrite rmatch_Cat in H. apply not_behind_inv in H.
  destruct H as [Hb H]. cbn [before] in Hb.
  rewrite rmatch_Cat in H. apply chr_dollar_inv in H.
  destruct H as (xs & Hs & H). cbn [rest] in Hs. subst s.
  rewrite rmatch_Cat, rmatch_Group, rmatch_LazyStar in H.
  apply (star_loop_shape _ _ inline_body_inv) in H.
  destruct H as (body & w & Hr & Hd & H). cbn [advance rest before pos caps] in *.
  rewrite rmatch_Cat in H. apply not_behind_inv in H.
  destruct H as [Hc H]. cbn [set_cap before] in Hc.
  apply chr_dollar_inv in H. destruct H as (w' & Hw & [= <-]).
  cbn [set_cap rest] in Hw. subst xs w.
  exists body, w'. cbn [advance pos set_cap]. repeat split; auto. lia.
Qed.

(** A match of the display pattern is a pair of dollars that is not escaped,
    a content without a pair of dollars, and a second pair of dollars that
    is not escaped. *)
Lemma display_match_shape b s p m :
  match_at display_pattern b s p = Some m ->
  exists body w,
    s = dollar :: dollar :: body ++ dollar :: dollar :: w /\
    unescaped b = true /\
    contains [dollar; dollar] (body ++ [dollar]) = false /\
    unescaped (last_before (Some dollar) body) = true /\
    m_start m = p /\ m_end m = p + (List.length body + 4).
Proof.
  unfold match_at, display_pattern. cbn [seq].
  destruct (rmatch _ _ Some) as [e|] eqn:H; [|discriminate].
  intros [= <-]. cbn [m_start m_end].
  rewrite rmatch_Cat in H. apply not_behind_inv in H.
  destruct H as [Hb H]. cbn [before] in Hb.
  rewrite rmatch_Cat in H. apply chr_dollar_inv in H.
  destruct H as (xs & Hs & H). cbn [rest] in Hs. subst s.
  rewrite rmatch_Cat in H. apply chr_dollar_inv in H.
  destruct H as (ys & Hs & H). cbn [advance rest] in Hs. subst xs.
  rewrite rmatch_Cat, rmatch_Group, rmatch_LazyStar in H.
  apply (star_loop_shape_ok _ _ _ display_body_inv) in H.
  destruct H as (body & w & Hr & Hok & H).
  cbn [advance rest before pos caps] in *.
  rewrite rmatch_Cat in H. apply not_behind_inv in H.
  destruct H as [Hc H]. cbn [set_cap before] in Hc.
  rewrite rmatch_Cat in H. apply chr_dollar_inv in H.
  destruct H as (w1 & Hw1 & H). apply chr_dollar_inv in H.
  destruct H as (w2 & Hw2 & [= <-]).
  cbn [set_cap advance rest pos] in *. subst w1 w ys.
  exists body, w2. repeat split; auto.
  - eapply no_pair_content. exact Hok.
  - lia.
Qed.

End Shapes.

(* ------------------------------------------------------------------ *)
(** * What the Locator returns, for every text *)

Section LocatorResult.
Import Regex Props More Locator Rewriter.

Variable content : text.

Lemma inside_earlier_entry m i :
  m_start m < m_end m -> span_end i <= m_start m -> inside m i = false.
Proof.
  intros Hne Hi. unfold inside. apply andb_false_iff. right.
  apply Nat.leb_gt. lia.
Qed.

(** The loop over the inline matches, which tests each match against every
    entry collected so far, keeps exactly the matches that lie inside no
    display entry: an inline entry added earlier never holds a later match. *)
Lemma fold_add_inline_filter D : forall ms I,
  StronglySorted (fun m1 m2 => m_end m1 <= m_start m2) ms ->
  Forall (fun m => m_start m < m_end m) ms ->
  Forall (fun i => Forall (fun m => span_end i <= m_start m) ms) I ->
  fold_left (add_inline content) ms (D ++ I)
  = D ++ I ++ map (fun m => entry_of content m false)
                  (filter (fun m => negb (existsb (inside m) D)) ms).
Proof.
  induction ms as [|m ms IH]; intros I Hs Hne HI; simpl.
  - rewrite app_nil_r. reflexivity.
  - inversion Hs as [|? ? Hs' Hm]; subst.
    inversion Hne as [|? ? Hm_ne Hne']; subst.
    assert (HmI : existsb (inside m) I = false).
    { apply not_true_is_false. intros H. apply existsb_exists in H.
      destruct H as (i & Hi & Hin). rewrite Forall_forall in HI.
      specialize (HI i Hi). inversion HI as [|? ? Him _]; subst.
      rewrite inside_earlier_entry in Hin by assumption. discriminate. }
    assert (HI' : Forall (fun i => Forall (fun m0 => span_end i <= m_start m0) ms) I).
    { eapply Forall_impl; [|exact HI]. simpl. intros i Hi.
      inversion Hi; assumption. }
    unfold add_inline at 2. rewrite existsb_app, HmI, orb_false_r.
    destruct (existsb (inside m) D) eqn:HD; simpl.
    + apply IH; assumption.
    + rewrite <- app_assoc. rewrite (IH (I ++ [_])); try assumption.
      * rewrite <- app_assoc. reflexivity.
      * apply Forall_app. split; [exact HI'|].
        constructor; [|constructor]. exact Hm.
Qed.

Lemma inline_candidates_not_empty :
  Forall (fun m => m_start m < m_end m) (finditer inline_pattern content).
Proof.
  apply Forall_forall. intros m Hm.
  apply (inline_candidate_not_empty content), Hm.
Qed.

(** The fold over the inline matches is a filter. *)
Lemma locate_equations_as_filter :
  locate_equations content
  = sort_by_start
      (display_entries content
       ++ map (fun m => entry_of content m false)
              (filter (outside_displays content)
                      (finditer inline_pattern content))).
Proof.
  unfold locate_equations. f_equal.
  rewrite <- (app_nil_r (display_entries content)) at 1.
  rewrite fold_add_inline_filter.
  - reflexivity.
  - apply finditer_from_ordered.
  - apply inline_candidates_not_empty.
  - constructor.
Qed.

(** X1.  For every text, the Locator returns, sorted by start, the entries of
    all the display matches and the entries of exactly those inline matches
    that lie inside no display match. *)
Theorem locate_equations_filter :
  locate_equations content
  = sort_by_start
      (display_entries content
       ++ map (fun m => entry_of content m false)
              (filter (outside_displays content)
                      (finditer inline_pattern content))).
Proof. exact locate_equations_as_filter. Qed.

(** Where an entry of the result comes from. *)
Lemma locate_entry_origin e :
  In e (locate_equations content) <->
  (exists m, In m (finditer display_pattern content) /\
             e = entry_of content m true) \/
  (exists m, In m (finditer inline_pattern content) /\
             outside_displays content m = true /\
             e = entry_of content m false).
Proof.
  rewrite locate_equations_as_filter, sort_by_start_In, in_app_iff.
  unfold display_entries. rewrite !in_map_iff. split.
  - intros [(m & <- & Hm) | (m & <- & Hm)].
    + left. exists m. auto.
    + right. apply filter_In in Hm. exists m. tauto.
  - intros [(m & Hm & ->) | (m & Hm & Ho & ->)].
    + left. exists m. auto.
    + right. exists m. split; [reflexivity|]. apply filter_In. auto.
Qed.

Lemma slice_length (t : text) i j :
  i <= j -> j <= List.length t -> List.length (slice t i j) = j - i.
Proof.
  intros Hij Hj. unfold slice. rewrite length_firstn, length_skipn. lia.
Qed.

(** X2.  Every entry of the result has offsets within the text, is not
    empty, and its raw text is the piece of the text between its offsets,
    as long as the difference of the offsets. *)
Theorem locate_entry_in_bounds :
  forall e, In e (locate_equations content) ->
    span_start e < span_end e /\
    span_end e <= List.length content /\
    span_raw e = slice content (span_start e) (span_end e) /\
    List.length (span_raw e) = span_end e - span_start e.
Proof.
  intros e He. apply locate_entry_origin in He.
  assert (H : exists m k, e = entry_of content m k /\
                          m_start m < m_end m /\
                          m_end m <= List.length content).
  { destruct He as [(m & Hm & ->) | (m & Hm & _ & ->)];
      exists m; eexists; (split; [reflexivity|]);
      apply finditer_from_split in Hm;
      destruct Hm as (pre & s' & Hc & Hm & _);
      apply dollar_match_not_empty in Hm;
      destruct Hm as (Hst & Hlt & Hle);
      rewrite Hc, length_app; simpl in *; lia. }
  destruct H as (m & k & -> & Hlt & Hle).
  unfold entry_of, span_start, span_end, span_raw. simpl.
  repeat split; auto. apply slice_length; lia.
Qed.

Lemma strongly_sorted_pair {A} (R : A -> A -> Prop) l a b :
  StronglySorted R l -> In a l -> In b l -> a = b \/ R a b \/ R b a.
Proof.
  induction 1 as [|x l Hs IH Hx]; intros Ha Hb; [destruct Ha|].
  rewrite Forall_forall in Hx.
  destruct Ha as [<- | Ha], Hb as [<- | Hb]; auto.
Qed.

(** X3.  Two different entries of the same kind never share a character:
    the display entries are pairwise disjoint, and so are the inline
    entries; one of the two ends where or before the other starts. *)
Theorem locate_same_kind_disjoint :
  forall e1 e2,
    In e1 (locate_equations content) ->
    In e2 (locate_equations content) ->
    span_display e1 = span_display e2 ->
    e1 <> e2 ->
    span_end e1 <= span_start e2 \/ span_end e2 <= span_start e1.
Proof.
  intros e1 e2 H1 H2 Hk Hne.
  apply locate_entry_origin in H1, H2.
  assert (Hpair : forall r m1 m2 k,
             In m1 (finditer r content) -> In m2 (finditer r content) ->
             e1 = entry_of content m1 k -> e2 = entry_of content m2 k ->
             span_end e1 <= span_start e2 \/ span_end e2 <= span_start e1).
  { intros r m1 m2 k Hm1 Hm2 E1 E2.
    destruct (strongly_sorted_pair _ _ m1 m2
                (proj1 (finditer_from_ordered r content None 0 0)) Hm1 Hm2)
      as [E | [H | H]].
    - exfalso. apply Hne. rewrite E1, E2, E. reflexivity.
    - left. rewrite E1, E2. unfold entry_of, span_start, span_end.
      simpl. lia.
    - right. rewrite E1, E2. unfold entry_of, span_start, span_end.
      simpl. lia. }
  destruct H1 as [(m1 & Hm1 & E1) | (m1 & Hm1 & _ & E1)],
           H2 as [(m2 & Hm2 & E2) | (m2 & Hm2 & _ & E2)].
  - apply (Hpair display_pattern m1 m2 true); assumption.
  - subst. discriminate.
  - subst. discriminate.
  - apply (Hpair inline_pattern m1 m2 false); assumption.
Qed.

(** X4.  Every inline entry of the result is a dollar, a content that holds
    no dollar at all, escaped or not, and a dollar; neither delimiter has a
    backslash before it, and the entry lies in the text at its offsets. *)
Theorem locate_inline_entry_shape :
  forall e, In e (locate_equations content) ->
    span_display e = false ->
    exists pre body post,
      content = pre ++ inline_math body ++ post /\
      span_start e = List.length pre /\
      span_end e = List.length pre + List.length body + 2 /\
      span_raw e = inline_math body /\
      dollar_free body = true /\
      unescaped (last_before None pre) = true /\
      unescaped (last_before (Some dollar) body) = true.
Proof.
  intros e He Hk. apply locate_entry_origin in He.
  destruct He as [(m & _ & ->) | (m & Hm & _ & ->)]; [discriminate|].
  apply finditer_from_split in Hm. destruct Hm as (pre & s' & Hc & Hm & _).
  apply inline_match_shape in Hm.
  destruct Hm as (body & w & -> & Hb & Hd & Hcl & Hst & Hen).
  exists pre, body, w. simpl in Hst, Hen.
  assert (Hcontent : content = pre ++ inline_math body ++ w).
  { rewrite Hc. unfold inline_math. simpl. rewrite <- app_assoc. reflexivity. }
  unfold entry_of, span_start, span_end, span_raw. simpl.
  repeat split; auto; try lia.
  rewrite Hcontent at 1. apply slice_segment; [lia|].
  rewrite length_inline_math. lia.
Qed.

(** X5.  Every display entry of the result is a pair of dollars, a content
    that holds no pair of dollars and does not end with a dollar, and a pair
    of dollars; neither pair has a backslash before it, and the entry lies
    in the text at its offsets. *)
Theorem locate_display_entry_shape :
  forall e, In e (locate_equations content) ->
    span_display e = true ->
    exists pre body post,
      content = pre ++ display_math body ++ post /\
      span_start e = List.length pre /\
      span_end e = List.length pre + List.length body + 4 /\
      span_raw e = display_math body /\
      contains [dollar; dollar] (body ++ [dollar]) = false /\
      unescaped (last_before None pre) = true /\
      unescaped (last_before (Some dollar) body) = true.
Proof.
  intros e He Hk. apply locate_entry_origin in He.
  destruct He as [(m & Hm & ->) | (m & _ & _ & ->)]; [|discriminate].
  apply finditer_from_split in Hm. destruct Hm as (pre & s' & Hc & Hm & _).
  apply display_match_shape in Hm.
  destruct Hm as (body & w & -> & Hb & Hnp & Hcl & Hst & Hen).
  exists pre, body, w. simpl in Hst, Hen.
  assert (Hcontent : content = pre ++ display_math body ++ w).
  { rewrite Hc. unfold display_math. simpl. rewrite <- app_assoc. reflexivity. }
  unfold entry_of, span_start, span_end, span_raw. simpl.
  repeat split; auto; try lia.
  rewrite Hcontent at 1. apply slice_segment; [lia|].
  rewrite length_display_math. lia.
Qed.

(** X6.  A text in which every dollar has a backslash before it, and so the
    empty text, has no equation: the Locator returns the empty list. *)
Theorem locate_plain_text_empty :
  plain None content = true -> locate_equations content = [].
Proof.
  intros Hp. unfold locate_equations, display_entries, finditer.
  rewrite <- (app_nil_r content).
  rewrite !(finditer_plain _ display_opens_with_dollar) by exact Hp.
  rewrite (finditer_plain _ inline_opens_with_dollar) by exact Hp.
  rewrite !finditer_end
    by (apply display_opens_with_dollar || apply inline_opens_with_dollar).
  reflexivity.
Qed.

End LocatorResult.

(* ------------------------------------------------------------------ *)
(** * Further properties of [add_graphicx_package] *)

Section GraphicxPlace.
Import Regex Props More Locator Rewriter.

Lemma search_from_split r : forall s b p m,
  search_from r b s p = Some m ->
  exists pre s',
    s = pre ++ s' /\
    match_at r (last_before b pre) s' (p + List.length pre) = Some m.
Proof.
  induction s as [|x xs IH]; intros b p m; simpl.
  - destruct (match_at r b [] p) eqn:Hm; [|discriminate].
    intros [= <-]. exists [], []. simpl. rewrite Nat.add_0_r. auto.
  - destruct (match_at r b (x :: xs) p) eqn:Hm.
    + intros [= <-]. exists [], (x :: xs). simpl. rewrite Nat.add_0_r. auto.
    + intros H. apply IH in H. destruct H as (pre & s' & -> & H).
      exists (x :: pre), s'. simpl. split; [reflexivity|].
      rewrite <- H. f_equal. lia.
Qed.

Lemma rmatch_Chr_inv a c k e :
  rmatch (Chr a) c k = Some e ->
  exists xs, rest c = a :: xs /\ k (advance a xs c) = Some e.
Proof.
  simpl. destruct (rest c) as [|x xs]; [discriminate|].
  destruct (Ascii.eqb x a) eqn:E; [|discriminate].
  apply Ascii.eqb_eq in E. subst x. eauto.
Qed.

(** A literal matches the text that begins with it. *)
Lemma rmatch_lit : forall s c k e,
  rmatch (lit s) c k = Some e ->
  exists w,
    rest c = s ++ w /\
    k {| before := last_before (before c) s; rest := w;
         pos := pos c + List.length s; caps := caps c |} = Some e.
Proof.
  induction s as [|a s IH]; intros c k e; cbn [lit].
  - simpl. intros H. exists (rest c). simpl. rewrite Nat.add_0_r.
    destruct c; auto.
  - rewrite rmatch_Cat. intros H. apply rmatch_Chr_inv in H.
    destruct H as (xs & Hr & H).
    apply IH in H. destruct H as (w & Hw & H).
    exists w. simpl in *. split; [rewrite Hr, Hw; reflexivity|].
    rewrite <- H. f_equal. f_equal. lia.
Qed.

(** A match of the preamble pattern is [\documentclass{], a class name, a
    closing brace, any text, and [\begin{document}]; group 1 ends and
    group 2 begins before [\begin{document}]. *)
Lemma preamble_match_shape b s p m :
  match_at preamble_pattern b s p = Some m ->
  exists cls gap w mid,
    s = documentclass_open ++ cls ++ "}"%char :: gap ++ begin_document ++ w /\
    m_start m = p /\
    mid = p + List.length (documentclass_open ++ cls ++ "}"%char :: gap) /\
    m_end m = mid + List.length begin_document /\
    m_caps m = [(2, (mid, m_end m)); (1, (p, mid))].
Proof.
  unfold match_at, preamble_pattern.
  destruct (rmatch _ _ Some) as [e|] eqn:H; [|discriminate].
  intros [= <-]. cbn [m_start m_end m_caps].
  rewrite rmatch_Cat, rmatch_Group in H. cbn [seq] in H.
  rewrite rmatch_Cat in H. apply rmatch_lit in H.
  destruct H as (w0 & Hs & H). cbn [rest before pos caps] in *.
  rewrite rmatch_Cat in H. apply rmatch_follows in H.
  destruct H as (c1 & H & (cls & ex1 & Hr1 & Hp1 & _ & Hc1 & Hf1)).
  cbn [rest before pos caps groups_of] in *.
  rewrite rmatch_Cat in H. apply rmatch_Chr_inv in H.
  destruct H as (xs & Hrc1 & H).
  apply rmatch_follows in H.
  destruct H as (c2 & H & (gap & ex2 & Hr2 & Hp2 & _ & Hc2 & Hf2)).
  cbn [advance rest before pos caps groups_of] in *.
  rewrite rmatch_Group in H. apply rmatch_lit in H.
  destruct H as (w & Hw & [= <-]).
  cbn [set_cap rest before pos caps] in *.
  assert (ex1 = []) as -> by (destruct ex1 as [|? ?]; [reflexivity|];
                              inversion Hf1 as [|? ? [] _]).
  assert (ex2 = []) as -> by (destruct ex2 as [|? ?]; [reflexivity|];
                              inversion Hf2 as [|? ? [] _]).
  simpl in Hc1, Hc2.
  exists cls, gap, w, (pos c2). repeat split.
  - rewrite Hs, Hr1, Hrc1, Hr2, Hw. reflexivity.
  - rewrite Hp2, Hp1. repeat rewrite length_app. simpl. lia.
  - rewrite Hc2, Hc1. reflexivity.
Qed.

(** The place of the insertion, read off the match of the preamble
    pattern. *)
Lemma add_graphicx_at_place :
  forall content m,
    contains usepackage_graphicx content = false ->
    search preamble_pattern content = Some m ->
    exists dropped cls gap rest,
      content = dropped ++ documentclass_open ++ cls ++ "}"%char :: gap
                  ++ begin_document ++ rest /\
      List.length dropped = m_start m /\
      add_graphicx_package content
      = documentclass_open ++ cls ++ "}"%char :: gap
          ++ (newline :: usepackage_graphicx) ++ begin_document ++ rest.
Proof.
  intros content m Hc Hs. unfold add_graphicx_package. rewrite Hc, Hs.
  simpl negb. cbv iota.
  unfold search in Hs. apply search_from_split in Hs.
  destruct Hs as (dropped & s' & Hcontent & Hm). simpl in Hm.
  apply preamble_match_shape in Hm.
  destruct Hm as (cls & gap & w & mid & -> & Hst & Hmid & Hend & Hcaps).
  unfold group, group_end. rewrite Hcaps. simpl cap_lookup. cbv iota beta.
  exists dropped, cls, gap, w. split; [exact Hcontent|]. split; [lia|].
  set (head := documentclass_open ++ cls ++ "}"%char :: gap) in *.
  assert (Hc1 : content = dropped ++ head ++ begin_document ++ w).
  { rewrite Hcontent. unfold head. repeat rewrite <- app_assoc.
    reflexivity. }
  assert (Hc2 : content = (dropped ++ head) ++ begin_document ++ w)
    by (rewrite Hc1, <- app_assoc; reflexivity).
  rewrite Hc1 at 1. rewrite (slice_segment dropped head) by lia.
  rewrite Hc2 at 1.
  rewrite (slice_segment (dropped ++ head) begin_document)
    by (rewrite ?length_app; lia).
  rewrite Hc2, skipn_app.
  replace (m_end m - List.length (dropped ++ head))
    with (List.length begin_document) by (rewrite length_app; lia).
  rewrite skipn_all2 by (rewrite length_app; lia).
  rewrite skipn_app, skipn_all, Nat.sub_diag. simpl skipn.
  unfold head. repeat rewrite <- app_assoc. reflexivity.
Qed.

(** X7.  When the declaration is absent and the preamble pattern matches,
    the text consists of a part before the match, [\documentclass{] with a
    class name, any text, [\begin{document}] and the rest; the function
    returns it without the part before the match and with a line break and
    the declaration put immediately before [\begin{document}]. *)
Theorem add_graphicx_insertion_place :
  forall content m,
    contains usepackage_graphicx content = false ->
    search preamble_pattern content = Some m ->
    exists dropped cls gap rest,
      content = dropped ++ documentclass_open ++ cls ++ "}"%char :: gap
                  ++ begin_document ++ rest /\
      List.length dropped = m_start m /\
      add_graphicx_package content
      = documentclass_open ++ cls ++ "}"%char :: gap
          ++ (newline :: usepackage_graphicx) ++ begin_document ++ rest.
Proof. exact add_graphicx_at_place. Qed.

End GraphicxPlace.

Section GraphicxOnce.
Import Regex Props More Locator Rewriter.

Lemma starts_with_app_r n : forall a c,
  starts_with n a = true -> starts_with n (a ++ c) = true.
Proof.
  induction n as [|x n IH]; intros a c; simpl; [reflexivity|].
  destruct a as [|y a]; [discriminate|]. simpl.
  rewrite !andb_true_iff. intros [H1 H2]. split; [exact H1 | apply IH, H2].
Qed.

Lemma contains_app_l n a c :
  contains n a = true -> contains n (a ++ c) = true.
Proof.
  induction a as [|y a IH]; simpl.
  - rewrite orb_false_r. intros H.
    destruct n; [|discriminate]. destruct c; reflexivity.
  - intros H. apply orb_true_iff in H. destruct H as [H | H].
    + pose proof (starts_with_app_r n (y :: a) c H) as H'.
      simpl app in H'. rewrite H'. reflexivity.
    + rewrite IH by exact H. apply orb_true_r.
Qed.

Lemma contains_false_app n a c :
  contains n (a ++ c) = false -> contains n a = false /\ contains n c = false.
Proof.
  intros H. split; apply not_true_is_false; intros H'.
  - rewrite contains_app_l in H by exact H'. discriminate.
  - rewrite contains_app_r in H by exact H'. discriminate.
Qed.

Lemma occurrences_none n : forall h,
  contains n h = false -> occurrences n h = 0.
Proof.
  induction h as [|y h IH]; simpl.
  - rewrite orb_false_r. intros ->. reflexivity.
  - intros H. apply orb_false_iff in H. destruct H as [-> H].
    rewrite IH by exact H. reflexivity.
Qed.

(** No occurrence of [n] runs over a character that is not in [n]. *)
Lemma starts_with_cut x n : forall a c,
  forallb (fun y => negb (Ascii.eqb y x)) n = true ->
  n <> [] ->
  starts_with n (a ++ x :: c) = starts_with n a.
Proof.
  induction n as [|z n IH]; intros a c Hn Hne; [contradiction|].
  simpl in Hn. apply andb_true_iff in Hn. destruct Hn as [Hz Hn].
  apply negb_true_iff in Hz.
  destruct a as [|y a]; simpl.
  - rewrite Hz. reflexivity.
  - destruct n as [|z' n'].
    + simpl. reflexivity.
    + rewrite IH by (auto; discriminate). reflexivity.
Qed.

Lemma occurrences_cut x n : forall a c,
  forallb (fun y => negb (Ascii.eqb y x)) n = true ->
  n <> [] ->
  occurrences n (a ++ x :: c) = occurrences n a + occurrences n c.
Proof.
  intros a c Hn Hne. induction a as [|y a IH].
  - simpl app. cbn [occurrences].
    change (x :: c) with ([] ++ x :: c) at 1.
    rewrite starts_with_cut by assumption.
    destruct n; [contradiction|]. simpl. reflexivity.
  - change ((y :: a) ++ x :: c) with (y :: a ++ x :: c).
    cbn [occurrences]. rewrite IH.
    change (y :: a ++ x :: c) with ((y :: a) ++ x :: c).
    rewrite starts_with_cut by assumption. lia.
Qed.

(** After its first character, a text that does not hold its first character
    again cannot begin anew. *)
Lemma occurrences_skip h t : forall u c,
  forallb (fun y => negb (Ascii.eqb h y)) u = true ->
  occurrences (h :: t) (u ++ c) = occurrences (h :: t) c.
Proof.
  induction u as [|y u IH]; intros c Hu; [reflexivity|].
  simpl in Hu. apply andb_true_iff in Hu. destruct Hu as [Hy Hu].
  apply negb_true_iff in Hy.
  change ((y :: u) ++ c) with (y :: u ++ c). cbn [occurrences starts_with].
  rewrite Hy. simpl. apply IH, Hu.
Qed.

Lemma occurrences_here h t c :
  forallb (fun y => negb (Ascii.eqb h y)) t = true ->
  occurrences (h :: t) ((h :: t) ++ c) = S (occurrences (h :: t) c).
Proof.
  intros Ht. change ((h :: t) ++ c) with (h :: t ++ c). cbn [occurrences].
  change (h :: t ++ c) with ((h :: t) ++ c).
  rewrite starts_with_app, occurrences_skip by exact Ht. reflexivity.
Qed.

Lemma occurrences_declaration_here c :
  contains usepackage_graphicx c = false ->
  occurrences usepackage_graphicx (usepackage_graphicx ++ c) = 1.
Proof.
  intros Hc.
  pose proof (occurrences_here "\"%char (txt "usepackage{graphicx}") c
                eq_refl) as H.
  change ("\"%char :: txt "usepackage{graphicx}")
    with usepackage_graphicx in H.
  rewrite H, occurrences_none by exact Hc. reflexivity.
Qed.

(** X8.  When the declaration is absent from a text, the result of
    [add_graphicx_package] holds it at exactly one position. *)
Theorem add_graphicx_exactly_once :
  forall content,
    contains usepackage_graphicx content = false ->
    occurrences usepackage_graphicx (add_graphicx_package content) = 1.
Proof.
  intros content Hc.
  destruct (search preamble_pattern content) as [m|] eqn:Hs.
  - destruct (add_graphicx_at_place content m Hc Hs)
      as (dropped & cls & gap & rest & Hcontent & _ & ->).
    rewrite Hcontent in Hc.
    apply contains_false_app in Hc. destruct Hc as [_ Hc].
    set (head := documentclass_open ++ cls ++ "}"%char :: gap).
    replace (documentclass_open ++ cls ++ "}"%char :: gap
               ++ (newline :: usepackage_graphicx) ++ begin_document ++ rest)
      with (head ++ newline :: usepackage_graphicx ++ begin_document ++ rest)
      by (unfold head; repeat rewrite <- app_assoc; reflexivity).
    replace (documentclass_open ++ cls ++ "}"%char :: gap
               ++ begin_document ++ rest)
      with (head ++ begin_document ++ rest) in Hc
      by (unfold head; repeat rewrite <- app_assoc; reflexivity).
    apply contains_false_app in Hc. destruct Hc as [Hhead Hrest].
    rewrite occurrences_cut by (reflexivity || discriminate).
    rewrite occurrences_none by exact Hhead.
    rewrite occurrences_declaration_here by exact Hrest. reflexivity.
  - unfold add_graphicx_package. rewrite Hc, Hs. simpl negb. cbv iota.
    rewrite occurrences_declaration_here; [reflexivity|].
    simpl app. cbn [contains]. rewrite Hc.
    reflexivity.
Qed.

End GraphicxOnce.

(* ------------------------------------------------------------------ *)
(** * Further properties of the splice loop *)

Section SpliceMore.
Import Props More Rewriter.

Variable original : text.

Lemma insert_desc_perm x l : Permutation (insert_desc x l) (x :: l).
Proof.
  induction l as [|y l IH]; simpl; [apply Permutation_refl|].
  destruct (r_start y <=? r_start x); [apply Permutation_refl|].
  eapply perm_trans; [apply perm_skip, IH | apply perm_swap].
Qed.

Lemma sort_desc_perm l : Permutation (sort_desc l) l.
Proof.
  induction l as [|x l IH]; simpl; [constructor|].
  eapply perm_trans; [apply insert_desc_perm | apply perm_skip, IH].
Qed.

Lemma insert_desc_sorted x l :
  StronglySorted (fun a b => r_start b < r_start a) l ->
  Forall (fun y => r_start x <> r_start y) l ->
  StronglySorted (fun a b => r_start b < r_start a) (insert_desc x l).
Proof.
  intros Hs. induction Hs as [|y l Hs IH Hy]; intros Hne; simpl.
  - repeat constructor.
  - inversion Hne as [|? ? Hxy Hne']; subst.
    destruct (r_start y <=? r_start x) eqn:E.
    + apply Nat.leb_le in E. constructor; [constructor; assumption|].
      constructor; [lia|].
      eapply Forall_impl; [|exact Hy]. simpl. intros; lia.
    + apply Nat.leb_gt in E. constructor; [apply IH, Hne'|].
      eapply Permutation_Forall; [symmetry; apply insert_desc_perm|].
      constructor; [lia | exact Hy].
Qed.

Lemma sort_desc_sorted l :
  NoDup (map r_start l) ->
  StronglySorted (fun a b => r_start b < r_start a) (sort_desc l).
Proof.
  induction l as [|x l IH]; intros Hn; simpl; [constructor|].
  inversion Hn as [|? ? Hx Hn']; subst.
  apply insert_desc_sorted; [apply IH, Hn'|].
  eapply Permutation_Forall; [symmetry; apply sort_desc_perm|].
  apply Forall_forall. intros y Hy E. apply Hx. rewrite E.
  apply in_map, Hy.
Qed.

(** Two lists in strictly descending order of start that hold the same
    triples are the same list. *)
Lemma descending_unique : forall l1 l2 : list replacement,
  StronglySorted (fun a b => r_start b < r_start a) l1 ->
  StronglySorted (fun a b => r_start b < r_start a) l2 ->
  Permutation l1 l2 ->
  l1 = l2.
Proof.
  induction l1 as [|x l1 IH]; intros l2 H1 H2 Hp.
  - apply Permutation_nil in Hp. subst. reflexivity.
  - destruct l2 as [|y l2];
      [apply Permutation_sym, Permutation_nil in Hp; discriminate|].
    inversion H1 as [|? ? H1' Hx]; subst.
    inversion H2 as [|? ? H2' Hy]; subst.
    assert (x = y) as ->.
    { assert (Hxin : In x (y :: l2))
        by (eapply Permutation_in; [exact Hp | apply in_eq]).
      assert (Hyin : In y (x :: l1))
        by (eapply Permutation_in; [symmetry; exact Hp | apply in_eq]).
      destruct Hxin as [-> | Hxin]; [reflexivity|].
      destruct Hyin as [-> | Hyin]; [reflexivity|].
      rewrite Forall_forall in Hx, Hy.
      specialize (Hx y Hyin). specialize (Hy x Hxin). lia. }
    f_equal. apply IH; try assumption.
    eapply Permutation_cons_inv. exact Hp.
Qed.

(** X9.  When the starts of the triples are pairwise different, the result
    of the splice loop does not depend on the order in which the triples
    were collected. *)
Theorem splice_order_independent :
  forall rs rs' : list replacement,
    Permutation rs rs' ->
    NoDup (map r_start rs) ->
    splice original rs = splice original rs' /\
    apply_replacements original rs = apply_replacements original rs'.
Proof.
  intros rs rs' Hp Hn.
  assert (Hn' : NoDup (map r_start rs')).
  { eapply Permutation_NoDup; [apply Permutation_map; exact Hp | exact Hn]. }
  assert (Hs : sort_desc rs = sort_desc rs').
  { apply descending_unique; try (apply sort_desc_sorted; assumption).
    eapply perm_trans; [apply sort_desc_perm|].
    eapply perm_trans; [exact Hp|]. symmetry. apply sort_desc_perm. }
  unfold splice, apply_replacements. rewrite Hs. auto.
Qed.

Lemma apply_replacements_count : forall l chars n,
  snd (fold_left
         (fun '(final_chars, replacements_made) r =>
            (slice_assign final_chars (r_start r) (r_end r) (r_text r),
             S replacements_made))
         l (chars, n))
  = n + List.length l.
Proof.
  induction l as [|r l IH]; intros chars n; simpl; [lia|].
  rewrite IH. lia.
Qed.

(** X10.  The counter [replacements_made] that the splice loop returns is
    the number of triples it was given, whatever their ranges. *)
Theorem replacements_made_is_length :
  forall rs : list replacement,
    snd (apply_replacements original rs) = List.length rs.
Proof.
  intros rs. unfold apply_replacements.
  rewrite apply_replacements_count. simpl.
  apply Permutation_length, sort_desc_perm.
Qed.

Lemma slice_assign_keeps_prefix k chars s e new :
  k <= s -> k <= List.length chars ->
  firstn k (slice_assign chars s e new) = firstn k chars /\
  k <= List.length (slice_assign chars s e new).
Proof.
  intros Hks Hk. unfold slice_assign.
  assert (Hl : k <= List.length (firstn s chars))
    by (rewrite length_firstn; lia).
  split.
  - rewrite firstn_app.
    replace (k - List.length (firstn s chars)) with 0 by lia.
    simpl. rewrite app_nil_r, firstn_firstn.
    f_equal. lia.
  - rewrite length_app. lia.
Qed.

(** X11.  The splice loop leaves the text before the first range as it is:
    the first [k] characters of the result are those of the original, when
    every triple starts at [k] or later. *)
Theorem splice_keeps_text_before_ranges :
  forall (rs : list replacement) (k : nat),
    k <= List.length original ->
    Forall (fun r => k <= r_start r) rs ->
    firstn k (splice original rs) = firstn k original.
Proof.
  intros rs k Hk Hall. unfold splice, apply_replacements.
  rewrite apply_replacements_fold.
  assert (Hs : Forall (fun r => k <= r_start r) (sort_desc rs))
    by (eapply Permutation_Forall; [symmetry; apply sort_desc_perm | exact Hall]).
  clear Hall. revert Hs. generalize (sort_desc rs). intros l.
  assert (forall chars,
             k <= List.length chars ->
             Forall (fun r => k <= r_start r) l ->
             firstn k (fold_left (fun c r => assign_step r c) l chars)
             = firstn k chars) as H.
  { induction l as [|r l IH]; intros chars Hc Hl; simpl; [reflexivity|].
    inversion Hl as [|? ? Hr Hl']; subst.
    destruct (slice_assign_keeps_prefix k chars (r_start r) (r_end r)
                (r_text r) Hr Hc) as [Hp Hlen].
    unfold assign_step at 2. rewrite IH by assumption. exact Hp. }
  intros Hs. apply H; assumption.
Qed.

End SpliceMore.

(* ------------------------------------------------------------------ *)
(** * The Renderer in a batch *)

Section BatchRun.
Import Props More Locator Rewriter Runtime Renderer Session.

Variable savefig : text -> text -> Z -> option exn.
Variable output_dir : text.
Variable path_join : text -> text -> text.
Variable path_basename : text -> text.

Lemma latex_to_image_ok latex_equation output_filename dpi w :
  savefig latex_equation output_filename dpi = None ->
  latex_to_image savefig latex_equation output_filename dpi w
  = (Returns tt, rendered_ok w latex_equation output_filename dpi).
Proof.
  intros Hs.
  unfold latex_to_image, try_except, bind, plt_figure, plt_savefig,
    plt_close, print, rendered_ok.
  cbv beta iota. rewrite Hs. cbv beta iota.
  cbn [stdin console figures images written].
  rewrite remove_cons, notin_remove by apply fresh_figure_not_open.
  reflexivity.
Qed.

Lemma latex_to_image_fail latex_equation output_filename dpi w e :
  savefig latex_equation output_filename dpi = Some e ->
  latex_to_image savefig latex_equation output_filename dpi w
  = (Raises e, rendered_failed w latex_equation e).
Proof.
  intros Hs.
  unfold latex_to_image, try_except, bind, plt_figure, plt_savefig,
    plt_close, print, raise, rendered_failed.
  cbv beta iota. rewrite Hs. cbv beta iota.
  cbn [stdin console figures images written].
  rewrite <- !app_assoc. reflexivity.
Qed.

Variable base sub_mode : text.
Variable dpi : Z.

Lemma render_equations_run : forall eqs i rs w,
  exists w',
    render_equations savefig output_dir path_join path_basename base
      sub_mode dpi i eqs rs w
    = (Returns
         (rs ++ if text_eqb sub_mode (txt "r")
                then batch_replacements savefig output_dir path_join
                       path_basename base dpi i eqs
                else []),
       w') /\
    stdin w' = stdin w /\ written w' = written w /\
    images w'
    = images w ++ saved_images savefig output_dir path_join base dpi i eqs /\
    List.length (figures w')
    = List.length (figures w)
      + failed_count savefig output_dir path_join base dpi i eqs.
Proof.
  induction eqs as [|[[[s e] raw] disp] eqs IH]; intros i rs w.
  - exists w. cbn [render_equations saved_images failed_count
                     batch_replacements]. unfold ret.
    destruct (text_eqb sub_mode (txt "r")); rewrite !app_nil_r;
      repeat split; auto.
  - cbn [render_equations saved_images failed_count batch_replacements].
    unfold span_raw, span_start, span_end, span_display. cbn [fst snd].
    fold (image_path output_dir path_join base i).
    set (path := image_path output_dir path_join base i).
    unfold bind at 1. unfold try_except. unfold bind at 1.
    destruct (savefig raw path dpi) as [err|] eqn:Hs.
    + rewrite (latex_to_image_fail _ _ _ _ _ Hs).
      unfold bind at 1. unfold print. cbv beta iota. unfold ret at 1.
      cbv beta iota.
      match goal with
      | |- context [render_equations _ _ _ _ _ _ _ _ _ _ ?w1] =>
          destruct (IH (S i) rs w1) as (w' & Hrun & Hin & Hwr & Him & Hfig)
      end.
      exists w'. rewrite Hrun. cbn [stdin written images figures] in *.
      unfold rendered_failed in *.
      cbn [stdin written images figures List.length] in *.
      repeat split; auto. lia.
    + rewrite (latex_to_image_ok _ _ _ _ Hs).
      destruct (text_eqb sub_mode (txt "r")) eqn:Hr; unfold ret at 1;
        cbv beta iota.
      * match goal with
        | |- context [render_equations _ _ _ _ _ _ _ _ _ ?rs1 ?w1] =>
            destruct (IH (S i) rs1 w1) as (w' & Hrun & Hin & Hwr & Him & Hfig)
        end.
        exists w'. rewrite Hrun.
        unfold rendered_ok in *.
        cbn [stdin written images figures List.length] in *.
        repeat split; auto.
        -- rewrite <- app_assoc. reflexivity.
        -- rewrite Him, <- app_assoc. reflexivity.
      * match goal with
        | |- context [render_equations _ _ _ _ _ _ _ _ _ ?rs1 ?w1] =>
            destruct (IH (S i) rs1 w1) as (w' & Hrun & Hin & Hwr & Him & Hfig)
        end.
        exists w'. rewrite Hrun.
        unfold rendered_ok in *.
        cbn [stdin written images figures List.length] in *.
        repeat split; auto.
        rewrite Him, <- app_assoc. reflexivity.
Qed.

End BatchRun.

(* ------------------------------------------------------------------ *)
(** * Single steps of the console *)

Section Steps.
Import Runtime.

Lemma bind_ret {A B} (a : A) (f : A -> M B) w : bind (ret a) f w = f a w.
Proof. reflexivity. Qed.

Lemma bind_assoc {A B C} (m : M A) (f : A -> M B) (g : B -> M C) w :
  bind (bind m f) g w = bind m (fun a => bind (f a) g) w.
Proof. unfold bind. destruct (m w) as [[a|e] w1]; reflexivity. Qed.

Lemma bind_ret_true {A} (m : M A) w :
  fst (bind m (fun _ => ret true) w) <> Returns false.
Proof. unfold bind. destruct (m w) as [[a|e] w1]; discriminate. Qed.

Lemma bind_print {B} line (f : unit -> M B) w :
  bind (print line) f w = f tt (snd (print line w)).
Proof. reflexivity. Qed.

Lemma bind_input {B} prompt (f : text -> M B) w line more :
  stdin w = line :: more ->
  bind (input prompt) f w = f line (snd (input prompt w)).
Proof. intros H. unfold bind, input. rewrite H. reflexivity. Qed.

Lemma print_stdin line w : stdin (snd (print line w)) = stdin w.
Proof. reflexivity. Qed.

Lemma print_console line w :
  console (snd (print line w)) = console w ++ [line].
Proof. reflexivity. Qed.

Lemma print_figures line w : figures (snd (print line w)) = figures w.
Proof. reflexivity. Qed.

Lemma print_images line w : images (snd (print line w)) = images w.
Proof. reflexivity. Qed.

Lemma print_written line w : written (snd (print line w)) = written w.
Proof. reflexivity. Qed.

Lemma input_stdin prompt w line more :
  stdin w = line :: more -> stdin (snd (input prompt w)) = more.
Proof. intros H. unfold input. rewrite H. reflexivity. Qed.

Lemma input_console prompt w :
  console (snd (input prompt w)) = console w ++ [prompt].
Proof. unfold input. destruct (stdin w); reflexivity. Qed.

Lemma input_figures prompt w : figures (snd (input prompt w)) = figures w.
Proof. unfold input. destruct (stdin w); reflexivity. Qed.

Lemma input_images prompt w : images (snd (input prompt w)) = images w.
Proof. unfold input. destruct (stdin w); reflexivity. Qed.

Lemma input_written prompt w : written (snd (input prompt w)) = written w.
Proof. unfold input. destruct (stdin w); reflexivity. Qed.

Lemma text_eqb_eq a b : Session.text_eqb a b = true <-> a = b.
Proof.
  unfold Session.text_eqb.
  destruct (list_eq_dec ascii_dec a b); split; auto; discriminate.
Qed.

Lemma text_eqb_neq a b : a <> b -> Session.text_eqb a b = false.
Proof.
  intros H. unfold Session.text_eqb.
  destruct (list_eq_dec ascii_dec a b); [contradiction | reflexivity].
Qed.

End Steps.

Ltac same_store :=
  rewrite ?print_stdin, ?print_figures, ?print_images, ?print_written,
    ?input_figures, ?input_images, ?input_written.

Section ReadDpi.
Import Props More Runtime Session.

Variable py_int : text -> option Z.

Lemma print_eq line w : print line w = (Returns tt, snd (print line w)).
Proof. reflexivity. Qed.

(** The DPI prompt takes one line and hands on the resolution that stands
    for it. *)
Lemma read_dpi_step {B} prompt (k : Z -> M B) w dpi_input more :
  stdin w = dpi_input :: more ->
  exists w1,
    stdin w1 = more /\ images w1 = images w /\ figures w1 = figures w /\
    written w1 = written w /\
    bind (read_dpi py_int prompt) k w = k (effective_dpi py_int dpi_input) w1.
Proof.
  intros Hin. unfold read_dpi. rewrite bind_assoc.
  rewrite (bind_input _ _ _ dpi_input more Hin). cbv beta.
  unfold effective_dpi.
  destruct dpi_input as [|d l].
  - exists (snd (input prompt w)). same_store.
    rewrite (input_stdin _ _ _ _ Hin). auto.
  - destruct (py_int (d :: l)) as [dpi|].
    + exists (snd (input prompt w)). same_store.
      rewrite (input_stdin _ _ _ _ Hin). auto.
    + rewrite bind_assoc, bind_print. cbv beta. rewrite bind_ret.
      eexists. split; [|split; [|split; [|split; [|reflexivity]]]];
        same_store; auto.
      apply (input_stdin _ _ _ _ Hin).
Qed.

End ReadDpi.


(* ------------------------------------------------------------------ *)
(** * The batch of the file mode *)

Section BatchProperties.
Import Props More Locator Rewriter Runtime Renderer Session.

Variable savefig : text -> text -> Z -> option exn.
Variable output_dir : text.
Variable path_join : text -> text -> text.
Variable path_basename : text -> text.
Variable base sub_mode : text.
Variable dpi : Z.

Lemma saved_and_failed : forall eqs i,
  List.length (saved_images savefig output_dir path_join base dpi i eqs)
  + failed_count savefig output_dir path_join base dpi i eqs
  = List.length eqs /\
  List.length (batch_replacements savefig output_dir path_join path_basename
                 base dpi i eqs)
  = List.length (saved_images savefig output_dir path_join base dpi i eqs).
Proof.
  induction eqs as [|e eqs IH]; intros i; simpl; [auto|].
  destruct (IH (S i)) as [H1 H2].
  destruct (savefig _ _ _); simpl; rewrite ?length_app; simpl; lia.
Qed.

(** X12.  The loop over the equations never raises and never stops early:
    whatever the backend does, it returns; it saves one image for every
    equation the backend accepts, under the name that goes with the position
    of the equation in the document, so that an equation that fails leaves a
    gap in the numbering; in the sub-mode [r] it adds one replacement for
    every image saved, in any other sub-mode none. *)
Theorem batch_goes_through_every_equation :
  forall (eqs : list span) (i : nat) (rs : list replacement) (w : world),
  exists w',
    render_equations savefig output_dir path_join path_basename base
      sub_mode dpi i eqs rs w
    = (Returns
         (rs ++ if text_eqb sub_mode (txt "r")
                then batch_replacements savefig output_dir path_join
                       path_basename base dpi i eqs
                else []),
       w') /\
    images w'
    = images w ++ saved_images savefig output_dir path_join base dpi i eqs /\
    List.length (images w') + failed_count savefig output_dir path_join base
                                dpi i eqs
    = List.length (images w) + List.length eqs /\
    stdin w' = stdin w /\ written w' = written w.
Proof.
  intros eqs i rs w.
  destruct (render_equations_run savefig output_dir path_join path_basename
              base sub_mode dpi eqs i rs w)
    as (w' & Hrun & Hin & Hwr & Him & _).
  exists w'. repeat split; auto.
  rewrite Him, length_app.
  pose proof (proj1 (saved_and_failed eqs i)). lia.
Qed.

(** X13.  Every equation of a batch that the backend rejects leaves one
    figure open: after the loop the number of open figures has grown by the
    number of failed equations. *)
Theorem batch_leaves_a_figure_per_failure :
  forall (eqs : list span) (i : nat) (rs : list replacement) (w : world),
    List.length
      (figures (snd (render_equations savefig output_dir path_join
                       path_basename base sub_mode dpi i eqs rs w)))
    = List.length (figures w)
      + failed_count savefig output_dir path_join base dpi i eqs.
Proof.
  intros eqs i rs w.
  destruct (render_equations_run savefig output_dir path_join path_basename
              base sub_mode dpi eqs i rs w)
    as (w' & Hrun & _ & _ & _ & Hfig).
  rewrite Hrun. exact Hfig.
Qed.

End BatchProperties.

(* ------------------------------------------------------------------ *)
(** * The file mode as a whole *)

Section FileMode.
Import Props More Locator Rewriter Runtime Renderer Session.

Variable savefig : text -> text -> Z -> option exn.
Variable read_file : text -> outcome text.
Variable output_dir : text.
Variable path_join : text -> text -> text.
Variable path_basename : text -> text.
Variable path_stem : text -> text.
Variable makedirs : text -> option exn.
Variable write_file : text -> text -> option exn.

(** X14.  In the sub-mode [r], for a readable document with at least one
    equation, when the directory can be made and the file written, the
    file mode writes exactly one document, [<stem>_with_images.tex] in the
    output directory: the original text with the replacements of the
    rendered equations spliced in and then passed through
    [add_graphicx_package], so that it holds the declaration. *)
Theorem replace_mode_writes_the_spliced_document :
  forall (file_path sub_mode content : text) (dpi : Z) (w : world),
    text_eqb sub_mode (txt "r") = true ->
    read_file file_path = Returns content ->
    locate_equations content <> [] ->
    makedirs output_dir = None ->
    write_file
      (path_join output_dir (path_stem file_path ++ txt "_with_images.tex"))
      (add_graphicx_package
         (splice content
            (batch_replacements savefig output_dir path_join path_basename
               (path_stem file_path) dpi 0 (locate_equations content))))
    = None ->
    let rs := batch_replacements savefig output_dir path_join path_basename
                (path_stem file_path) dpi 0 (locate_equations content) in
    let document := add_graphicx_package (splice content rs) in
    exists w',
      process_file savefig read_file output_dir path_join path_basename
        path_stem makedirs write_file file_path sub_mode dpi w = (Returns tt, w') /\
      written w'
      = written w
        ++ [(path_join output_dir
               (path_stem file_path ++ txt "_with_images.tex"), document)] /\
      contains usepackage_graphicx document = true /\
      images w'
      = images w ++ saved_images savefig output_dir path_join
                      (path_stem file_path) dpi 0 (locate_equations content).
Proof.
  intros file_path sub_mode content dpi w Hr Hread Hne Hmk Hwrite rs document.
  unfold process_file, extract_equations_with_spans.
  rewrite Hread. unfold bind at 1. unfold ret at 1.
  destruct (locate_equations content) as [|e0 eqs] eqn:Hloc; [contradiction|].
  unfold bind at 1. rewrite Hmk.
  unfold bind at 1.
  destruct (render_equations_run savefig output_dir path_join path_basename
              (path_stem file_path) sub_mode dpi (e0 :: eqs) 0 [] w)
    as (w1 & Hrun & Hin & Hwr & Him & _).
  rewrite Hrun. rewrite Hr in *. cbn [app].
  fold rs.
  destruct (apply_replacements content rs) as [final made] eqn:Happ.
  assert (Hfinal : final = splice content rs)
    by (unfold splice; rewrite Happ; reflexivity).
  subst final. cbv zeta. fold document. fold rs document in Hwrite.
  rewrite Hwrite. unfold bind at 1. cbv beta iota.
  repeat (rewrite bind_print; cbv beta).
  eexists. split; [apply print_eq|]. same_store.
  cbn [stdin console figures images written].
  rewrite Hwr, Him.
  repeat split. apply add_graphicx_declared.
Qed.

(** X15.  In any sub-mode other than [r] the file mode writes no document,
    whatever happens to the file, the directory and the images. *)
Theorem other_sub_modes_write_no_document :
  forall (file_path sub_mode : text) (dpi : Z) (w : world),
    text_eqb sub_mode (txt "r") = false ->
    written (snd (process_file savefig read_file output_dir path_join path_basename
        path_stem makedirs write_file file_path sub_mode dpi w)) = written w.
Proof.
  intros file_path sub_mode dpi w Hr.
  unfold process_file, extract_equations_with_spans.
  destruct (read_file file_path) as [content|err] eqn:Hread.
  - unfold bind at 1. unfold ret at 1.
    destruct (locate_equations content) as [|e0 eqs] eqn:Hloc;
      [reflexivity|].
    unfold bind at 1. destruct (makedirs output_dir); [reflexivity|].
    unfold bind at 1.
    destruct (render_equations_run savefig output_dir path_join path_basename
                (path_stem file_path) sub_mode dpi (e0 :: eqs) 0 [] w)
      as (w1 & Hrun & Hin & Hwr & Him & _).
    rewrite Hrun, Hr. unfold print. cbn [snd written]. exact Hwr.
  - destruct (kind err); unfold bind, print, ret; reflexivity.
Qed.

(** X16.  Making the output directory is outside every [try]: when it
    fails, for a readable document with at least one equation, the
    exception leaves the file mode, and from the call of the Locator on
    nothing has been printed, rendered or written. *)
Theorem makedirs_failure_is_not_caught :
  forall (file_path sub_mode content : text) (dpi : Z) (w : world) (e : exn),
    read_file file_path = Returns content ->
    locate_equations content <> [] ->
    makedirs output_dir = Some e ->
    process_file savefig read_file output_dir path_join path_basename
        path_stem makedirs write_file file_path sub_mode dpi w = (Raises e, w).
Proof.
  intros file_path sub_mode content dpi w e Hread Hne Hmk.
  unfold process_file, extract_equations_with_spans.
  rewrite Hread. unfold bind at 1. unfold ret at 1.
  destruct (locate_equations content) as [|e0 eqs]; [contradiction|].
  unfold bind at 1. rewrite Hmk. reflexivity.
Qed.

End FileMode.

(* ------------------------------------------------------------------ *)
(** * The file mode when the second read fails *)

Section FileModeRereading.
Import Props More Locator Rewriter Runtime Renderer Session.

Variable savefig : text -> text -> Z -> option exn.
Variable read_file : text -> outcome text.
Variable read_again : text -> outcome text.
Variable output_dir : text.
Variable path_join : text -> text -> text.
Variable path_basename : text -> text.
Variable path_stem : text -> text.
Variable makedirs : text -> option exn.
Variable write_file : text -> text -> option exn.

(** When the second read gives what the first gave, the file mode with two
    reads is the file mode of the Session. *)
Lemma process_file_rereading_same file_path sub_mode dpi :
  Rereading.process_file savefig read_file read_file output_dir path_join
    path_basename path_stem makedirs write_file file_path sub_mode dpi
  = process_file savefig read_file output_dir path_join path_basename
      path_stem makedirs write_file file_path sub_mode dpi.
Proof. reflexivity. Qed.

(** X17.  Every failure but that of making the directory is caught: when
    the directory can be made, the file mode returns, whatever the first
    read of the file, the second read, the backend and writing the document
    do; the second read may fail after the first has succeeded. *)
Theorem file_mode_catches_every_other_failure :
  forall (file_path sub_mode : text) (dpi : Z) (w : world),
    makedirs output_dir = None ->
    fst (Rereading.process_file savefig read_file read_again output_dir
           path_join path_basename path_stem makedirs write_file file_path
           sub_mode dpi w)
    = Returns tt.
Proof.
  intros file_path sub_mode dpi w Hmk.
  unfold Rereading.process_file, extract_equations_with_spans.
  destruct (read_file file_path) as [content|err] eqn:Hread.
  - unfold bind at 1. unfold ret at 1.
    destruct (locate_equations content) as [|e0 eqs] eqn:Hloc;
      [reflexivity|].
    unfold bind at 1. rewrite Hmk.
    destruct (read_again file_path) as [original_content|err];
      [|reflexivity].
    unfold bind at 1.
    destruct (render_equations_run savefig output_dir path_join path_basename
                (path_stem file_path) sub_mode dpi (e0 :: eqs) 0 [] w)
      as (w1 & Hrun & _).
    rewrite Hrun.
    destruct (text_eqb sub_mode (txt "r")); [|reflexivity].
    destruct (apply_replacements original_content _) as [final made].
    destruct (write_file _ _); reflexivity.
  - destruct (kind err); unfold bind, print, ret; reflexivity.
Qed.

End FileModeRereading.

(* ------------------------------------------------------------------ *)
(** * The manual mode as a whole *)

Section ManualModeMore.
Import Props More Locator Rewriter Runtime Renderer Session.

Variable savefig : text -> text -> Z -> option exn.
Variable py_eval : text -> outcome text.
Variable py_int : text -> option Z.


(** X18.  A line that does not begin with [r'$] is refused at once: the
    manual mode reads no further line, prints its two lines of guidance and
    renders nothing. *)
Theorem manual_mode_refuses_other_lines :
  forall (latex_input : text) (more : list text) (w : world),
    stdin w = latex_input :: more ->
    firstn 3 latex_input <> txt "r'$" ->
    exists w',
      manual_mode savefig py_eval py_int w = (Returns tt, w') /\
      stdin w' = more /\
      last (console w') []
      = txt "Please re-enter your equation following the format guidelines." /\
      images w' = images w /\ figures w' = figures w /\
      written w' = written w.
Proof.
  intros latex_input more w Hin Hpre.
  assert (Hv : valid_manual_input latex_input = false).
  { apply not_true_is_false. intros H. apply Hpre.
    rewrite valid_manual_input_prefix in H.
    apply (starts_with_firstn (txt "r'$")). exact H. }
  unfold manual_mode.
  repeat (rewrite bind_print; cbv beta).
  rewrite (bind_input _ _ _ latex_input more) by (same_store; exact Hin).
  cbv beta. rewrite Hv. cbn [negb]. rewrite bind_print. cbv beta.
  eexists. split; [apply print_eq|].
  rewrite print_console. same_store.
  split; [apply input_stdin with latex_input; same_store; exact Hin|].
  split; [apply last_last|]. auto.
Qed.



End ManualModeMore.

(* ------------------------------------------------------------------ *)
(** * One turn of the loop *)

Section LoopBody.
Import Props More Locator Rewriter Runtime Renderer Session.

Variable savefig : text -> text -> Z -> option exn.
Variable py_eval : text -> outcome text.
Variable py_int : text -> option Z.
Variable read_file : text -> outcome text.
Variable lower_strip : text -> text.
Variable output_dir : text.
Variable path_join : text -> text -> text.
Variable path_basename : text -> text.
Variable path_stem : text -> text.
Variable makedirs : text -> option exn.
Variable write_file : text -> text -> option exn.

(** X21.  The loop is left only on the command [e]: a turn of the loop
    returns [false] exactly when the entered command, lowered and stripped,
    is [e], and then nothing has happened but the prompt. *)
Theorem loop_ends_only_on_e :
  forall (mode : text) (more : list text) (w : world),
    stdin w = mode :: more ->
    (fst (loop_body savefig py_eval py_int read_file lower_strip output_dir
            path_join path_basename path_stem makedirs write_file w)
     = Returns false
     <-> lower_strip mode = txt "e") /\
    (lower_strip mode = txt "e" ->
     loop_body savefig py_eval py_int read_file lower_strip output_dir
       path_join path_basename path_stem makedirs write_file w
     = (Returns false,
        {| stdin := more;
           console := console w ++ [txt "Enter your choice (m/f/e): "];
           figures := figures w; images := images w;
           written := written w |})).
Proof.
  intros mode more w Hin.
  assert (Heq : forall a b, text_eqb a b = true <-> a = b).
  { intros a b. unfold text_eqb.
    destruct (list_eq_dec ascii_dec a b); split; auto; discriminate. }
  unfold loop_body. rewrite !(bind_input _ _ _ mode more Hin).
  cbv beta zeta.
  destruct (text_eqb (lower_strip mode) (txt "e")) eqn:He.
  - apply Heq in He. split; [split; auto|]. intros _.
    unfold ret, input. rewrite Hin. reflexivity.
  - assert (Hne : lower_strip mode <> txt "e").
    { intros H. apply Heq in H. congruence. }
    split; [|intros H; contradiction].
    split; [|intros H; contradiction].
    intros H. exfalso.
    destruct (text_eqb (lower_strip mode) (txt "m"));
      [|destruct (text_eqb (lower_strip mode) (txt "f"))];
      exact (bind_ret_true _ _ H).
Qed.

(** X22.  A command that is none of [m], [f] and [e] changes nothing: the
    turn prints the prompt and the line on the invalid choice, and the loop
    goes on. *)
Theorem unknown_command_changes_nothing :
  forall (mode : text) (more : list text) (w : world),
    stdin w = mode :: more ->
    lower_strip mode <> txt "e" ->
    lower_strip mode <> txt "m" ->
    lower_strip mode <> txt "f" ->
    loop_body savefig py_eval py_int read_file lower_strip output_dir
      path_join path_basename path_stem makedirs write_file w
    = (Returns true,
       {| stdin := more;
          console := console w
                     ++ [txt "Enter your choice (m/f/e): ";
                         txt "Invalid choice. Please enter 'm', 'f', or 'e'."];
          figures := figures w; images := images w;
          written := written w |}).
Proof.
  intros mode more w Hin He Hm Hf.
  assert (Hneq : forall a b, a <> b -> text_eqb a b = false).
  { intros a b H. unfold text_eqb.
    destruct (list_eq_dec ascii_dec a b); [contradiction | reflexivity]. }
  unfold loop_body. unfold bind at 1. unfold input.
  rewrite Hin. cbn [stdin console figures images written].
  rewrite (Hneq _ _ He), (Hneq _ _ Hm), (Hneq _ _ Hf).
  unfold bind, print, ret. cbn [stdin console figures images written].
  rewrite <- app_assoc. reflexivity.
Qed.

(** X23.  At the end of the input the prompt of the loop raises [EOFError],
    which nothing catches. *)
Theorem loop_raises_at_end_of_input :
  forall w : world,
    stdin w = [] ->
    fst (loop_body savefig py_eval py_int read_file lower_strip output_dir
           path_join path_basename path_stem makedirs write_file w)
    = Raises {| kind := EOFError; message := [] |}.
Proof.
  intros w Hin. unfold loop_body. unfold bind at 1. unfold input.
  rewrite Hin. reflexivity.
Qed.

(** X24.  The file mode refuses a sub-mode other than [i] and [r] before it
    looks at the file: it has read its three lines, prints the line on the
    invalid sub-mode, and nothing is rendered or written. *)
Theorem file_mode_refuses_other_sub_modes :
  forall (file_path dpi_input sub_mode : text) (more : list text) (w : world),
    stdin w = file_path :: dpi_input :: sub_mode :: more ->
    lower_strip sub_mode <> txt "i" ->
    lower_strip sub_mode <> txt "r" ->
    exists w',
      file_mode savefig py_int read_file lower_strip output_dir path_join
        path_basename path_stem makedirs write_file w
      = (Returns tt, w') /\
      stdin w' = more /\
      last (console w') []
      = txt "Invalid sub-mode choice. Please enter 'i' or 'r'." /\
      images w' = images w /\ figures w' = figures w /\
      written w' = written w.
Proof.
  intros file_path dpi_input sub_mode more w Hin Hi Hr.
  assert (Hneq : forall a b, a <> b -> text_eqb a b = false).
  { intros a b H. unfold text_eqb.
    destruct (list_eq_dec ascii_dec a b); [contradiction | reflexivity]. }
  unfold file_mode. rewrite bind_print. cbv beta.
  rewrite (bind_input _ _ _ file_path (dpi_input :: sub_mode :: more))
    by (same_store; exact Hin).
  cbv beta.
  match goal with
  | |- context [bind (read_dpi _ ?p) ?k ?W] =>
      destruct (read_dpi_step py_int p k W dpi_input (sub_mode :: more))
        as (w1 & S1 & I1 & F1 & W1 & E1)
  end.
  { apply input_stdin with file_path. same_store. exact Hin. }
  rewrite E1. rewrite (bind_input _ _ _ sub_mode more S1). cbv beta zeta.
  rewrite (Hneq _ _ Hi), (Hneq _ _ Hr). cbn [orb negb].
  eexists. split; [apply print_eq|].
  rewrite print_console. same_store.
  rewrite (input_stdin _ _ _ _ S1), I1, F1, W1. same_store.
  split; [reflexivity|]. split; [apply last_last|]. auto.
Qed.

End LoopBody.

(* ------------------------------------------------------------------ *)
(** * Every turn of the loop reads a line *)

Section Progress.
Import Props More Locator Rewriter Runtime Renderer Session.

Lemma reads_only_ret {A} (a : A) : reads_only (ret a).
Proof. intros w. simpl. lia. Qed.

Lemma reads_only_raise {A} (e : exn) : reads_only (@raise A e).
Proof. intros w. simpl. lia. Qed.

Lemma reads_only_print line : reads_only (print line).
Proof. intros w. simpl. lia. Qed.

Lemma reads_only_input prompt : reads_only (input prompt).
Proof.
  intros w. unfold input. destruct (stdin w) as [|l more] eqn:E; simpl; lia.
Qed.

Lemma reads_only_pure {A} (x : outcome A) : reads_only (fun w => (x, w)).
Proof. intros w. simpl. lia. Qed.

Lemma reads_only_bind {A B} (m : M A) (f : A -> M B) :
  reads_only m -> (forall a, reads_only (f a)) -> reads_only (bind m f).
Proof.
  intros Hm Hf w. unfold bind. specialize (Hm w).
  destruct (m w) as [[a|e] w1]; simpl in *; [|exact Hm].
  specialize (Hf a w1). lia.
Qed.

Lemma reads_only_try {A} (m : M A) (h : exn -> M A) :
  reads_only m -> (forall e, reads_only (h e)) -> reads_only (try_except m h).
Proof.
  intros Hm Hh w. unfold try_except. specialize (Hm w).
  destruct (m w) as [[a|e] w1]; simpl in *; [exact Hm|].
  specialize (Hh e w1). lia.
Qed.

Variable savefig : text -> text -> Z -> option exn.
Variable py_eval : text -> outcome text.
Variable py_int : text -> option Z.
Variable read_file : text -> outcome text.
Variable lower_strip : text -> text.
Variable output_dir : text.
Variable path_join : text -> text -> text.
Variable path_basename : text -> text.
Variable path_stem : text -> text.
Variable makedirs : text -> option exn.
Variable write_file : text -> text -> option exn.

Lemma reads_only_latex_to_image eq out dpi :
  reads_only (latex_to_image savefig eq out dpi).
Proof.
  intros w. destruct (savefig eq out dpi) as [e|] eqn:Hs.
  - rewrite (latex_to_image_fail _ _ _ _ _ _ Hs). simpl. lia.
  - rewrite (latex_to_image_ok _ _ _ _ _ Hs). simpl. lia.
Qed.

Lemma reads_only_read_dpi prompt : reads_only (read_dpi py_int prompt).
Proof.
  unfold read_dpi. apply reads_only_bind; [apply reads_only_input|].
  intros [|d l]; [apply reads_only_ret|].
  destruct (py_int (d :: l)); [apply reads_only_ret|].
  apply reads_only_bind; [apply reads_only_print|].
  intros _. apply reads_only_ret.
Qed.

Lemma reads_only_manual_mode :
  reads_only (manual_mode savefig py_eval py_int).
Proof.
  unfold manual_mode.
  repeat (apply reads_only_bind; [apply reads_only_print | intros _]).
  apply reads_only_bind; [apply reads_only_input | intros latex_input].
  destruct (negb (valid_manual_input latex_input)).
  - apply reads_only_bind; [apply reads_only_print | intros _].
    apply reads_only_print.
  - apply reads_only_bind; [apply reads_only_input | intros output_name].
    apply reads_only_bind; [apply reads_only_read_dpi | intros dpi].
    apply reads_only_try.
    + apply reads_only_bind; [apply reads_only_pure | intros s].
      apply reads_only_latex_to_image.
    + intros e. destruct (kind e); apply reads_only_print.
Qed.

Lemma reads_only_render_equations base sub_mode dpi eqs :
  forall i acc,
    reads_only (render_equations savefig output_dir path_join path_basename
                  base sub_mode dpi i eqs acc).
Proof.
  induction eqs as [|[[[s e] raw] disp] eqs IH]; intros i acc;
    cbn [render_equations]; [apply reads_only_ret|].
  apply reads_only_bind; [|intros acc'; apply IH].
  apply reads_only_try.
  - apply reads_only_bind; [apply reads_only_latex_to_image | intros _].
    destruct (text_eqb sub_mode (txt "r")); apply reads_only_ret.
  - intros err. apply reads_only_bind; [apply reads_only_print | intros _].
    apply reads_only_ret.
Qed.

Lemma reads_only_extract file_path :
  reads_only (extract_equations_with_spans read_file file_path).
Proof.
  unfold extract_equations_with_spans.
  destruct (read_file file_path) as [content|err]; [apply reads_only_ret|].
  destruct (kind err);
    (apply reads_only_bind; [apply reads_only_print | intros _]);
    apply reads_only_ret.
Qed.

Lemma reads_only_process_file file_path sub_mode dpi :
  reads_only (process_file savefig read_file output_dir path_join
                path_basename path_stem makedirs write_file file_path
                sub_mode dpi).
Proof.
  unfold process_file.
  apply reads_only_bind; [apply reads_only_extract | intros eqs].
  destruct eqs as [|e0 eqs]; [apply reads_only_print|].
  apply reads_only_bind.
  { intros w. destruct (makedirs output_dir); simpl; lia. }
  intros _.
  destruct (read_file file_path) as [content|err]; [|apply reads_only_print].
  cbv zeta.
  apply reads_only_bind; [apply reads_only_render_equations | intros reps].
  destruct (text_eqb sub_mode (txt "r")); [|apply reads_only_print].
  destruct (apply_replacements content reps) as [final made].
  destruct (write_file _ _); [apply reads_only_print|].
  apply reads_only_bind; [intros w; simpl; lia | intros _].
  repeat (apply reads_only_bind; [apply reads_only_print | intros _]).
  apply reads_only_print.
Qed.

Lemma reads_only_file_mode :
  reads_only (file_mode savefig py_int read_file lower_strip output_dir
                path_join path_basename path_stem makedirs write_file).
Proof.
  unfold file_mode.
  apply reads_only_bind; [apply reads_only_print | intros _].
  apply reads_only_bind; [apply reads_only_input | intros file_path].
  apply reads_only_bind; [apply reads_only_read_dpi | intros dpi].
  apply reads_only_bind; [apply reads_only_input | intros sub_mode].
  destruct (negb _); [apply reads_only_print|].
  apply reads_only_process_file.
Qed.

(** X25.  Every turn of the loop takes at least one line from the input, in
    whatever way it ends: the program cannot go round without reading. *)
Theorem loop_turn_reads_a_line :
  forall (mode : text) (more : list text) (w : world),
    stdin w = mode :: more ->
    List.length
      (stdin (snd (loop_body savefig py_eval py_int read_file lower_strip
                     output_dir path_join path_basename path_stem makedirs
                     write_file w)))
    < List.length (stdin w).
Proof.
  intros mode more w Hin. unfold loop_body. unfold bind at 1. unfold input.
  rewrite Hin. cbn [stdin console figures images written].
  set (w1 := {| stdin := more; console := _; figures := _; images := _;
                written := _ |}).
  assert (Hw1 : List.length (stdin w1) < List.length (mode :: more))
    by (simpl; lia).
  destruct (text_eqb (lower_strip mode) (txt "e")); [exact Hw1|].
  destruct (text_eqb (lower_strip mode) (txt "m")).
  - pose proof (reads_only_bind _ (fun _ => ret true)
                  reads_only_manual_mode (fun _ => reads_only_ret true) w1).
    simpl in *. lia.
  - destruct (text_eqb (lower_strip mode) (txt "f")).
    + pose proof (reads_only_bind _ (fun _ => ret true)
                    reads_only_file_mode (fun _ => reads_only_ret true) w1).
      simpl in *. lia.
    + unfold bind, print, ret. simpl. lia.
Qed.

End Progress.

(* ------------------------------------------------------------------ *)
(** * The order of the result and the rendering that succeeds *)

Section Ascending.
Import Props More Locator.

Lemma sorted_by_start_nth (l : list span) (d : span) :
  StronglySorted (fun e1 e2 => span_start e1 <= span_start e2) l ->
  forall i j, i <= j -> j < List.length l ->
    span_start (nth i l d) <= span_start (nth j l d).
Proof.
  induction 1 as [|x l Hs IH Hx]; intros i j Hij Hj; simpl in Hj; [lia|].
  destruct i as [|i], j as [|j]; simpl; try lia.
  - rewrite Forall_forall in Hx. apply Hx, nth_In. lia.
  - apply IH; lia.
Qed.

(** X26.  The entries the Locator returns are in ascending order of their
    start offsets: an entry at an earlier place of the list starts where or
    before every entry at a later place. *)
Theorem locate_equations_ascending :
  forall (content : text) (i j : nat) (d : span),
    i <= j ->
    j < List.length (locate_equations content) ->
    span_start (nth i (locate_equations content) d)
    <= span_start (nth j (locate_equations content) d).
Proof.
  intros content i j d Hij Hj.
  apply sorted_by_start_nth; auto. apply locate_equations_sorted.
Qed.

End Ascending.

Section RenderSuccess.
Import Props More Runtime Renderer.

Variable savefig : text -> text -> Z -> option exn.

(** X27.  When the backend saves the figure, [latex_to_image] returns: it
    has saved exactly one image, of the equation, under the file name and at
    the resolution it was called with, its last line on the console is the
    line of success, and the figure it opened is closed again, so that the
    open figures are those from before the call. *)
Theorem render_success_closes_the_figure :
  forall (latex_equation output_filename : text) (dpi : Z) (w : world),
    savefig latex_equation output_filename dpi = None ->
    exists w',
      latex_to_image savefig latex_equation output_filename dpi w
      = (Returns tt, w') /\
      images w' = images w ++ [(output_filename, latex_equation, dpi)] /\
      figures w' = figures w /\
      last (console w') []
      = txt "Successfully converted LaTeX equation to " ++ output_filename /\
      stdin w' = stdin w /\ written w' = written w.
Proof.
  intros latex_equation output_filename dpi w Hs.
  exists (rendered_ok w latex_equation output_filename dpi).
  split; [apply latex_to_image_ok, Hs|].
  unfold rendered_ok. cbn [stdin console figures images written].
  repeat split. apply last_last.
Qed.

End RenderSuccess.

(* ------------------------------------------------------------------ *)
(** * The properties at concrete inputs *)

Section LocatorExamples.
Import Regex Props More Locator.

Lemma locate_equations_ascending_witness :
  span_start (nth 0 (locate_equations (txt "Start $$a+b$$ middle $c-d$ end."))
                (0, 0, [], false))
  <= span_start (nth 1 (locate_equations
                          (txt "Start $$a+b$$ middle $c-d$ end."))
                   (0, 0, [], false)).
Proof.
  apply (locate_equations_ascending (txt "Start $$a+b$$ middle $c-d$ end.")
           0 1 (0, 0, [], false)).
  - lia.
  - vm_compute. lia.
Defined.

Lemma locate_entry_in_bounds_witness :
  span_start (21, 26, txt "$c-d$", false)
  < span_end (21, 26, txt "$c-d$", false) /\
  span_end (21, 26, txt "$c-d$", false)
  <= List.length (txt "Start $$a+b$$ middle $c-d$ end.") /\
  span_raw (21, 26, txt "$c-d$", false)
  = slice (txt "Start $$a+b$$ middle $c-d$ end.")
      (span_start (21, 26, txt "$c-d$", false))
      (span_end (21, 26, txt "$c-d$", false)) /\
  List.length (span_raw (21, 26, txt "$c-d$", false))
  = span_end (21, 26, txt "$c-d$", false)
    - span_start (21, 26, txt "$c-d$", false).
Proof.
  apply (locate_entry_in_bounds (txt "Start $$a+b$$ middle $c-d$ end.")
           (21, 26, txt "$c-d$", false)).
  vm_compute. right. left. reflexivity.
Defined.

Lemma locate_same_kind_disjoint_witness :
  span_end (0, 3, txt "$a$", false) <= span_start (8, 11, txt "$b$", false) \/
  span_end (8, 11, txt "$b$", false) <= span_start (0, 3, txt "$a$", false).
Proof.
  apply (locate_same_kind_disjoint (txt "$a$ and $b$")
           (0, 3, txt "$a$", false) (8, 11, txt "$b$", false)).
  - vm_compute. left. reflexivity.
  - vm_compute. right. left. reflexivity.
  - reflexivity.
  - intros H. discriminate H.
Defined.

Lemma locate_inline_entry_shape_witness :
  exists pre body post,
    txt "Start $$a+b$$ middle $c-d$ end." = pre ++ inline_math body ++ post /\
    span_start (21, 26, txt "$c-d$", false) = List.length pre /\
    span_end (21, 26, txt "$c-d$", false)
    = List.length pre + List.length body + 2 /\
    span_raw (21, 26, txt "$c-d$", false) = inline_math body /\
    dollar_free body = true /\
    unescaped (last_before None pre) = true /\
    unescaped (last_before (Some dollar) body) = true.
Proof.
  apply (locate_inline_entry_shape (txt "Start $$a+b$$ middle $c-d$ end.")
           (21, 26, txt "$c-d$", false)).
  - vm_compute. right. left. reflexivity.
  - reflexivity.
Defined.

Lemma locate_display_entry_shape_witness :
  exists pre body post,
    txt "Start $$a+b$$ middle $c-d$ end." = pre ++ display_math body ++ post /\
    span_start (6, 13, txt "$$a+b$$", true) = List.length pre /\
    span_end (6, 13, txt "$$a+b$$", true)
    = List.length pre + List.length body + 4 /\
    span_raw (6, 13, txt "$$a+b$$", true) = display_math body /\
    Rewriter.contains [dollar; dollar] (body ++ [dollar]) = false /\
    unescaped (last_before None pre) = true /\
    unescaped (last_before (Some dollar) body) = true.
Proof.
  apply (locate_display_entry_shape (txt "Start $$a+b$$ middle $c-d$ end.")
           (6, 13, txt "$$a+b$$", true)).
  - vm_compute. left. reflexivity.
  - reflexivity.
Defined.

Lemma locate_plain_text_empty_witness :
  locate_equations (txt "Price: 5\$ only") = [].
Proof.
  apply (locate_plain_text_empty (txt "Price: 5\$ only")).
  vm_compute. reflexivity.
Defined.

End LocatorExamples.

Section RewriterExamples.
Import Regex Props More Rewriter.

Lemma add_graphicx_insertion_place_witness :
  exists dropped cls gap rest,
    txt "% notes
\documentclass{article}
\begin{document}x\end{document}"
    = dropped ++ documentclass_open ++ cls ++ "}"%char :: gap
        ++ begin_document ++ rest /\
    List.length dropped
    = m_start {| m_start := 8; m_end := 48;
                 m_caps := [(2, (32, 48)); (1, (8, 32))] |} /\
    add_graphicx_package (txt "% notes
\documentclass{article}
\begin{document}x\end{document}")
    = documentclass_open ++ cls ++ "}"%char :: gap
        ++ (newline :: usepackage_graphicx) ++ begin_document ++ rest.
Proof.
  apply (add_graphicx_insertion_place (txt "% notes
\documentclass{article}
\begin{document}x\end{document}")
           {| m_start := 8; m_end := 48;
              m_caps := [(2, (32, 48)); (1, (8, 32))] |}).
  - vm_compute. reflexivity.
  - vm_compute. reflexivity.
Defined.

Lemma add_graphicx_exactly_once_witness :
  occurrences usepackage_graphicx
    (add_graphicx_package
       (txt "\documentclass{article}\begin{document}x\end{document}"))
  = 1.
Proof.
  apply (add_graphicx_exactly_once
           (txt "\documentclass{article}\begin{document}x\end{document}")).
  vm_compute. reflexivity.
Defined.

Lemma splice_order_independent_witness :
  splice (txt "abcdef") [(1, 2, txt "X"); (4, 5, txt "Y")]
  = splice (txt "abcdef") [(4, 5, txt "Y"); (1, 2, txt "X")] /\
  apply_replacements (txt "abcdef") [(1, 2, txt "X"); (4, 5, txt "Y")]
  = apply_replacements (txt "abcdef") [(4, 5, txt "Y"); (1, 2, txt "X")].
Proof.
  apply (splice_order_independent (txt "abcdef")
           [(1, 2, txt "X"); (4, 5, txt "Y")]
           [(4, 5, txt "Y"); (1, 2, txt "X")]).
  - apply perm_swap.
  - simpl. constructor.
    + simpl. intros [H | []]. discriminate H.
    + constructor; [intros [] | constructor].
Defined.

Lemma splice_keeps_text_before_ranges_witness :
  firstn 2 (splice (txt "abcdef") [(2, 3, txt "X"); (4, 6, txt "Y")])
  = firstn 2 (txt "abcdef").
Proof.
  apply (splice_keeps_text_before_ranges (txt "abcdef")
           [(2, 3, txt "X"); (4, 6, txt "Y")] 2).
  - vm_compute. lia.
  - repeat constructor.
Defined.

End RewriterExamples.

Section SessionExamples.
Import Regex Props More Locator Rewriter Runtime Renderer Session.

Lemma render_success_closes_the_figure_witness :
  exists w',
    latex_to_image (fun _ _ _ => None) (txt "$x$") (txt "x.png") 300 idle
    = (Returns tt, w') /\
    images w' = images idle ++ [(txt "x.png", txt "$x$", 300%Z)] /\
    figures w' = figures idle /\
    last (console w') []
    = txt "Successfully converted LaTeX equation to " ++ txt "x.png" /\
    stdin w' = stdin idle /\ written w' = written idle.
Proof.
  apply (render_success_closes_the_figure (fun _ _ _ => None)
           (txt "$x$") (txt "x.png") 300%Z idle).
  reflexivity.
Defined.

Lemma replace_mode_writes_the_spliced_document_witness :
  let content :=
    txt "\documentclass{article}\begin{document}$x$\end{document}" in
  exists w',
    process_file (fun _ _ _ => None) (fun _ => Returns content) (txt "out")
      (fun d f => d ++ txt "/" ++ f) (fun p => skipn 4 p)
      (fun _ => txt "doc") (fun _ => None) (fun _ _ => None)
      (txt "doc.tex") (txt "r") 300 idle
    = (Returns tt, w') /\
    written w'
    = [(txt "out/doc_with_images.tex",
        txt "\documentclass{article}
\usepackage{graphicx}\begin{document}\raisebox{-0.2\height}{\includegraphics[width=0.15\linewidth]{doc_equation_1.png}}\end{document}")] /\
    images w' = [(txt "out/doc_equation_1.png", txt "$x$", 300%Z)].
Proof.
  intros content.
  destruct (replace_mode_writes_the_spliced_document
              (fun _ _ _ => None) (fun _ => Returns content) (txt "out")
              (fun d f => d ++ txt "/" ++ f) (fun p => skipn 4 p)
              (fun _ => txt "doc") (fun _ => None) (fun _ _ => None)
              (txt "doc.tex") (txt "r") content 300%Z idle)
    as (w' & Hrun & Hwritten & _ & Himages).
  - reflexivity.
  - reflexivity.
  - vm_compute. intros H. discriminate H.
  - reflexivity.
  - reflexivity.
  - exists w'. split; [exact Hrun|]. split.
    + rewrite Hwritten. vm_compute. reflexivity.
    + rewrite Himages. vm_compute. reflexivity.
Defined.

Lemma other_sub_modes_write_no_document_witness :
  written
    (snd (process_file (fun _ _ _ => None)
            (fun _ => Returns (txt "Let $x$ be given.")) (txt "out")
            (fun d f => d ++ txt "/" ++ f) (fun p => skipn 4 p)
            (fun _ => txt "doc") (fun _ => None) (fun _ _ => None)
            (txt "doc.tex") (txt "i") 300 idle))
  = written idle.
Proof.
  apply (other_sub_modes_write_no_document (fun _ _ _ => None)
           (fun _ => Returns (txt "Let $x$ be given.")) (txt "out")
           (fun d f => d ++ txt "/" ++ f) (fun p => skipn 4 p)
           (fun _ => txt "doc") (fun _ => None) (fun _ _ => None)
           (txt "doc.tex") (txt "i") 300%Z idle).
  reflexivity.
Defined.

Lemma makedirs_failure_is_not_caught_witness :
  let denied := {| kind := OtherException; message := txt "Permission denied" |} in
  process_file (fun _ _ _ => None)
    (fun _ => Returns (txt "Let $x$ be given.")) (txt "out")
    (fun d f => d ++ txt "/" ++ f) (fun p => skipn 4 p)
    (fun _ => txt "doc") (fun _ => Some denied) (fun _ _ => None)
    (txt "doc.tex") (txt "i") 300 idle
  = (Raises denied, idle).
Proof.
  intros denied.
  apply (makedirs_failure_is_not_caught (fun _ _ _ => None)
           (fun _ => Returns (txt "Let $x$ be given.")) (txt "out")
           (fun d f => d ++ txt "/" ++ f) (fun p => skipn 4 p)
           (fun _ => txt "doc") (fun _ => Some denied) (fun _ _ => None)
           (txt "doc.tex") (txt "i") (txt "Let $x$ be given.") 300%Z idle
           denied).
  - reflexivity.
  - vm_compute. intros H. discriminate H.
  - reflexivity.
Defined.

Lemma file_mode_catches_every_other_failure_witness :
  let gone := {| kind := FileNotFoundError; message := txt "No such file" |} in
  fst (Rereading.process_file (fun _ _ _ => None)
         (fun _ => Returns (txt "Let $x$ be given.")) (fun _ => Raises gone)
         (txt "out") (fun d f => d ++ txt "/" ++ f) (fun p => skipn 4 p)
         (fun _ => txt "doc") (fun _ => None) (fun _ _ => None)
         (txt "doc.tex") (txt "r") 300 idle)
  = Returns tt.
Proof.
  intros gone.
  apply (file_mode_catches_every_other_failure (fun _ _ _ => None)
           (fun _ => Returns (txt "Let $x$ be given."))
           (fun _ => Raises gone) (txt "out")
           (fun d f => d ++ txt "/" ++ f) (fun p => skipn 4 p)
           (fun _ => txt "doc") (fun _ => None) (fun _ _ => None)
           (txt "doc.tex") (txt "r") 300%Z idle).
  reflexivity.
Defined.

Lemma manual_mode_refuses_other_lines_witness :
  let w := {| stdin := [txt "x^2"; txt "e"]; console := []; figures := [];
              images := []; written := [] |} in
  exists w',
    manual_mode (fun _ _ _ => None) (fun s => Returns s) (fun _ => None) w
    = (Returns tt, w') /\
    stdin w' = [txt "e"] /\
    last (console w') []
    = txt "Please re-enter your equation following the format guidelines." /\
    images w' = images w /\ figures w' = figures w /\
    written w' = written w.
Proof.
  intros w.
  apply (manual_mode_refuses_other_lines (fun _ _ _ => None)
           (fun s => Returns s) (fun _ => None) (txt "x^2") [txt "e"] w).
  - reflexivity.
  - intros H. vm_compute in H. discriminate H.
Defined.



Lemma loop_ends_only_on_e_witness :
  let w := {| stdin := [txt "e"]; console := []; figures := [];
              images := []; written := [] |} in
  (fst (loop_body (fun _ _ _ => None) (fun s => Returns s) (fun _ => None)
          (fun s => Returns s) (fun s => s) (txt "out")
          (fun d f => d ++ txt "/" ++ f) (fun p => p) (fun p => p)
          (fun _ => None) (fun _ _ => None) w)
   = Returns false
   <-> txt "e" = txt "e") /\
  (txt "e" = txt "e" ->
   loop_body (fun _ _ _ => None) (fun s => Returns s) (fun _ => None)
     (fun s => Returns s) (fun s => s) (txt "out")
     (fun d f => d ++ txt "/" ++ f) (fun p => p) (fun p => p)
     (fun _ => None) (fun _ _ => None) w
   = (Returns false,
      {| stdin := [];
         console := console w ++ [txt "Enter your choice (m/f/e): "];
         figures := figures w; images := images w;
         written := written w |})).
Proof.
  intros w.
  apply (loop_ends_only_on_e (fun _ _ _ => None) (fun s => Returns s)
           (fun _ => None) (fun s => Returns s) (fun s => s) (txt "out")
           (fun d f => d ++ txt "/" ++ f) (fun p => p) (fun p => p)
           (fun _ => None) (fun _ _ => None) (txt "e") [] w).
  reflexivity.
Defined.

Lemma unknown_command_changes_nothing_witness :
  let w := {| stdin := [txt "x"; txt "e"]; console := []; figures := [];
              images := []; written := [] |} in
  loop_body (fun _ _ _ => None) (fun s => Returns s) (fun _ => None)
    (fun s => Returns s) (fun s => s) (txt "out")
    (fun d f => d ++ txt "/" ++ f) (fun p => p) (fun p => p)
    (fun _ => None) (fun _ _ => None) w
  = (Returns true,
     {| stdin := [txt "e"];
        console := console w
                   ++ [txt "Enter your choice (m/f/e): ";
                       txt "Invalid choice. Please enter 'm', 'f', or 'e'."];
        figures := figures w; images := images w;
        written := written w |}).
Proof.
  intros w.
  apply (unknown_command_changes_nothing (fun _ _ _ => None)
           (fun s => Returns s) (fun _ => None) (fun s => Returns s)
           (fun s => s) (txt "out") (fun d f => d ++ txt "/" ++ f)
           (fun p => p) (fun p => p) (fun _ => None) (fun _ _ => None)
           (txt "x") [txt "e"] w).
  - reflexivity.
  - intros H. vm_compute in H. discriminate H.
  - intros H. vm_compute in H. discriminate H.
  - intros H. vm_compute in H. discriminate H.
Defined.

Lemma loop_raises_at_end_of_input_witness :
  fst (loop_body (fun _ _ _ => None) (fun s => Returns s) (fun _ => None)
         (fun s => Returns s) (fun s => s) (txt "out")
         (fun d f => d ++ txt "/" ++ f) (fun p => p) (fun p => p)
         (fun _ => None) (fun _ _ => None) idle)
  = Raises {| kind := EOFError; message := [] |}.
Proof.
  apply (loop_raises_at_end_of_input (fun _ _ _ => None)
           (fun s => Returns s) (fun _ => None) (fun s => Returns s)
           (fun s => s) (txt "out") (fun d f => d ++ txt "/" ++ f)
           (fun p => p) (fun p => p) (fun _ => None) (fun _ _ => None) idle).
  reflexivity.
Defined.

Lemma file_mode_refuses_other_sub_modes_witness :
  let w := {| stdin := [txt "doc.tex"; txt "300"; txt "x"; txt "e"];
              console := []; figures := []; images := []; written := [] |} in
  exists w',
    file_mode (fun _ _ _ => None) (fun _ => Some 300%Z) (fun s => Returns s)
      (fun s => s) (txt "out") (fun d f => d ++ txt "/" ++ f) (fun p => p)
      (fun p => p) (fun _ => None) (fun _ _ => None) w
    = (Returns tt, w') /\
    stdin w' = [txt "e"] /\
    last (console w') []
    = txt "Invalid sub-mode choice. Please enter 'i' or 'r'." /\
    images w' = images w /\ figures w' = figures w /\
    written w' = written w.
Proof.
  intros w.
  apply (file_mode_refuses_other_sub_modes (fun _ _ _ => None)
           (fun _ => Some 300%Z) (fun s => Returns s) (fun s => s)
           (txt "out") (fun d f => d ++ txt "/" ++ f) (fun p => p)
           (fun p => p) (fun _ => None) (fun _ _ => None)
           (txt "doc.tex") (txt "300") (txt "x") [txt "e"] w).
  - reflexivity.
  - intros H. vm_compute in H. discriminate H.
  - intros H. vm_compute in H. discriminate H.
Defined.

Lemma loop_turn_reads_a_line_witness :
  let w := {| stdin := [txt "m"; txt "r'$x$'"; []; []; txt "e"];
              console := []; figures := []; images := []; written := [] |} in
  List.length
    (stdin (snd (loop_body (fun _ _ _ => None) (fun _ => Returns (txt "$x$"))
                   (fun _ => None) (fun s => Returns s) (fun s => s)
                   (txt "out") (fun d f => d ++ txt "/" ++ f) (fun p => p)
                   (fun p => p) (fun _ => None) (fun _ _ => None) w)))
  < List.length (stdin w).
Proof.
  intros w.
  apply (loop_turn_reads_a_line (fun _ _ _ => None)
           (fun _ => Returns (txt "$x$")) (fun _ => None)
           (fun s => Returns s) (fun s => s) (txt "out")
           (fun d f => d ++ txt "/" ++ f) (fun p => p) (fun p => p)
           (fun _ => None) (fun _ _ => None)
           (txt "m") [txt "r'$x$'"; []; []; txt "e"] w).
  reflexivity.
Defined.

End SessionExamples.

(* ------------------------------------------------------------------ *)
(** * The extractor and the Renderer of version 1.5.0 *)

Section LegacyShapes.
Import Regex Props More Locator Rewriter.

(** The lazy star stops at the first place where what follows it matches:
    every character it has read passes a test that may rely on the failure
    of the continuation there. *)
Lemma star_loop_minimal ok body k :
  (forall c k' e, k c = None -> body c k' = Some e ->
     exists x xs, rest c = x :: xs /\ ok x xs = true /\
                  k' (advance x xs c) = Some e) ->
  forall fuel c e,
    star_loop body k fuel c = Some e ->
    exists u w,
      rest c = u ++ w /\ all_ok ok u w = true /\
      k {| before := last_before (before c) u; rest := w;
           pos := pos c + List.length u; caps := caps c |} = Some e.
Proof.
  intros Hbody. induction fuel as [|fuel IH]; intros c e; simpl.
  - destruct (k c) eqn:Hk; [|discriminate]. intros [= <-].
    exists [], (rest c). simpl. rewrite Nat.add_0_r.
    destruct c; simpl in *. auto.
  - destruct (k c) eqn:Hk.
    + intros [= <-]. exists [], (rest c). simpl. rewrite Nat.add_0_r.
      destruct c; simpl in *. auto.
    + intros H. apply (Hbody _ _ _ Hk) in H.
      destruct H as (x & xs & Hr & Hx & H).
      destruct (pos c <? pos (advance x xs c)); [|discriminate].
      apply IH in H. destruct H as (u & w & Hr' & Hd & H).
      exists (x :: u), w. simpl in *. repeat split.
      * rewrite Hr, Hr'. reflexivity.
      * rewrite <- Hr', Hx, Hd. reflexivity.
      * rewrite <- H. f_equal. f_equal. lia.
Qed.

Lemma all_ok_inline u w :
  all_ok (fun x _ => negb (Ascii.eqb x newline) && negb (Ascii.eqb x dollar))
    u w = true ->
  dollar_free u = true /\ line_free u = true.
Proof.
  induction u as [|x u IH]; simpl; [auto|].
  intros H. apply andb_true_iff in H. destruct H as [Hx H].
  apply andb_true_iff in Hx. destruct Hx as [Hn Hd].
  destruct (IH H) as [H1 H2]. unfold dollar_free, line_free in *.
  rewrite Hn, Hd, H1, H2. auto.
Qed.

(** A match of the earlier inline pattern: a dollar, a content on one line
    without a dollar, a dollar; the group holds the content. *)
Lemma legacy_inline_match_shape b s p m :
  match_at Legacy.inline_pattern b s p = Some m ->
  exists body w,
    s = dollar :: body ++ dollar :: w /\
    dollar_free body = true /\ line_free body = true /\
    cap_lookup 1 (m_caps m) = Some (S p, S p + List.length body).
Proof.
  unfold match_at, Legacy.inline_pattern. cbn [seq].
  destruct (rmatch _ _ Some) as [e|] eqn:H; [|discriminate].
  intros [= <-]. cbn [m_caps].
  rewrite rmatch_Cat in H. apply chr_dollar_inv in H.
  destruct H as (xs & Hs & H). cbn [rest] in Hs. subst s.
  rewrite rmatch_Cat, rmatch_Group, rmatch_LazyStar in H.
  apply (star_loop_minimal
           (fun x _ => negb (Ascii.eqb x newline)
                       && negb (Ascii.eqb x dollar))) in H.
  - destruct H as (body & w & Hr & Hok & H).
    cbn [advance rest before pos caps] in *.
    apply chr_dollar_inv in H. destruct H as (w' & Hw & [= <-]).
    cbn [set_cap rest] in Hw. subst xs w.
    apply all_ok_inline in Hok. destruct Hok as [Hd Hl].
    exists body, w'. cbn [advance caps set_cap cap_lookup Nat.eqb].
    repeat split; auto.
  - intros c k' e' Hk Hb. unfold Legacy.dot in Hb.
    rewrite rmatch_Cat, rmatch_NotAhead, rmatch_Chr, rmatch_AnyChar in Hb.
    rewrite rmatch_Chr in Hk. cbn [set_cap rest] in Hk.
    destruct (rest c) as [|x xs']; [discriminate|].
    exists x, xs'.
    destruct (Ascii.eqb x newline); [discriminate|].
    destruct (Ascii.eqb x dollar); [discriminate|].
    auto.
Qed.

(** A match of the earlier display pattern: a pair of dollars, a content
    that holds no pair of dollars and does not end with a dollar, a pair of
    dollars; the group holds the content. *)
Lemma legacy_display_match_shape b s p m :
  match_at Legacy.display_pattern b s p = Some m ->
  exists body w,
    s = dollar :: dollar :: body ++ dollar :: dollar :: w /\
    contains [dollar; dollar] (body ++ [dollar]) = false /\
    cap_lookup 1 (m_caps m) = Some (S (S p), S (S p) + List.length body).
Proof.
  unfold match_at, Legacy.display_pattern. cbn [seq].
  destruct (rmatch _ _ Some) as [e|] eqn:H; [|discriminate].
  intros [= <-]. cbn [m_caps].
  rewrite rmatch_Cat in H. apply chr_dollar_inv in H.
  destruct H as (xs & Hs & H). cbn [rest] in Hs. subst s.
  rewrite rmatch_Cat in H. apply chr_dollar_inv in H.
  destruct H as (ys & Hs & H). cbn [advance rest] in Hs. subst xs.
  rewrite rmatch_Cat, rmatch_Group, rmatch_LazyStar in H.
  apply (star_loop_minimal no_pair_here) in H.
  - destruct H as (body & w & Hr & Hok & H).
    cbn [advance rest before pos caps] in *.
    rewrite rmatch_Cat in H. apply chr_dollar_inv in H.
    destruct H as (w1 & Hw1 & H). apply chr_dollar_inv in H.
    destruct H as (w2 & Hw2 & [= <-]).
    cbn [set_cap advance rest pos] in *. subst w1 w ys.
    exists body, w2. cbn [advance caps set_cap cap_lookup Nat.eqb].
    repeat split; auto.
    eapply no_pair_content. exact Hok.
  - intros c k' e' Hk Hb.
    rewrite rmatch_AnyChar in Hb.
    rewrite rmatch_Cat, rmatch_Chr in Hk. cbn [set_cap rest] in Hk.
    destruct (rest c) as [|x xs']; [discriminate|].
    exists x, xs'. split; [reflexivity|]. split; [|exact Hb].
    unfold no_pair_here.
    destruct (Ascii.eqb x dollar); [|reflexivity].
    rewrite rmatch_Chr in Hk. cbn [advance rest] in Hk.
    destruct xs' as [|y ys']; [reflexivity|].
    destruct (Ascii.eqb y dollar); [discriminate | reflexivity].
Qed.

Lemma legacy_findall_inline content :
  Forall (fun b => dollar_free b = true /\ line_free b = true)
    (Legacy.findall Legacy.inline_pattern content).
Proof.
  apply Forall_forall. intros g Hg. unfold Legacy.findall in Hg.
  apply in_map_iff in Hg. destruct Hg as (m & <- & Hm).
  apply finditer_from_split in Hm.
  destruct Hm as (pre & s' & Hc & Hm & _).
  apply legacy_inline_match_shape in Hm.
  destruct Hm as (body & w & -> & Hd & Hl & Hcap).
  unfold group. rewrite Hcap. simpl Nat.add.
  replace (slice content (S (List.length pre))
             (S (List.length pre + List.length body))) with body; [auto|].
  symmetry.
  replace content with ((pre ++ [dollar]) ++ body ++ dollar :: w)
    by (rewrite Hc, <- app_assoc; reflexivity).
  apply slice_segment; rewrite ?length_app; simpl; lia.
Qed.

Lemma legacy_findall_display content :
  Forall (fun a => contains [dollar; dollar] (a ++ [dollar]) = false)
    (Legacy.findall Legacy.display_pattern content).
Proof.
  apply Forall_forall. intros g Hg. unfold Legacy.findall in Hg.
  apply in_map_iff in Hg. destruct Hg as (m & <- & Hm).
  apply finditer_from_split in Hm.
  destruct Hm as (pre & s' & Hc & Hm & _).
  apply legacy_display_match_shape in Hm.
  destruct Hm as (body & w & -> & Hp & Hcap).
  unfold group. rewrite Hcap. simpl Nat.add.
  replace (slice content (S (S (List.length pre)))
             (S (S (List.length pre + List.length body)))) with body;
    [auto|].
  symmetry.
  replace content
    with ((pre ++ [dollar; dollar]) ++ body ++ dollar :: dollar :: w)
    by (rewrite Hc, <- app_assoc; reflexivity).
  apply slice_segment; rewrite ?length_app; simpl; lia.
Qed.

Lemma take_displays_equations ms : forall acc content,
  fst (fold_left
         (fun '(equations, content) m =>
            let found := txt "$$" ++ m ++ txt "$$" in
            (equations ++ [found],
             Legacy.str_replace found (txt " ") content))
         ms (acc, content))
  = acc ++ map display_math ms.
Proof.
  induction ms as [|m ms IH]; intros acc content; simpl.
  - rewrite app_nil_r. reflexivity.
  - rewrite IH, <- app_assoc. reflexivity.
Qed.

End LegacyShapes.

Section LegacyProgram.
Import Regex Props More Locator Rewriter Runtime Renderer.

Variable savefig : text -> text -> Z -> option exn.
Variable read_file : text -> outcome text.

(** X28.  For a file that can be read, the extractor of version 1.5.0
    returns, and prints nothing: first the display equations of the text in
    their order, each between two pairs of dollars, with a content that
    holds no pair of dollars and does not end with a dollar; then the
    inline equations of what is left of the text once every occurrence of
    every display equation has become a space, each between two dollars,
    with a content on one line that holds no dollar. *)
Theorem legacy_extractor_displays_first :
  forall (file_path content : text) (w : world),
    read_file file_path = Returns content ->
    let displays := Legacy.findall Legacy.display_pattern content in
    let inlines :=
      Legacy.findall Legacy.inline_pattern
        (snd (Legacy.take_displays displays content)) in
    Legacy.extract_equations_from_tex read_file file_path w
    = (Returns (map display_math displays ++ map inline_math inlines), w) /\
    Forall (fun a => contains [dollar; dollar] (a ++ [dollar]) = false)
      displays /\
    Forall (fun b => dollar_free b = true /\ line_free b = true) inlines.
Proof.
  intros file_path content w Hread displays inlines.
  split; [|split].
  - unfold Legacy.extract_equations_from_tex. rewrite Hread. cbv zeta.
    fold displays.
    pose proof (take_displays_equations displays [] content) as Hfst.
    unfold inlines. unfold Legacy.take_displays in *.
    destruct (fold_left _ _ _) as [equations content'].
    simpl in Hfst. subst equations. reflexivity.
  - apply legacy_findall_display.
  - apply legacy_findall_inline.
Qed.

(** X29.  The Renderer of version 1.5.0 never raises: whatever the backend
    does, it returns.  When the figure is saved there is one more image and
    the open figures are those from before; when saving fails there is no
    image and the figure that was opened stays open. *)
Theorem legacy_latex_to_image_never_raises :
  forall (latex_equation output_filename : text) (dpi : Z) (w : world),
    exists w',
      Legacy.latex_to_image savefig latex_equation output_filename dpi w
      = (Returns tt, w') /\
      stdin w' = stdin w /\ written w' = written w /\
      match savefig latex_equation output_filename dpi with
      | None =>
          images w' = images w ++ [(output_filename, latex_equation, dpi)] /\
          figures w' = figures w
      | Some _ =>
          images w' = images w /\
          figures w' = S (list_max (figures w)) :: figures w
      end.
Proof.
  intros latex_equation output_filename dpi w.
  unfold Legacy.latex_to_image, try_except.
  unfold bind at 1 2 3. unfold plt_figure, plt_savefig, plt_close.
  cbv beta iota.
  destruct (savefig latex_equation output_filename dpi) as [e|].
  - cbv beta iota. repeat (rewrite bind_print; cbv beta).
    eexists. split; [apply print_eq|]. same_store.
    cbn [stdin console figures images written]. auto.
  - cbv beta iota.
    eexists. split; [apply print_eq|]. same_store.
    cbn [stdin console figures images written].
    rewrite remove_cons.
    rewrite (notin_remove _ _ _ (fresh_figure_not_open (figures w))).
    auto.
Qed.

End LegacyProgram.

Section LegacyExamples.
Import Regex Props More Locator Rewriter Runtime.

Lemma legacy_extractor_displays_first_witness :
  Legacy.extract_equations_from_tex
    (fun _ => Returns (txt "Let $x$ be, then $$y$$ holds.")) (txt "doc.tex")
    idle
  = (Returns [txt "$$y$$"; txt "$x$"], idle).
Proof.
  destruct (legacy_extractor_displays_first
              (fun _ => Returns (txt "Let $x$ be, then $$y$$ holds."))
              (txt "doc.tex") (txt "Let $x$ be, then $$y$$ holds.") idle)
    as (Hrun & _ & _).
  - reflexivity.
  - rewrite Hrun. vm_compute. reflexivity.
Defined.

End LegacyExamples.
